(** * pdf-invoice-merger: the page-layout engine

    A shallow embedding of the three layout variants of the repository
    (dual_layout_merger.py, pdf_merger.py, pdf_to_image_merger.py) and the
    properties of their fit-and-place arithmetic, pagination, pairing,
    ordering and failure handling.

    Python's [float] is IEEE 754 binary64.  The fit computation divides,
    takes a minimum, multiplies and truncates in that arithmetic, so the
    embedding carries an executable model of binary64 rounding over the
    rationals ([Binary64.rnd]) rather than exact arithmetic. *)

From Stdlib Require Import ZArith QArith Qround Qabs Qpower Qminmax Lia Lqa.
From Stdlib Require Import List String Ascii Bool Sorted Permutation Morphisms Floats.
Import ListNotations.

(* ================================================================= *)
(** ** Binary64 rounding *)

Module Binary64.

(** Precision of the binary64 significand. *)
Definition prec : Z := 53.

Definition pow2 (k : Z) : Q := (2#1) ^ k.

(** For [x > 0], the integer [k] with [2^(k-1) <= x < 2^k]. *)
Definition mag (x : Q) : Z :=
  let k0 := (Z.log2 (Qnum x) - Z.log2 (Zpos (Qden x)))%Z in
  if Qle_bool (pow2 k0) x then (k0 + 1)%Z else k0.

(** Nearest integer, ties to the even one. *)
Definition round_half_even (s : Q) : Z :=
  let f := Qfloor s in
  match Qcompare (s - inject_Z f) (1#2) with
  | Lt => f
  | Gt => (f + 1)%Z
  | Eq => if Z.even f then f else (f + 1)%Z
  end.

(** Round a positive rational to 53 significant bits. *)
Definition round_pos (x : Q) : Q :=
  let p := pow2 (mag x - prec) in inject_Z (round_half_even (x / p)) * p.

(** Round-to-nearest-even onto the binary64 grid.  The exponent range is
    left unbounded: the function agrees with IEEE 754 for every magnitude
    in [2^-1022, 2^1024), which covers the pixel and point quantities of
    the layout code (no overflow to infinity, no subnormals). *)
Definition rnd (x : Q) : Q :=
  match Qnum x with
  | Z0 => 0
  | Zpos _ => Qred (round_pos x)
  | Zneg _ => Qred (- round_pos (- x))
  end.

(** Unit roundoff. *)
Definition u : Q := pow2 (-53).

(** The rational value of one of the kernel's binary64 floats; used only
    to cross-check [rnd] against the primitive operations. *)
Definition float_value (f : float) : option Q :=
  match Prim2SF f with
  | S754_zero _ => Some 0
  | S754_finite s m e =>
      Some (Qred ((if s then -(1) else 1) * inject_Z (Zpos m) * pow2 e))
  | _ => None
  end.

End Binary64.

(* ================================================================= *)
(** ** The fragment of Python the sources use *)

Module Py.
Import Binary64.

(** Exceptions the modelled code can raise. [OSError] stands for the
    failures of [Image.open]; [ValueError] is what Pillow raises for a size
    it does not accept. *)
Inductive exn : Set := ZeroDivisionError | IndexError | OSError | ValueError.

Inductive result (A : Type) : Type :=
| Ok (a : A)
| Raise (e : exn).
Arguments Ok {A} a.
Arguments Raise {A} e.

Definition bind {A B : Type} (m : result A) (f : A -> result B) : result B :=
  match m with
  | Ok a => f a
  | Raise e => Raise e
  end.

(** A Python number: an [int] (unbounded) or a [float] (binary64, given by
    its exact rational value). *)
Inductive num : Type :=
| Int (z : Z)
| Float (q : Q).

(** The mathematical value; comparisons between numbers are exact. *)
Definition value (v : num) : Q :=
  match v with
  | Int z => inject_Z z
  | Float q => q
  end.

(** [float(v)]: an int operand of a mixed operation is converted first. *)
Definition to_float (v : num) : Q :=
  match v with
  | Int z => rnd (inject_Z z)
  | Float q => q
  end.

Definition add (a b : num) : num :=
  match a, b with
  | Int x, Int y => Int (x + y)
  | _, _ => Float (rnd (to_float a + to_float b))
  end.

Definition sub (a b : num) : num :=
  match a, b with
  | Int x, Int y => Int (x - y)
  | _, _ => Float (rnd (to_float a - to_float b))
  end.

Definition mul (a b : num) : num :=
  match a, b with
  | Int x, Int y => Int (x * y)
  | _, _ => Float (rnd (to_float a * to_float b))
  end.

(** The quotient [a / b] for [b <> 0]: int by int is correctly rounded
    from the exact quotient, any other pair divides the two floats. *)
Definition quotient (a b : num) : num :=
  match a, b with
  | Int x, Int y => Float (rnd (inject_Z x / inject_Z y))
  | _, _ => Float (rnd (to_float a / to_float b))
  end.

Definition is_zero (v : num) : bool := Qeq_bool (to_float v) 0.

(** [a / b] *)
Definition truediv (a b : num) : result num :=
  if is_zero b then Raise ZeroDivisionError else Ok (quotient a b).

(** [a < b] *)
Definition lt (a b : num) : bool := negb (Qle_bool (value b) (value a)).

(** [min(a, b)]: the first argument unless the second is smaller. *)
Definition min (a b : num) : num := if lt b a then b else a.

(** [int(v)]: truncation towards zero. *)
Definition int (v : num) : Z :=
  match v with
  | Int z => z
  | Float q => Z.quot (Qnum q) (Zpos (Qden q))
  end.

(** [math.ceil(v)] *)
Definition ceil (v : num) : Z :=
  match v with
  | Int z => z
  | Float q => Qceiling q
  end.

(** [a // b] and [a % b] on ints. *)
Definition floordiv (a b : Z) : result Z :=
  if (b =? 0)%Z then Raise ZeroDivisionError else Ok (a / b)%Z.

Definition modulo (a b : Z) : result Z :=
  if (b =? 0)%Z then Raise ZeroDivisionError else Ok (a mod b)%Z.

(** [range(n)] *)
Definition range (n : Z) : list Z := map Z.of_nat (seq 0 (Z.to_nat n)).

(** [len(l)] *)
Definition len {A : Type} (l : list A) : Z := Z.of_nat (List.length l).

(** [l[i]] for a list: negative indices count from the end. *)
Definition getitem {A : Type} (l : list A) (i : Z) : result A :=
  let j := if (i <? 0)%Z then (len l + i)%Z else i in
  if (j <? 0)%Z then Raise IndexError
  else match nth_error l (Z.to_nat j) with
       | Some a => Ok a
       | None => Raise IndexError
       end.

(** A [for] loop whose body may raise, threading the mutable state. *)
Fixpoint for_each {X S : Type} (xs : list X) (body : X -> S -> result S) (s : S)
  : result S :=
  match xs with
  | [] => Ok s
  | x :: xs' => bind (body x s) (for_each xs' body)
  end.

(** [enumerate(l)] *)
Definition enumerate {A : Type} (l : list A) : list (Z * A) :=
  combine (range (len l)) l.

(** [str.lower] on the ASCII letters; other bytes are left alone.  It is
    used only where the lower-cased string is compared with an ASCII
    constant (a file suffix, an answer at the console): no string with a
    character outside ASCII lower-cases to one of those constants, so the
    comparison comes out as with Python's Unicode-aware method.  Where the
    lower-cased string itself matters (the sort key and the suffix test of
    dual_layout_merger.py), the method is a parameter of the model. *)
Definition lower_ascii (c : ascii) : ascii :=
  let n := nat_of_ascii c in
  if (65 <=? n)%nat && (n <=? 90)%nat then ascii_of_nat (n + 32) else c.

Fixpoint lower (s : string) : string :=
  match s with
  | EmptyString => EmptyString
  | String c s' => String (lower_ascii c) (lower s')
  end.

(** [list.sort(key=...)] and [sorted]: the stable sort by a string key
    (strings compare by code point, as Python's do). *)
Fixpoint insert_by {A : Type} (key : A -> string) (x : A) (l : list A) : list A :=
  match l with
  | [] => [x]
  | y :: l' =>
      if String.leb (key x) (key y) then x :: y :: l'
      else y :: insert_by key x l'
  end.

Fixpoint sort_by {A : Type} (key : A -> string) (l : list A) : list A :=
  match l with
  | [] => []
  | x :: l' => insert_by key x (sort_by key l')
  end.

(** An insertion-ordered [dict] with string keys. *)
Definition dict (V : Type) : Type := list (string * V).

Fixpoint dict_set {V : Type} (d : dict V) (k : string) (v : V) : dict V :=
  match d with
  | [] => [(k, v)]
  | (k', v') :: d' =>
      if String.eqb k' k then (k', v) :: d' else (k', v') :: dict_set d' k v
  end.

Fixpoint dict_get {V : Type} (d : dict V) (k : string) : option V :=
  match d with
  | [] => None
  | (k', v') :: d' => if String.eqb k' k then Some v' else dict_get d' k
  end.

End Py.

Notation "'let!' x ':=' m 'in' k" := (Py.bind m (fun x => k))
  (at level 10, x name, m at level 100, k at level 200).

(* ================================================================= *)
(** ** The library objects the sources handle *)

(** [pathlib.Path]: a directory entry, already split by pathlib into
    [stem] and [suffix] (the name is their concatenation). *)
Module Path.

Record path : Type := { stem : string; suffix : string }.

Definition name (p : path) : string := (stem p ++ suffix p)%string.

(** One entry of [iterdir()], with the answer of [is_file()]. *)
Record dir_entry : Type := { entry_path : path; is_file : bool }.

End Path.

(** [PIL.Image]: only the pixel size of an image matters to the layout. *)
Module PIL.
Import Py.

Record image : Type := { width : Z; height : Z }.

(** [img.resize((w, h), LANCZOS)]: a request for the size the image
    already has returns a copy; otherwise Pillow raises ValueError
    ("height and width must be > 0") for a side below one pixel, and else
    returns an image of the requested size. *)
Definition resize (img : image) (size : Z * Z) : result image :=
  if (fst size =? width img)%Z && (snd size =? height img)%Z then Ok img
  else if (fst size <? 1)%Z || (snd size <? 1)%Z then Raise ValueError
  else Ok {| width := fst size; height := snd size |}.

(** [Image.new('RGB', (w, h), colour)]: Pillow raises ValueError ("Width
    and height must be >= 0") for a negative side. *)
Definition new (size : Z * Z) : result image :=
  if (fst size <? 0)%Z || (snd size <? 0)%Z then Raise ValueError
  else Ok {| width := fst size; height := snd size |}.

End PIL.

(** [fitz] (PyMuPDF): a document is the list of its pages; a page renders
    at a zoom factor into an image, or raises ([None]). *)
Module Fitz.

Definition page : Type := Q -> option PIL.image.
Definition document : Type := list page.

(** [doc[i]]: an index at or past [len(doc)] raises; PyMuPDF accepts a
    negative page number and counts it backwards, modulo the page count
    (a document without pages has no page to give). *)
Definition getitem (doc : document) (i : Z) : option page :=
  if (i <? 0)%Z then
    match doc with
    | [] => None
    | _ :: _ => nth_error doc (Z.to_nat (i mod Py.len doc))
    end
  else nth_error doc (Z.to_nat i).

End Fitz.

(** [reportlab.pdfgen.canvas.Canvas]: the drawing operations the sources
    issue, the page in progress and the pages closed so far.  Stroke
    colour, line width and font selection do not move anything and are
    left out. *)
Module ReportLab.
Import Py.

Inductive op : Type :=
| DrawImage (x y w h : num)
| DrawString (x y : num) (text : string)
| Line (x1 y1 x2 y2 : num).

Record canvas : Type := { finished : list (list op); current : list op }.

Definition Canvas : canvas := {| finished := []; current := [] |}.

Definition draw (o : op) (c : canvas) : canvas :=
  {| finished := finished c; current := current c ++ [o] |}.

(** [c.showPage()] closes the page in progress. *)
Definition showPage (c : canvas) : canvas :=
  {| finished := finished c ++ [current c]; current := [] |}.

(** [c.save()] closes a page in progress that has content and writes the
    document: the list of its pages. *)
Definition save (c : canvas) : list (list op) :=
  match current c with
  | [] => finished c
  | _ :: _ => finished c ++ [current c]
  end.

End ReportLab.

(* ================================================================= *)
(** ** dual_layout_merger.py *)

Module DualLayoutMerger.
Import Py Path PIL ReportLab.

Section Merger.

(** [str.lower], which knows the case pairs of all of Unicode: a
    parameter of the model. *)
Variable str_lower : string -> string.

(** [fitz.open(path)]; [None] when it raises. *)
Variable fitz_open : path -> option Fitz.document.

(** [Image.open(path)], with the conversion to RGB of an image in another
    mode; [None] when this raises.  Pillow reads the pixels of a file when
    they are first needed: for an image already in RGB that is in the
    resize, outside the handler of [load_image].  The result inside [Some]
    is what that deferred reading gives, the image or the error. *)
Variable image_open : path -> option (result image).

(** [A4] of reportlab.lib.pagesizes, in points. *)
Variable page_width page_height : num.

Definition supported_image_formats : list string :=
  [".png"; ".jpg"; ".jpeg"; ".bmp"; ".tiff"; ".gif"]%string.
Definition supported_pdf_format : string := ".pdf"%string.

Definition margin : num := Int 20.
Definition gap : num := Int 10.

Definition cell_width : num := sub page_width (mul (Int 2) margin).
Definition cell_height : num :=
  quotient (sub (sub page_height (mul (Int 2) margin)) gap) (Int 2).

Definition str_in (s : string) (l : list string) : bool :=
  existsb (String.eqb s) l.

(** [get_all_files]: [listing] is [None] when the input folder does not
    exist, else the entries of [iterdir()] in the order the system gives
    them. *)
Definition get_all_files (listing : option (list dir_entry)) : list path :=
  match listing with
  | None => []
  | Some entries =>
      let all_files :=
        map entry_path
          (filter (fun e =>
                     is_file e &&
                     (let file_ext := str_lower (suffix (entry_path e)) in
                      str_in file_ext supported_image_formats
                      || String.eqb file_ext supported_pdf_format))
                  entries) in
      sort_by (fun x => str_lower (name x)) all_files
  end.

Definition pdf_to_image (pdf_path : path) (page_num : Z) (dpi : num)
  : option image :=
  match fitz_open pdf_path with
  | None => None
  | Some doc =>
      let page_num := if (page_num >=? len doc)%Z then 0%Z else page_num in
      match Fitz.getitem doc page_num with
      | None => None
      | Some page =>
          let zoom := quotient dpi (Float 72) in
          page (value zoom)
      end
  end.

Definition load_image (image_path : path) : option (result image) :=
  image_open image_path.

Definition resize_image_to_fit (img : option image) (max_width max_height : num)
    (maintain_aspect : bool) : result (option image) :=
  match img with
  | None => Ok None
  | Some img =>
      let original_width := width img in
      let original_height := height img in
      if maintain_aspect then
        let! width_ratio := truediv max_width (Int original_width) in
        let! height_ratio := truediv max_height (Int original_height) in
        let scale_ratio := min width_ratio height_ratio in
        let new_width := int (mul (Int original_width) scale_ratio) in
        let new_height := int (mul (Int original_height) scale_ratio) in
        let! resized := resize img (new_width, new_height) in
        Ok (Some resized)
      else
        let! resized := resize img (int max_width, int max_height) in
        Ok (Some resized)
  end.

(** The first half of [process_file_to_image] (source lines 189-196):
    the image of a file before it is fitted to the cell.  The render of a
    PDF page is held in memory, its pixels are there. *)
Definition rasterize (file_path : path) : option (result image) :=
  let file_ext := str_lower (suffix file_path) in
  if String.eqb file_ext supported_pdf_format
  then match pdf_to_image file_path 0 (Int 150) with
       | Some img => Some (Ok img)
       | None => None
       end
  else load_image file_path.

(** The pixels are read when [resize_image_to_fit] reaches [img.resize]. *)
Definition process_file_to_image (file_path : path) : result (option image) :=
  let img := rasterize file_path in
  match img with
  | Some pending =>
      let! loaded := pending in
      resize_image_to_fit (Some loaded) cell_width cell_height true
  | None => Ok None
  end.

(** The upper slot of a page (source lines 233-255). *)
Definition draw_upper (file_path_1 : path) (c : canvas) : result canvas :=
  let! img_1 := process_file_to_image file_path_1 in
  match img_1 with
  | Some img_1 =>
      let img_width_1 := Int (width img_1) in
      let img_height_1 := Int (height img_1) in
      let x_1 := add margin (quotient (sub cell_width img_width_1) (Int 2)) in
      let y_1 := add (add (add margin cell_height) gap)
                     (quotient (sub cell_height img_height_1) (Int 2)) in
      let c := draw (DrawImage x_1 y_1 img_width_1 img_height_1) c in
      Ok (draw (DrawString margin (add (sub page_height margin) (Int 5))
                           (name file_path_1)) c)
  | None => Ok c
  end.

(** The lower slot of a page (source lines 258-280). *)
Definition draw_lower (file_path_2 : path) (c : canvas) : result canvas :=
  let! img_2 := process_file_to_image file_path_2 in
  match img_2 with
  | Some img_2 =>
      let img_width_2 := Int (width img_2) in
      let img_height_2 := Int (height img_2) in
      let x_2 := add margin (quotient (sub cell_width img_width_2) (Int 2)) in
      let y_2 := add margin (quotient (sub cell_height img_height_2) (Int 2)) in
      let c := draw (DrawImage x_2 y_2 img_width_2 img_height_2) c in
      Ok (draw (DrawString margin (sub margin (Int 15)) (name file_path_2)) c)
  | None => Ok c
  end.

(** The separator at the midline of the page. *)
Definition separator : op :=
  let center_y := add (add margin cell_height) (quotient gap (Int 2)) in
  Line margin center_y (sub page_width margin) center_y.

(** One iteration of the loop over [range(total_pages)]. *)
Definition page_body (all_files : list path) (total_pages : Z) (page_num : Z)
    (c : canvas) : result canvas :=
  let file_index_1 := (page_num * 2)%Z in
  let file_index_2 := (page_num * 2 + 1)%Z in
  let! c :=
    if (file_index_1 <? len all_files)%Z
    then let! file_path_1 := getitem all_files file_index_1 in
         draw_upper file_path_1 c
    else Ok c in
  let! c :=
    if (file_index_2 <? len all_files)%Z
    then let! file_path_2 := getitem all_files file_index_2 in
         draw_lower file_path_2 c
    else Ok c in
  let c := draw separator c in
  Ok (if (page_num <? total_pages - 1)%Z then showPage c else c).

(** [create_dual_layout_pdf]: the pages of the saved document, or [None]
    when no file is written. *)
Definition create_dual_layout_pdf (all_files : list path)
  : result (option (list (list op))) :=
  match all_files with
  | [] => Ok None
  | _ :: _ =>
      let c := Canvas in
      let total_pages := ceil (quotient (Int (len all_files)) (Int 2)) in
      let! c := for_each (range total_pages) (page_body all_files total_pages) c in
      Ok (Some (save c))
  end.

Definition process_all_files (listing : option (list dir_entry))
  : result (option (list (list op))) :=
  let all_files := get_all_files listing in
  match all_files with
  | [] => Ok None
  | _ :: _ => create_dual_layout_pdf all_files
  end.

End Merger.

End DualLayoutMerger.

(* ================================================================= *)
(** ** pdf_merger.py *)

Module PDFInvoiceMerger.
Import Py Path PIL ReportLab.

(** What the merger prints. *)
Inductive message : Type :=
| FolderMissing
| PairFound (name : string)
| NoPairFound
| NothingToProcess
| Processing (total_count : Z)
| PdfConversionFailed (pdf_path : path)
| MergeDone (output_filename : string)
| MergeFailed (pdf_path image_path : path)
| Finished (success_count total_count : Z).

(** What one run leaves behind: the files written to the output folder
    and the console log. *)
Record outcome : Type :=
  { written : list (string * list (list op)); log : list message }.

Section Merger.

Variable fitz_open : path -> option Fitz.document.
(** [Image.open(path)] and the reading of its pixels, which Pillow defers
    to the resize; [None] when either raises (both are in the [try] of
    [merge_pdf_and_image], so either way the merge fails). *)
Variable image_open : path -> option image.
Variable page_width page_height : num.

Definition supported_image_formats : list string :=
  [".png"; ".jpg"; ".jpeg"; ".bmp"; ".tiff"; ".gif"]%string.

Definition str_in (s : string) (l : list string) : bool :=
  existsb (String.eqb s) l.

(** The scan of the input folder (source lines 47-58): the two dicts
    keyed by stem. *)
Fixpoint scan (entries : list dir_entry) (pdf_files image_files : dict path)
  : dict path * dict path :=
  match entries with
  | [] => (pdf_files, image_files)
  | e :: entries' =>
      let file_path := entry_path e in
      if is_file e then
        let name_without_ext := stem file_path in
        if String.eqb (lower (suffix file_path)) ".pdf"
        then scan entries' (dict_set pdf_files name_without_ext file_path) image_files
        else if str_in (lower (suffix file_path)) supported_image_formats
        then scan entries' pdf_files (dict_set image_files name_without_ext file_path)
        else scan entries' pdf_files image_files
      else scan entries' pdf_files image_files
  end.

(** The loop over [pdf_files] (source lines 61-65). *)
Fixpoint matching (pdf_files image_files : dict path)
  : list (path * path) * list message :=
  match pdf_files with
  | [] => ([], [])
  | (name, pdf_path) :: rest =>
      let (pairs, msgs) := matching rest image_files in
      match dict_get image_files name with
      | Some image_path => ((pdf_path, image_path) :: pairs, PairFound name :: msgs)
      | None => (pairs, msgs)
      end
  end.

Definition get_file_pairs (listing : option (list dir_entry))
  : list (path * path) * list message :=
  match listing with
  | None => ([], [FolderMissing])
  | Some entries =>
      let (pdf_files, image_files) := scan entries [] [] in
      let (pairs, msgs) := matching pdf_files image_files in
      match pairs with
      | [] => (pairs, msgs ++ [NoPairFound])
      | _ :: _ => (pairs, msgs)
      end
  end.

Definition pdf_to_image (pdf_path : path) : option image :=
  match fitz_open pdf_path with
  | None => None
  | Some doc =>
      match Fitz.getitem doc 0 with
      | None => None
      | Some page => let zoom := Float 2 in page (value zoom)
      end
  end.

Definition resize_image_to_fit (img : image) (max_width max_height : num)
  : result image :=
  let img_width := width img in
  let img_height := height img in
  let! width_ratio := truediv max_width (Int img_width) in
  let! height_ratio := truediv max_height (Int img_height) in
  let scale := min width_ratio height_ratio in
  let new_width := int (mul (Int img_width) scale) in
  let new_height := int (mul (Int img_height) scale) in
  resize img (new_width, new_height).

(** The body of the [try] of [merge_pdf_and_image], given the rasterized
    PDF; an exception leaves the canvas unsaved. *)
Definition merge_body (pdf_img : option image) (image_path : path)
  : result canvas :=
  let c := Canvas in
  let half_height := quotient page_height (Int 2) in
  let margin := Int 20 in
  let! c :=
    match pdf_img with
    | Some pdf_img =>
        let! pdf_resized :=
          resize_image_to_fit pdf_img
            (sub page_width (mul (Int 2) margin)) (sub half_height margin) in
        let pdf_x := quotient (sub page_width (Int (width pdf_resized))) (Int 2) in
        let pdf_y := add half_height
                         (quotient (sub half_height (Int (height pdf_resized))) (Int 2)) in
        Ok (draw (DrawImage pdf_x pdf_y (Int (width pdf_resized))
                            (Int (height pdf_resized))) c)
    | None => Ok c
    end in
  let! verify_img :=
    match image_open image_path with
    | Some img => Ok img
    | None => Raise OSError
    end in
  let! verify_resized :=
    resize_image_to_fit verify_img
      (sub page_width (mul (Int 2) margin)) (sub half_height margin) in
  let verify_x := quotient (sub page_width (Int (width verify_resized))) (Int 2) in
  let verify_y := quotient (sub half_height (Int (height verify_resized))) (Int 2) in
  let c := draw (DrawImage verify_x verify_y (Int (width verify_resized))
                           (Int (height verify_resized))) c in
  let c := draw (Line margin half_height (sub page_width margin) half_height) c in
  let c := draw (DrawString margin (sub page_height (Int 15)) "发票原件") c in
  let c := draw (DrawString margin (sub half_height (Int 15)) "查验结果") c in
  Ok c.

(** [merge_pdf_and_image]: the returned flag, the document saved (if any)
    and what was printed. *)
Definition merge_pdf_and_image (pdf_path image_path : path)
    (output_filename : string)
  : bool * option (list (list op)) * list message :=
  let pdf_img := pdf_to_image pdf_path in
  let msgs :=
    match pdf_img with
    | None => [PdfConversionFailed pdf_path]
    | Some _ => []
    end in
  match merge_body pdf_img image_path with
  | Ok c => (true, Some (save c), msgs ++ [MergeDone output_filename])
  | Raise _ => (false, None, msgs ++ [MergeFailed pdf_path image_path])
  end.

(** The loop of [process_all] over the pairs. *)
Fixpoint process_pairs (pairs : list (path * path)) (success_count : Z)
    (acc : outcome) : Z * outcome :=
  match pairs with
  | [] => (success_count, acc)
  | (pdf_path, image_path) :: rest =>
      let output_filename := (stem pdf_path ++ "_merged.pdf")%string in
      match merge_pdf_and_image pdf_path image_path output_filename with
      | (ok, saved, msgs) =>
          let files :=
            match saved with
            | Some doc => written acc ++ [(output_filename, doc)]
            | None => written acc
            end in
          process_pairs rest
            (if ok then success_count + 1 else success_count)%Z
            {| written := files; log := log acc ++ msgs |}
      end
  end.

Definition process_all (listing : option (list dir_entry)) : outcome :=
  let (pairs, msgs) := get_file_pairs listing in
  match pairs with
  | [] => {| written := []; log := msgs ++ [NothingToProcess] |}
  | _ :: _ =>
      let total_count := len pairs in
      let (success_count, out) :=
        process_pairs pairs 0
          {| written := []; log := msgs ++ [Processing total_count] |} in
      {| written := written out;
         log := log out ++ [Finished success_count total_count] |}
  end.

End Merger.

End PDFInvoiceMerger.

(* ================================================================= *)
(** ** pdf_to_image_merger.py *)

Module PDFToImageMerger.
Import Py Path PIL.

(** The caption of a grid cell: the stem, with the page number when the
    source PDF has more than one page. *)
Inductive label : Type :=
| Plain (stem : string)
| Paged (stem : string) (page : Z).

(** One pasted cell: its corner on the canvas, the labelled image and
    where it is pasted inside the cell. *)
Record cell : Type :=
  { caption : label;
    x : Z; y : Z;
    labeled_image : image;
    paste_x : Z; paste_y : Z }.

(** The composite: the canvas size and the cells in pasting order. *)
Record grid : Type :=
  { canvas_width : Z; canvas_height : Z; cells : list cell }.

Definition dpi : num := Int 200.
Definition margin : Z := 20.
Definition border_width : Z := 2.

Section Merger.

Variable fitz_open : path -> option Fitz.document.

(** Render every page; one failure fails the lot. *)
Fixpoint render_all (pages : Fitz.document) (zoom : Q) : option (list image) :=
  match pages with
  | [] => Some []
  | page :: rest =>
      match page zoom with
      | None => None
      | Some img =>
          match render_all rest zoom with
          | None => None
          | Some imgs => Some (img :: imgs)
          end
      end
  end.

Definition convert_pdf_to_images (pdf_path : path) : list image :=
  match fitz_open pdf_path with
  | None => []
  | Some pdf_document =>
      let zoom := quotient dpi (Float 72) in
      match render_all pdf_document (value zoom) with
      | Some images => images
      | None => []
      end
  end.

(** Returns (rows, cols). *)
Definition calculate_grid_layout (total_images max_cols : Z) : result (Z * Z) :=
  if (total_images <=? max_cols)%Z then Ok (1%Z, total_images)
  else
    let cols := Z.min max_cols total_images in
    let! q := truediv (Int total_images) (Int cols) in
    let rows := ceil q in
    Ok (rows, cols).

Definition resize_image_proportionally (image : PIL.image)
    (target_width target_height : num) : result PIL.image :=
  let! width_ratio := truediv target_width (Int (width image)) in
  let! height_ratio := truediv target_height (Int (height image)) in
  let scale_ratio := min width_ratio height_ratio in
  let new_width := int (mul (Int (width image)) scale_ratio) in
  let new_height := int (mul (Int (height image)) scale_ratio) in
  resize image (new_width, new_height).

(** The labelled image: the caption band above the picture.  The text
    position depends on font metrics and is not part of the geometry. *)
Definition add_image_label (image : PIL.image) (label_text : label)
    (font_size : Z) : result PIL.image :=
  let label_height := (font_size + 20)%Z in
  PIL.new (width image, (height image + label_height)%Z).

(** One iteration of the placing loop (source lines 195-224). *)
Definition place (cell_width cell_height cols : Z)
    (item : Z * (image * label)) (placed : list cell) : result (list cell) :=
  let i := fst item in
  let image := fst (snd item) in
  let label := snd (snd item) in
  let! row := floordiv i cols in
  let! col := modulo i cols in
  let x := (col * (cell_width + margin) + margin)%Z in
  let y := (row * (cell_height + margin) + margin)%Z in
  let! resized_image :=
    resize_image_proportionally image
      (Int (cell_width - border_width * 2))
      (Int (cell_height - border_width * 2 - 50)) in
  let! labeled_image := add_image_label resized_image label 24 in
  let! cell_image := PIL.new (cell_width, cell_height) in
  let paste_x := ((cell_width - width labeled_image) / 2)%Z in
  let paste_y := ((cell_height - height labeled_image) / 2)%Z in
  Ok (placed ++ [{| caption := label; x := x; y := y;
                    labeled_image := labeled_image;
                    paste_x := paste_x; paste_y := paste_y |}]).

(** The head of [merge_images_to_grid] (source lines 182-192): the
    layout and the blank canvas; the columns go on to the placing loop. *)
Definition blank_canvas (total_images cell_width cell_height max_cols : Z)
  : result (Z * PIL.image) :=
  let! rc := calculate_grid_layout total_images max_cols in
  let rows := fst rc in
  let cols := snd rc in
  let canvas_width := (cols * (cell_width + margin) + margin)%Z in
  let canvas_height := (rows * (cell_height + margin) + margin)%Z in
  let! canvas := PIL.new (canvas_width, canvas_height) in
  Ok (cols, canvas).

(** [merge_images_to_grid]: the composite, or [None] when there is
    nothing to merge. *)
Definition merge_images_to_grid (all_images : list image)
    (image_labels : list label) (cell_width cell_height max_cols : Z)
  : result (option grid) :=
  match all_images with
  | [] => Ok None
  | _ :: _ =>
      let total_images := len all_images in
      let! cc := blank_canvas total_images cell_width cell_height max_cols in
      let cols := fst cc in
      let canvas := snd cc in
      let! placed :=
        for_each (enumerate (combine all_images image_labels))
                 (place cell_width cell_height cols) [] in
      Ok (Some {| canvas_width := width canvas;
                  canvas_height := height canvas;
                  cells := placed |})
  end.

(** The pages one PDF contributes, with their labels (source lines
    257-266). *)
Definition pages_of (pdf_file : path) : list (image * label) :=
  let images := convert_pdf_to_images pdf_file in
  map (fun it =>
         let i := fst it in
         let image := snd it in
         (image,
          if (len images >? 1)%Z then Paged (stem pdf_file) (i + 1)
          else Plain (stem pdf_file)))
      (enumerate images).

(** [process_pdfs_to_merged_image]: [listing] is [None] when the input
    folder is missing, else the result of [glob("*.pdf")].  [sorted]
    compares the paths, which within one folder, on a POSIX system, is the
    code-point order of the names. *)
Definition process_pdfs_to_merged_image (listing : option (list path))
    (max_cols cell_width cell_height : Z) : result (option grid) :=
  match listing with
  | None => Ok None
  | Some [] => Ok None
  | Some pdf_files =>
      let items := flat_map pages_of (sort_by name pdf_files) in
      let all_images := map fst items in
      let image_labels := map snd items in
      match all_images with
      | [] => Ok None
      | _ :: _ =>
          merge_images_to_grid all_images image_labels
                               cell_width cell_height max_cols
      end
  end.

End Merger.

End PDFToImageMerger.

(* ================================================================= *)
(** ** The fit computation as the specification words it *)

Module Spec.

(** [scale = min(cellWidth/nativeWidth, cellHeight/nativeHeight)], in
    exact arithmetic. *)
Definition scale (nativeWidth nativeHeight : Z) (cellWidth cellHeight : Q) : Q :=
  Qmin (cellWidth / inject_Z nativeWidth) (cellHeight / inject_Z nativeHeight).

(** [scaledW = floor(nativeWidth*scale)], [scaledH = floor(nativeHeight*scale)]. *)
Definition fit (nativeWidth nativeHeight : Z) (cellWidth cellHeight : Q) : Z * Z :=
  let s := scale nativeWidth nativeHeight cellWidth cellHeight in
  (Qfloor (inject_Z nativeWidth * s), Qfloor (inject_Z nativeHeight * s)).

(** The size the three copies of the fit ask the resize for: the same
    formula, evaluated as the sources do, in binary64. *)
Definition scaled_size (nativeWidth nativeHeight : Z) (cellWidth cellHeight : Py.num)
  : Z * Z :=
  let s := Py.min (Py.quotient cellWidth (Py.Int nativeWidth))
                  (Py.quotient cellHeight (Py.Int nativeHeight)) in
  (Py.int (Py.mul (Py.Int nativeWidth) s), Py.int (Py.mul (Py.Int nativeHeight) s)).

(** An image that keeps at least one pixel on each side in its cell. *)
Definition fits (img : PIL.image) (cellWidth cellHeight : Py.num) : Prop :=
  (1 <= fst (scaled_size (PIL.width img) (PIL.height img) cellWidth cellHeight))%Z /\
  (1 <= snd (scaled_size (PIL.width img) (PIL.height img) cellWidth cellHeight))%Z.

(** [offset = (cell - scaled)/2], measured from the cell's origin. *)
Definition offset (cell : Q) (scaled : Z) : Q := (cell - inject_Z scaled) / 2.

(** A cell side [c] with no integer in the interval from [c] (excluded)
    to [c] enlarged by three roundings: truncating a product that rounding
    pushed above [c] still lands at or below [c]. *)
Definition rounding_safe (c : Q) : Prop :=
  inject_Z (Qfloor (c * ((1 + Binary64.u) * (1 + Binary64.u) * (1 + Binary64.u)))) <= c.

(** [v] is [exact] up to three binary64 roundings. *)
Definition within_three_roundings (v exact : Q) : Prop :=
  exact * ((1 - Binary64.u) * (1 - Binary64.u) * (1 - Binary64.u)) <= v
  /\ v <= exact * ((1 + Binary64.u) * (1 + Binary64.u) * (1 + Binary64.u)).

(** [A4] of reportlab.lib.pagesizes: 210 mm by 297 mm in points, as the
    binary64 values 595.2755905511812 and 841.8897637795277. *)
Definition A4_width : Py.num := Py.Float (5236099468337991 # 8796093022208).
Definition A4_height : Py.num := Py.Float (7405340676649445 # 8796093022208).

End Spec.

(* ================================================================= *)
(** ** The console *)

(** The standard input is the list of the lines not yet read; [input()]
    takes the first one and raises EOFError when there is none.  Strings
    are UTF-8 byte strings. *)
Module Console.

Definition stdin : Type := list string.

Definition byte (n : nat) (c : ascii) : bool := Nat.eqb (nat_of_ascii c) n.

Definition between (lo hi : nat) (c : ascii) : bool :=
  Nat.leb lo (nat_of_ascii c) && Nat.leb (nat_of_ascii c) hi.

(** [str.isspace] on a character of one, two and three bytes: U+0009 to
    U+000D, U+001C to U+0020; U+0085, U+00A0; U+1680, U+2000 to U+200A,
    U+2028, U+2029, U+202F, U+205F, U+3000. *)
Definition space1 (c : ascii) : bool := between 9 13 c || between 28 32 c.

Definition space2 (c1 c2 : ascii) : bool :=
  byte 194 c1 && (byte 133 c2 || byte 160 c2).

Definition space3 (c1 c2 c3 : ascii) : bool :=
  byte 225 c1 && byte 154 c2 && byte 128 c3
  || byte 226 c1 && byte 128 c2
     && (between 128 138 c3 || byte 168 c3 || byte 169 c3 || byte 175 c3)
  || byte 226 c1 && byte 129 c2 && byte 159 c3
  || byte 227 c1 && byte 128 c2 && byte 128 c3.

(** [str.lstrip()] *)
Fixpoint lstrip (s : string) : string :=
  match s with
  | String c1 r1 =>
      if space1 c1 then lstrip r1
      else
        match r1 with
        | String c2 r2 =>
            if space2 c1 c2 then lstrip r2
            else
              match r2 with
              | String c3 r3 => if space3 c1 c2 c3 then lstrip r3 else s
              | EmptyString => s
              end
        | EmptyString => s
        end
  | EmptyString => s
  end.

(** The same from the end, on the reversed bytes. *)
Fixpoint lstrip_reversed (s : string) : string :=
  match s with
  | String c1 r1 =>
      if space1 c1 then lstrip_reversed r1
      else
        match r1 with
        | String c2 r2 =>
            if space2 c2 c1 then lstrip_reversed r2
            else
              match r2 with
              | String c3 r3 => if space3 c3 c2 c1 then lstrip_reversed r3 else s
              | EmptyString => s
              end
        | EmptyString => s
        end
  | EmptyString => s
  end.

Definition reverse (s : string) : string :=
  string_of_list_ascii (rev (list_ascii_of_string s)).

(** [str.rstrip()] and [str.strip()] *)
Definition rstrip (s : string) : string := reverse (lstrip_reversed (reverse s)).

Definition strip (s : string) : string := rstrip (lstrip s).

(** [s in l] for a list of strings. *)
Definition str_in (s : string) (l : list string) : bool := existsb (String.eqb s) l.

End Console.

(* ================================================================= *)
(** ** pdf_to_image_merger.py: main *)

Module GridCli.
Import Py Path PIL PDFToImageMerger Console.

Section Cli.

(** The builtin [int] on a string; [None] when it raises ValueError. *)
Variable int_of_str : string -> option Z.
Variable fitz_open : path -> option Fitz.document.

(** [line or default] *)
Definition answer (line default : string) : string :=
  match line with
  | EmptyString => default
  | _ => line
  end.

(** What the three questions leave: the settings and the input not yet
    read, or the end of the input (EOFError, which the function does not
    catch). *)
Inductive settings : Type :=
| Settings (max_cols cell_width cell_height : Z) (rest : stdin)
| EndOfInput.

(** The [try] of [main] (source lines 296-302). *)
Definition read_settings (input : stdin) : settings :=
  match input with
  | [] => EndOfInput
  | line1 :: input1 =>
      match int_of_str (answer line1 "4") with
      | None => Settings 4 400 500 input1
      | Some max_cols =>
          match input1 with
          | [] => EndOfInput
          | line2 :: input2 =>
              match int_of_str (answer line2 "400") with
              | None => Settings 4 400 500 input2
              | Some cell_width =>
                  match input2 with
                  | [] => EndOfInput
                  | line3 :: input3 =>
                      match int_of_str (answer line3 "500") with
                      | None => Settings 4 400 500 input3
                      | Some cell_height =>
                          Settings max_cols cell_width cell_height input3
                      end
                  end
              end
          end
      end
  end.

(** How [main] ends. *)
Inductive report : Type :=
| Done (g : grid)          (* the composite was written *)
| Failed                   (* nothing to write *)
| Raised (e : exn)         (* an exception left [main] *)
| InputEnded.              (* EOFError left [main] *)

(** [main]: [listing] is what the input folder holds (see
    [process_pdfs_to_merged_image]). *)
Definition main (listing : option (list path)) (input : stdin) : report * stdin :=
  match read_settings input with
  | EndOfInput => (InputEnded, [])
  | Settings max_cols cell_width cell_height rest =>
      (match process_pdfs_to_merged_image fitz_open listing
               max_cols cell_width cell_height with
       | Ok (Some g) => Done g
       | Ok None => Failed
       | Raise e => Raised e
       end, rest)
  end.

End Cli.
End GridCli.

(* ================================================================= *)
(** ** main.py *)

Module Menu.
Import Py Console.

Inductive feature : Type := PdfMerger | PdfToImageMerger | DualLayoutMerger.

(** The menu entry of a feature. *)
Definition key (f : feature) : string :=
  match f with
  | PdfMerger => "1"
  | PdfToImageMerger => "2"
  | DualLayoutMerger => "3"
  end.

(** What a session shows: the menu, the features it starts
    ([run_pdf_merger], [run_pdf_to_image_merger], [run_dual_layout_merger]),
    the two error lines and the farewell.  An interruption from the
    keyboard is not part of the model. *)
Inductive event : Type :=
| ShowMenu
| Run (f : feature)
| InvalidChoice
| LoopError
| Goodbye.

(** The exceptions that leave [main]. *)
Inductive error : Type := UnboundLocalError | EOFError.

(** How a session ends: [main] returns, leaving part of the input unread;
    an exception leaves [main]; or the loop is still running when the fuel
    is spent. *)
Inductive outcome : Type :=
| Exited (trace : list event) (rest : stdin)
| Crashed (e : error) (trace : list event)
| OutOfFuel (trace : list event).

Definition trace_of (o : outcome) : list event :=
  match o with
  | Exited trace _ => trace
  | Crashed _ trace => trace
  | OutOfFuel trace => trace
  end.

Section Session.

Variable int_of_str : string -> option Z.

(** The input left by [run_pdf_to_image_merger]: the feature asks its
    three questions; an exception it raises, EOFError included, is caught
    by the wrapper. *)
Definition after_image_merger (input : stdin) : stdin :=
  match GridCli.read_settings int_of_str input with
  | GridCli.Settings _ _ _ rest => rest
  | GridCli.EndOfInput => []
  end.

(** The end of the loop body (source lines 102-110): the question whether
    to go on, asked after a feature; [again] is the next round of the loop.
    [choice] is the local variable of that name, unbound before the first
    answer. *)
Definition go_on (again : option string -> stdin -> list event -> outcome)
    (choice : option string) (input : stdin) (trace : list event) : outcome :=
  match choice with
  | None => Crashed UnboundLocalError trace
  | Some c =>
      if str_in c ["1"; "2"; "3"]%string then
        match input with
        | [] => Crashed EOFError trace
        | line :: input =>
            let continue_choice := strip (lower line) in
            if str_in continue_choice ["y"; "yes"; "是"]%string
            then again choice input trace
            else Exited (trace ++ [Goodbye]) input
        end
      else again choice input trace
  end.

(** The loop of [main] (source lines 78-100), one round per unit of fuel.
    At the end of the input [input()] raises EOFError, which the handler
    of [Exception] reports; [choice] then keeps its last value. *)
Fixpoint loop (fuel : nat) (choice : option string) (input : stdin)
    (trace : list event) : outcome :=
  match fuel with
  | O => OutOfFuel trace
  | S fuel =>
      let trace := trace ++ [ShowMenu] in
      match input with
      | [] => go_on (loop fuel) choice [] (trace ++ [LoopError])
      | line :: input =>
          let c := strip line in
          if String.eqb c "0" then Exited (trace ++ [Goodbye]) input
          else if String.eqb c "1" then
            go_on (loop fuel) (Some c) input (trace ++ [Run PdfMerger])
          else if String.eqb c "2" then
            go_on (loop fuel) (Some c) (after_image_merger input)
                  (trace ++ [Run PdfToImageMerger])
          else if String.eqb c "3" then
            go_on (loop fuel) (Some c) input (trace ++ [Run DualLayoutMerger])
          else go_on (loop fuel) (Some c) input (trace ++ [InvalidChoice])
      end
  end.

(** [main] *)
Definition main (fuel : nat) (input : stdin) : outcome := loop fuel None input [].

(** A state of the loop from which no amount of fuel ends the session. *)
Definition never_ends (choice : option string) (input : stdin) : Prop :=
  forall fuel trace, exists t, loop fuel choice input trace = OutOfFuel t.

End Session.
End Menu.

(* ================================================================= *)
(** ** The layouts the variants are meant to produce *)

Module DualPages.
Import Py Path PIL ReportLab DualLayoutMerger.
Section Pages.
Variable str_lower : string -> string.
Variable fitz_open : path -> option Fitz.document.
Variable image_open : path -> option (result image).
Variable page_width page_height : num.

(** What a file has to show: a PDF its first page, rendered at 150 dpi; an
    image file its image. *)
Definition source_image (f : path) : option image :=
  if String.eqb (str_lower (suffix f)) ".pdf" then
    match fitz_open f with
    | Some (page :: _) => page (value (quotient (Int 150) (Float 72)))
    | _ => None
    end
  else
    match image_open f with
    | Some (Ok img) => Some img
    | _ => None
    end.

(** An image file that opens but whose pixels cannot be read. *)
Definition unreadable (f : path) : Prop :=
  String.eqb (str_lower (suffix f)) ".pdf" = false /\
  exists e, image_open f = Some (Raise e).

(** A file the layout can take: its pixels can be read if it opens, and if
    it has an image, the image has positive sides and keeps at least one
    pixel on each side in the cell (else the resize raises). *)
Definition drawable (f : path) : Prop :=
  ~ unreadable f /\
  forall img, source_image f = Some img ->
    (0 < width img)%Z /\ (0 < height img)%Z /\
    Spec.fits img (cell_width page_width) (cell_height page_height).

(** The two cells of a page. *)
Inductive slot : Type := Upper | Lower.

(** The bottom edge of a cell: the lower cell stands on the bottom
    margin, the upper cell on top of the lower cell and the gap. *)
Definition slot_origin (s : slot) : num :=
  match s with
  | Upper => add (add margin (cell_height page_height)) gap
  | Lower => margin
  end.

(** The baseline of the caption of a cell: above the upper cell, below
    the lower cell. *)
Definition caption_line (s : slot) : num :=
  match s with
  | Upper => add (sub page_height margin) (Int 5)
  | Lower => sub margin (Int 15)
  end.

(** The size an image takes in a cell of the page. *)
Definition in_cell (img : image) : image :=
  let size := Spec.scaled_size (width img) (height img)
                (cell_width page_width) (cell_height page_height) in
  {| width := fst size; height := snd size |}.

(** What a cell shows of its file: nothing for a file without image; else
    the image, scaled to the cell and centred in it, and the name of the
    file. *)
Definition slot_ops (s : slot) (f : path) : list op :=
  match source_image f with
  | None => []
  | Some img =>
      let shown := in_cell img in
      [DrawImage
         (add margin (quotient (sub (cell_width page_width) (Int (width shown))) (Int 2)))
         (add (slot_origin s)
              (quotient (sub (cell_height page_height) (Int (height shown))) (Int 2)))
         (Int (width shown)) (Int (height shown));
       DrawString margin (caption_line s) (name f)]
  end.

(** The line between the two cells. *)
Definition midline : op :=
  let y := add (add margin (cell_height page_height)) (quotient gap (Int 2)) in
  Line margin y (sub page_width margin) y.

(** The pages of the dual layout: two files per page, the first in the
    upper cell and the second in the lower one; a last single file alone
    in the upper cell. *)
Fixpoint paginate (files : list path) : list (list op) :=
  match files with
  | [] => []
  | f :: rest =>
      match rest with
      | [] => [slot_ops Upper f ++ [midline]]
      | g :: rest' =>
          (slot_ops Upper f ++ slot_ops Lower g ++ [midline]) :: paginate rest'
      end
  end.

(** What the cell of a page shows when the list may have no file for it. *)
Definition slot_of (s : slot) (f : option path) : list op :=
  match f with
  | Some f => slot_ops s f
  | None => []
  end.

End Pages.
End DualPages.

Module PairedSpec.
Import Py Path PIL ReportLab PDFInvoiceMerger.

(** A listed file with the PDF suffix, whatever its case. *)
Definition is_pdf (e : dir_entry) : bool :=
  is_file e && String.eqb (lower (suffix (entry_path e))) ".pdf".

(** A listed file with one of the image suffixes. *)
Definition is_image (e : dir_entry) : bool :=
  is_file e && str_in (lower (suffix (entry_path e))) supported_image_formats.

Definition has_pdf (entries : list dir_entry) (s : string) : Prop :=
  exists e, In e entries /\ is_pdf e = true /\ stem (entry_path e) = s.

Definition has_image (entries : list dir_entry) (s : string) : Prop :=
  exists e, In e entries /\ is_image e = true /\ stem (entry_path e) = s.

(** The stems a console message is about. *)
Definition mentions (m : message) (s : string) : Prop :=
  match m with
  | PairFound name => name = s
  | PdfConversionFailed pdf_path => stem pdf_path = s
  | MergeDone output_filename => output_filename = (s ++ "_merged.pdf")%string
  | MergeFailed pdf_path image_path => stem pdf_path = s \/ stem image_path = s
  | _ => False
  end.

(** The stems of the listed PDFs, in listing order. *)
Definition pdf_stems (entries : list dir_entry) : list string :=
  map (fun e => stem (entry_path e)) (filter is_pdf entries).

(** A list of stems without the repetitions of a stem already seen. *)
Fixpoint first_occurrences (seen l : list string) : list string :=
  match l with
  | [] => []
  | s :: l' =>
      if existsb (String.eqb s) seen then first_occurrences seen l'
      else s :: first_occurrences (seen ++ [s]) l'
  end.

(** Some listed image has the stem [s]. *)
Definition has_image_b (entries : list dir_entry) (s : string) : bool :=
  existsb (fun e => is_image e && String.eqb (stem (entry_path e)) s) entries.

End PairedSpec.

Module PairedRun.
Import Py Path PIL ReportLab PDFInvoiceMerger.
Section Run.
Variable fitz_open : path -> option Fitz.document.
Variable image_open : path -> option image.
Variable page_width page_height : num.

Definition output_name (pair : path * path) : string :=
  (stem (fst pair) ++ "_merged.pdf")%string.

(** The file one pair leaves in the output folder, if its merge succeeds. *)
Definition merged_file (pair : path * path) : list (string * list (list op)) :=
  match merge_pdf_and_image fitz_open image_open page_width page_height
          (fst pair) (snd pair) (output_name pair) with
  | (_, Some doc, _) => [(output_name pair, doc)]
  | (_, None, _) => []
  end.

(** What merging one pair prints. *)
Definition merge_messages (pair : path * path) : list message :=
  snd (merge_pdf_and_image fitz_open image_open page_width page_height
         (fst pair) (snd pair) (output_name pair)).

End Run.
End PairedRun.

Module GridSpec.
Import Py Path PIL PDFToImageMerger.

(** The area of a cell left to the picture: the cell without the border
    on each side and without the room kept for the label. *)
Definition picture_width (cell_width : Z) : num := Int (cell_width - border_width * 2).
Definition picture_height (cell_height : Z) : num :=
  Int (cell_height - border_width * 2 - 50).

(** The image a grid item is shrunk to. *)
Definition fitted (cell_width cell_height : Z) (image : PIL.image) : PIL.image :=
  let size := Spec.scaled_size (width image) (height image)
                (picture_width cell_width) (picture_height cell_height) in
  {| width := fst size; height := snd size |}.

(** An image the grid can take: positive sides, and at least one pixel
    left on each side in the picture area (else the resize raises). *)
Definition placeable (cell_width cell_height : Z) (image : PIL.image) : Prop :=
  (0 < width image)%Z /\ (0 < height image)%Z /\
  Spec.fits image (picture_width cell_width) (picture_height cell_height).

(** The fitted picture under its label band of 24 + 20 pixels. *)
Definition labelled (cell_width cell_height : Z) (image : PIL.image) : PIL.image :=
  {| width := width (fitted cell_width cell_height image);
     height := height (fitted cell_width cell_height image) + (24 + 20) |}.

(** The cell of the item at position [i] of the sequence. *)
Definition cell_of (cell_width cell_height cols : Z) (item : Z * (image * label))
  : cell :=
  let i := fst item in
  let labeled := labelled cell_width cell_height (fst (snd item)) in
  {| caption := snd (snd item);
     x := (i mod cols) * (cell_width + margin) + margin;
     y := (i / cols) * (cell_height + margin) + margin;
     labeled_image := labeled;
     paste_x := (cell_width - width labeled) / 2;
     paste_y := (cell_height - height labeled) / 2 |}%Z.

(** Two cells of the given size that share no pixel. *)
Definition disjoint (cell_width cell_height : Z) (c1 c2 : cell) : Prop :=
  (x c1 + cell_width <= x c2 \/ x c2 + cell_width <= x c1 \/
   y c1 + cell_height <= y c2 \/ y c2 + cell_height <= y c1)%Z.

(** The stem a caption shows. *)
Definition caption_stem (l : label) : string :=
  match l with
  | Plain s => s
  | Paged s _ => s
  end.

End GridSpec.

Module Order.
(** [a] may stand before [b] in a list sorted by [key]. *)
Definition key_le {A : Type} (key : A -> string) (a b : A) : Prop :=
  String.leb (key a) (key b) = true.
End Order.

(* ================================================================= *)
(** ** What a written document shows *)

Module Drawn.
Import Py ReportLab.

(** The strings one page carries, in drawing order. *)
Definition texts (page : list op) : list string :=
  flat_map (fun o => match o with DrawString _ _ text => [text] | _ => [] end) page.

(** The images one page carries, in drawing order. *)
Definition images (page : list op) : list op :=
  filter (fun o => match o with DrawImage _ _ _ _ => true | _ => false end) page.

End Drawn.

Module DualShown.
Import Py Path PIL DualLayoutMerger.
Section Shown.
Variable str_lower : string -> string.
Variable fitz_open : path -> option Fitz.document.
Variable image_open : path -> option (result image).

(** Whether a file has an image to draw. *)
Definition has_image (f : path) : bool :=
  match DualPages.source_image str_lower fitz_open image_open f with
  | Some _ => true
  | None => false
  end.

End Shown.
End DualShown.

Module PairedLast.
Import Py Path PDFInvoiceMerger.

(** The path of the last listed entry of a kind that has the stem [s]. *)
Definition last_listed (kind : dir_entry -> bool) (entries : list dir_entry)
    (s : string) : option path :=
  option_map entry_path
    (find (fun e => kind e && String.eqb (stem (entry_path e)) s) (rev entries)).

End PairedLast.

(* ================================================================= *)
(** ** Sample folders, documents and images *)

Module Samples.
Import Py Path PIL.

(** Every PDF opens as one A4 page rendered at zoom 2. *)
Definition one_page_pdf : path -> option Fitz.document :=
  fun _ => Some [fun _ => Some {| width := 1190; height := 1684 |}].

(** No PDF opens; every image is an A4 scan at 150 dpi. *)
Definition no_pdf : path -> option Fitz.document := fun _ => None.
Definition any_scan : path -> option image :=
  fun _ => Some {| width := 1240; height := 1754 |}.
Definition landscape_scan : path -> option image :=
  fun _ => Some {| width := 1754; height := 1240 |}.

(** An image file whose pixels can be read: what the deferred reading of
    Pillow gives is the image. *)
Definition intact (opener : path -> option image) : path -> option (result image) :=
  fun f => match opener f with
           | Some img => Some (Ok img)
           | None => None
           end.

Definition three_scans : list path :=
  [ {| stem := "a"; suffix := ".png" |};
    {| stem := "b"; suffix := ".PNG" |};
    {| stem := "c"; suffix := ".jpg" |} ]%string.

(** One file is a strip a single pixel wide, the others are photos. *)
Definition strip_or_photo : path -> option image :=
  fun f => if String.eqb (stem f) "strip"
           then Some {| width := 1; height := 3000 |}
           else Some {| width := 800; height := 600 |}.

Definition strip_and_photo : list path :=
  [ {| stem := "strip"; suffix := ".png" |};
    {| stem := "photo"; suffix := ".png" |} ]%string.

Definition two_page_pdf : Fitz.document :=
  [ (fun _ => Some {| width := 1240; height := 1754 |});
    (fun _ => Some {| width := 1754; height := 1240 |}) ].

Definition five_pages : list image :=
  [ {| width := 1654; height := 2339 |}; {| width := 1654; height := 2339 |};
    {| width := 2339; height := 1654 |}; {| width := 1654; height := 2339 |};
    {| width := 1700; height := 2200 |} ].

Definition five_labels : list PDFToImageMerger.label :=
  [ PDFToImageMerger.Paged "a" 1; PDFToImageMerger.Paged "a" 2;
    PDFToImageMerger.Plain "b"; PDFToImageMerger.Paged "c" 1;
    PDFToImageMerger.Paged "c" 2 ]%string.

Definition invoices_folder : list dir_entry :=
  [ {| entry_path := {| stem := "A"; suffix := ".pdf" |}; is_file := true |};
    {| entry_path := {| stem := "A"; suffix := ".png" |}; is_file := true |};
    {| entry_path := {| stem := "B"; suffix := ".pdf" |}; is_file := true |};
    {| entry_path := {| stem := "C"; suffix := ".jpg" |}; is_file := true |} ]%string.

Definition unsorted_folder : list dir_entry :=
  [ {| entry_path := {| stem := "b"; suffix := ".pdf" |}; is_file := true |};
    {| entry_path := {| stem := "b"; suffix := ".png" |}; is_file := true |};
    {| entry_path := {| stem := "a"; suffix := ".pdf" |}; is_file := true |};
    {| entry_path := {| stem := "a"; suffix := ".png" |}; is_file := true |} ]%string.

Definition any_photo : path -> option image :=
  fun _ => Some {| width := 800; height := 600 |}.

(** A stand-in for the builtin [int] that accepts plain decimal digits. *)
Definition digit (c : ascii) : option Z :=
  let n := nat_of_ascii c in
  if Nat.leb 48 n && Nat.leb n 57 then Some (Z.of_nat (n - 48)) else None.

Fixpoint decimal_from (acc : Z) (s : string) : option Z :=
  match s with
  | EmptyString => Some acc
  | String c r =>
      match digit c with
      | Some d => decimal_from (10 * acc + d) r
      | None => None
      end
  end.

Definition decimal (s : string) : option Z :=
  match s with
  | EmptyString => None
  | _ => decimal_from 0 s
  end.

End Samples.

(* ================================================================= *)
(** ** Facts about binary64 rounding *)

Module Binary64Facts.
Import Binary64.
Local Open Scope Q_scope.

Lemma pow2_pos k : 0 < pow2 k.
Proof. apply Qpower_0_lt. reflexivity. Qed.

Lemma pow2_plus a b : pow2 (a + b) == pow2 a * pow2 b.
Proof. unfold pow2. apply Qpower_plus. discriminate. Qed.

Lemma pow2_le a b : (a <= b)%Z -> pow2 a <= pow2 b.
Proof. intros H. apply Qpower_le_compat_l; [exact H | discriminate]. Qed.

Lemma pow2_lt a b : (a < b)%Z -> pow2 a < pow2 b.
Proof. intros H. apply Qpower_lt_compat_l; [exact H | reflexivity]. Qed.

Lemma pow2_inject k : (0 <= k)%Z -> pow2 k == inject_Z (2 ^ k).
Proof. intros H. unfold pow2. rewrite Zpower_Qpower by exact H. reflexivity. Qed.

Lemma mag_lower x : 0 < x -> pow2 (mag x - 1) <= x.
Proof.
  intros Hx. destruct x as [n d]. unfold mag. cbn [Qnum Qden].
  remember (Z.log2 n) as a eqn:Ea. remember (Z.log2 (Zpos d)) as b eqn:Eb.
  destruct (Qle_bool (pow2 (a - b)) (n # d)) eqn:E.
  - apply Qle_bool_iff in E. replace (a - b + 1 - 1)%Z with (a - b)%Z by ring. exact E.
  - assert (Hn : (0 < n)%Z) by (unfold Qlt in Hx; simpl in Hx; lia).
    destruct (Z.log2_spec n Hn) as [Ha _]. rewrite <- Ea in Ha.
    destruct (Z.log2_spec (Zpos d) (Pos2Z.is_pos d)) as [_ Hb]. rewrite <- Eb in Hb.
    assert (Ha0 : (0 <= a)%Z) by (subst a; apply Z.log2_nonneg).
    assert (Hb0 : (0 <= b)%Z) by (subst b; apply Z.log2_nonneg).
    assert (HA : pow2 a <= inject_Z n).
    { rewrite pow2_inject by exact Ha0. rewrite <- Zle_Qle. exact Ha. }
    assert (HB : inject_Z (Zpos d) <= pow2 (b + 1)).
    { rewrite pow2_inject by lia. rewrite <- Zle_Qle. unfold Z.succ in Hb. lia. }
    assert (HAB : pow2 a == pow2 (a - b - 1) * pow2 (b + 1)).
    { rewrite <- pow2_plus. replace (a - b - 1 + (b + 1))%Z with a by ring. reflexivity. }
    rewrite (Qmake_Qdiv n d).
    apply Qle_shift_div_l. { reflexivity. }
    pose proof (pow2_pos (a - b - 1)) as Hp.
    apply Qle_trans with (pow2 (a - b - 1) * pow2 (b + 1)).
    + apply Qmult_le_l; assumption.
    + rewrite <- HAB. exact HA.
Qed.

Lemma mag_upper x : 0 < x -> x < pow2 (mag x).
Proof.
  intros Hx. destruct x as [n d]. unfold mag. cbn [Qnum Qden].
  remember (Z.log2 n) as a eqn:Ea. remember (Z.log2 (Zpos d)) as b eqn:Eb.
  destruct (Qle_bool (pow2 (a - b)) (n # d)) eqn:E.
  - assert (Hn : (0 < n)%Z) by (unfold Qlt in Hx; simpl in Hx; lia).
    destruct (Z.log2_spec n Hn) as [_ Ha]. rewrite <- Ea in Ha.
    destruct (Z.log2_spec (Zpos d) (Pos2Z.is_pos d)) as [Hb _]. rewrite <- Eb in Hb.
    assert (Ha0 : (0 <= a)%Z) by (subst a; apply Z.log2_nonneg).
    assert (Hb0 : (0 <= b)%Z) by (subst b; apply Z.log2_nonneg).
    assert (HA : inject_Z n < pow2 (a + 1)).
    { rewrite pow2_inject by lia. rewrite <- Zlt_Qlt. exact Ha. }
    assert (HB : pow2 b <= inject_Z (Zpos d)).
    { rewrite pow2_inject by lia. rewrite <- Zle_Qle. exact Hb. }
    assert (HAB : pow2 (a + 1) == pow2 (a - b + 1) * pow2 b).
    { rewrite <- pow2_plus. replace (a - b + 1 + b)%Z with (a + 1)%Z by ring. reflexivity. }
    rewrite (Qmake_Qdiv n d).
    apply Qlt_shift_div_r. { reflexivity. }
    pose proof (pow2_pos (a - b + 1)) as Hp.
    apply Qlt_le_trans with (pow2 (a - b + 1) * pow2 b).
    + rewrite <- HAB. exact HA.
    + apply Qmult_le_l; assumption.
  - destruct (Qlt_le_dec (n # d) (pow2 (a - b))) as [H|H]; [exact H|].
    apply Qle_bool_iff in H. congruence.
Qed.

Lemma round_half_even_err s : Qabs (inject_Z (round_half_even s) - s) <= 1#2.
Proof.
  unfold round_half_even.
  pose proof (Qfloor_le s) as Hl. pose proof (Qlt_floor s) as Hu.
  rewrite inject_Z_plus in Hu. change (inject_Z 1) with 1 in Hu.
  apply Qabs_Qle_condition.
  destruct (Qcompare_spec (s - inject_Z (Qfloor s)) (1#2)) as [E|E|E].
  - destruct (Z.even (Qfloor s));
      [|rewrite inject_Z_plus; change (inject_Z 1) with 1]; lra.
  - lra.
  - rewrite inject_Z_plus. change (inject_Z 1) with 1. lra.
Qed.

Lemma round_half_even_Z z : round_half_even (inject_Z z) = z.
Proof.
  unfold round_half_even. rewrite Qfloor_Z.
  destruct (Qcompare_spec (inject_Z z - inject_Z z) (1#2)) as [E|E|E]; try lra.
  reflexivity.
Qed.

Lemma round_pos_err x : 0 < x -> Qabs (round_pos x - x) <= x * pow2 (-53).
Proof.
  intros Hx. unfold round_pos, prec.
  set (p := pow2 (mag x - 53)).
  assert (Hp : 0 < p) by apply pow2_pos.
  pose proof (round_half_even_err (x / p)) as He.
  set (m := inject_Z (round_half_even (x / p))) in *.
  assert (E : m * p - x == (m - x / p) * p) by (field; lra).
  rewrite E, Qabs_Qmult, (Qabs_pos p) by lra.
  apply Qle_trans with ((1#2) * p).
  - apply Qmult_le_compat_r; lra.
  - pose proof (mag_lower x Hx) as Hl.
    assert (Ep : p == pow2 (mag x - 1) * pow2 (-52)).
    { unfold p. rewrite <- pow2_plus. replace (mag x - 1 + -52)%Z with (mag x - 53)%Z by ring. reflexivity. }
    assert (E53 : pow2 (-53) == (1#2) * pow2 (-52)) by reflexivity.
    rewrite Ep, E53.
    assert (H52 : 0 < pow2 (-52)) by apply pow2_pos.
    nra.
Qed.

Lemma mag_unique x k : 0 < x -> pow2 (k - 1) <= x -> x < pow2 k -> mag x = k.
Proof.
  intros Hx Hl Hu.
  pose proof (mag_lower x Hx) as Hl'. pose proof (mag_upper x Hx) as Hu'.
  assert (H1 : (k - 1 < mag x)%Z).
  { apply (Qpower_lt_compat_l_inv (2#1)); [|reflexivity].
    apply Qle_lt_trans with x; assumption. }
  assert (H2 : (mag x - 1 < k)%Z).
  { apply (Qpower_lt_compat_l_inv (2#1)); [|reflexivity].
    apply Qle_lt_trans with x; assumption. }
  lia.
Qed.

Lemma mag_comp x y : 0 < x -> x == y -> mag x = mag y.
Proof.
  intros Hx E. symmetry. apply mag_unique.
  - rewrite <- E. exact Hx.
  - rewrite <- E. apply mag_lower, Hx.
  - rewrite <- E. apply mag_upper, Hx.
Qed.

Lemma round_half_even_comp s t : s == t -> round_half_even s = round_half_even t.
Proof.
  intros E. unfold round_half_even. rewrite (Qfloor_comp s t E).
  assert (E' : s - inject_Z (Qfloor t) == t - inject_Z (Qfloor t)) by (rewrite E; reflexivity).
  rewrite (Qcompare_comp _ _ E' (1#2) (1#2) (Qeq_refl _)). reflexivity.
Qed.

Lemma round_half_even_le s t : s <= t -> (round_half_even s <= round_half_even t)%Z.
Proof.
  intros H. unfold round_half_even.
  pose proof (Qfloor_resp_le s t H) as Hf.
  pose proof (Qfloor_le s) as Hls. pose proof (Qlt_floor s) as Hus.
  pose proof (Qfloor_le t) as Hlt. pose proof (Qlt_floor t) as Hut.
  rewrite inject_Z_plus in Hus, Hut. change (inject_Z 1) with 1 in Hus, Hut.
  destruct (Z.eq_dec (Qfloor s) (Qfloor t)) as [E|N].
  - rewrite E in *.
    destruct (Qcompare_spec (s - inject_Z (Qfloor t)) (1#2)) as [A|A|A];
    destruct (Qcompare_spec (t - inject_Z (Qfloor t)) (1#2)) as [B|B|B];
    destruct (Z.even (Qfloor t)); try lia; exfalso; lra.
  - assert (Hlt' : (Qfloor s + 1 <= Qfloor t)%Z) by lia.
    destruct (Qcompare (s - inject_Z (Qfloor s)) (1#2));
    destruct (Qcompare (t - inject_Z (Qfloor t)) (1#2));
    destruct (Z.even (Qfloor s)); destruct (Z.even (Qfloor t)); lia.
Qed.

Lemma round_pos_comp x y : 0 < x -> x == y -> round_pos x == round_pos y.
Proof.
  intros Hx E. unfold round_pos. rewrite <- (mag_comp x y Hx E).
  assert (E' : x / pow2 (mag x - prec) == y / pow2 (mag x - prec)).
  { unfold Qdiv. apply Qmult_comp; [exact E | reflexivity]. }
  rewrite (round_half_even_comp _ _ E'). reflexivity.
Qed.

(* the significand of a positive value lies in [2^52, 2^53) *)
Lemma significand_range x : 0 < x ->
  pow2 52 <= x / pow2 (mag x - prec) /\ x / pow2 (mag x - prec) < pow2 53.
Proof.
  intros Hx. unfold prec.
  pose proof (pow2_pos (mag x - 53)) as Hp.
  pose proof (mag_lower x Hx) as Hl. pose proof (mag_upper x Hx) as Hu.
  assert (E1 : pow2 (mag x - 1) == pow2 52 * pow2 (mag x - 53)).
  { rewrite <- pow2_plus. replace (52 + (mag x - 53))%Z with (mag x - 1)%Z by ring. reflexivity. }
  assert (E2 : pow2 (mag x) == pow2 53 * pow2 (mag x - 53)).
  { rewrite <- pow2_plus. replace (53 + (mag x - 53))%Z with (mag x)%Z by ring. reflexivity. }
  split.
  - apply Qle_shift_div_l; [exact Hp|]. rewrite <- E1. exact Hl.
  - apply Qlt_shift_div_r; [exact Hp|]. rewrite <- E2. exact Hu.
Qed.

Lemma round_pos_range x : 0 < x ->
  pow2 (mag x - 1) <= round_pos x <= pow2 (mag x).
Proof.
  intros Hx. destruct (significand_range x Hx) as [Hl Hu].
  unfold round_pos. set (s := x / pow2 (mag x - prec)) in *.
  pose proof (pow2_pos (mag x - prec)) as Hp.
  assert (E1 : pow2 (mag x - 1) == pow2 52 * pow2 (mag x - prec)).
  { rewrite <- pow2_plus. unfold prec. replace (52 + (mag x - 53))%Z with (mag x - 1)%Z by ring. reflexivity. }
  assert (E2 : pow2 (mag x) == pow2 53 * pow2 (mag x - prec)).
  { rewrite <- pow2_plus. unfold prec. replace (53 + (mag x - 53))%Z with (mag x)%Z by ring. reflexivity. }
  assert (L : (2 ^ 52 <= round_half_even s)%Z).
  { rewrite <- (round_half_even_Z (2 ^ 52)). apply round_half_even_le.
    rewrite <- pow2_inject by lia. exact Hl. }
  assert (U : (round_half_even s <= 2 ^ 53)%Z).
  { rewrite <- (round_half_even_Z (2 ^ 53)). apply round_half_even_le.
    rewrite <- pow2_inject by lia. apply Qlt_le_weak, Hu. }
  rewrite E1, E2. rewrite (pow2_inject 52), (pow2_inject 53) by lia.
  split.
  - apply Qmult_le_compat_r; [rewrite <- Zle_Qle; exact L | lra].
  - apply Qmult_le_compat_r; [rewrite <- Zle_Qle; exact U | lra].
Qed.

Lemma round_pos_le x y : 0 < x -> x <= y -> round_pos x <= round_pos y.
Proof.
  intros Hx Hxy.
  assert (Hy : 0 < y) by lra.
  assert (Hm : (mag x <= mag y)%Z).
  { assert (H : (mag x - 1 < mag y)%Z); [|lia].
    apply (Qpower_lt_compat_l_inv (2#1)); [|reflexivity].
    apply Qle_lt_trans with x; [apply mag_lower, Hx|].
    apply Qle_lt_trans with y; [exact Hxy | apply mag_upper, Hy]. }
  destruct (Z.eq_dec (mag x) (mag y)) as [E|N].
  - unfold round_pos. rewrite E.
    pose proof (pow2_pos (mag y - prec)) as Hp.
    apply Qmult_le_compat_r; [|lra].
    rewrite <- Zle_Qle. apply round_half_even_le.
    apply Qmult_le_compat_r; [exact Hxy|]. apply Qlt_le_weak, Qinv_lt_0_compat, Hp.
  - apply Qle_trans with (pow2 (mag x)); [apply round_pos_range, Hx|].
    apply Qle_trans with (pow2 (mag y - 1)); [apply pow2_le; lia | apply round_pos_range, Hy].
Qed.

Lemma rnd_pos_eq x : 0 < x -> rnd x == round_pos x.
Proof.
  intros Hx. unfold rnd. destruct x as [[|n|n] d]; try (exfalso; revert Hx; unfold Qlt; simpl; lia).
  cbn [Qnum]. apply Qred_correct.
Qed.

Lemma rnd_zero x : x == 0 -> rnd x = 0.
Proof.
  intros E. unfold rnd. destruct x as [[|n|n] d]; try reflexivity;
  exfalso; revert E; unfold Qeq; simpl; lia.
Qed.

Lemma rnd_neg_eq x : x < 0 -> rnd x == - round_pos (- x).
Proof.
  intros Hx. unfold rnd. destruct x as [[|n|n] d]; try (exfalso; revert Hx; unfold Qlt; simpl; lia).
  cbn [Qnum]. apply Qred_correct.
Qed.

Lemma rnd_err x : 0 < x -> x * (1 - u) <= rnd x <= x * (1 + u).
Proof.
  intros Hx. rewrite (rnd_pos_eq x Hx).
  pose proof (round_pos_err x Hx) as H. apply Qabs_Qle_condition in H. fold u in H.
  split; lra.
Qed.

Lemma rnd_pos x : 0 < x -> 0 < rnd x.
Proof.
  intros Hx. destruct (rnd_err x Hx) as [H _].
  assert (Hu : u == 1 # 9007199254740992) by reflexivity.
  apply Qlt_le_trans with (x * (1 - u)); [|exact H].
  rewrite Hu. nra.
Qed.

Lemma rnd_le x y : 0 < x -> x <= y -> rnd x <= rnd y.
Proof.
  intros Hx Hxy. rewrite (rnd_pos_eq x Hx), (rnd_pos_eq y) by lra.
  apply round_pos_le; assumption.
Qed.

Lemma rnd_comp x y : 0 < x -> x == y -> rnd x == rnd y.
Proof.
  intros Hx E. rewrite (rnd_pos_eq x Hx), (rnd_pos_eq y) by (rewrite <- E; exact Hx).
  apply round_pos_comp; assumption.
Qed.

(* every m * 2^e with 0 < m < 2^53 is a binary64 value: rounding leaves it alone *)
Lemma rnd_representable m e : (0 < m < 2 ^ 53)%Z ->
  rnd (inject_Z m * pow2 e) == inject_Z m * pow2 e.
Proof.
  intros [Hm0 Hm]. set (x := inject_Z m * pow2 e).
  pose proof (pow2_pos e) as He.
  assert (Hx : 0 < x).
  { unfold x. apply Qmult_lt_0_compat; [|exact He]. rewrite Zlt_Qlt in Hm0. exact Hm0. }
  rewrite (rnd_pos_eq x Hx). unfold round_pos.
  assert (Hk : (mag x - prec <= e)%Z).
  { unfold prec. assert (H : (mag x - 1 < e + 53)%Z); [|lia].
    apply (Qpower_lt_compat_l_inv (2#1)); [|reflexivity].
    apply Qle_lt_trans with x; [apply mag_lower, Hx|].
    assert (Hm' : inject_Z m < pow2 53).
    { rewrite pow2_inject by lia. rewrite <- Zlt_Qlt. exact Hm. }
    fold (pow2 (e + 53)). rewrite Z.add_comm, pow2_plus. unfold x.
    apply Qmult_lt_compat_r; assumption. }
  set (k := (mag x - prec)%Z) in *.
  pose proof (pow2_pos k) as Hpk.
  assert (Ee : pow2 e == inject_Z (2 ^ (e - k)) * pow2 k).
  { rewrite <- pow2_inject by lia. rewrite <- pow2_plus.
    replace (e - k + k)%Z with e by ring. reflexivity. }
  assert (Es : x / pow2 k == inject_Z (m * 2 ^ (e - k))).
  { unfold x. rewrite Ee, inject_Z_mult. field. lra. }
  rewrite (round_half_even_comp _ _ Es), round_half_even_Z.
  unfold x. rewrite Ee, inject_Z_mult. ring.
Qed.

Lemma rnd_inject_Z z : (0 <= z < 2 ^ 53)%Z -> rnd (inject_Z z) == inject_Z z.
Proof.
  intros [H0 H]. destruct (Z.eq_dec z 0) as [->|N]; [reflexivity|].
  assert (E : inject_Z z == inject_Z z * pow2 0) by (change (pow2 0) with 1; ring).
  assert (Hz : 0 < inject_Z z).
  { change 0 with (inject_Z 0). rewrite <- Zlt_Qlt. lia. }
  rewrite (rnd_comp _ _ Hz E), rnd_representable by lia.
  symmetry. exact E.
Qed.

End Binary64Facts.

(* ================================================================= *)
(** ** Facts about the Python arithmetic *)

Module PyFacts.
Import Binary64 Binary64Facts Py PIL.
Local Open Scope Q_scope.

Lemma u_val : u == 1 # 9007199254740992.
Proof. reflexivity. Qed.

Lemma rnd_opp_pos x : x < 0 -> rnd x == - rnd (- x).
Proof.
  intros Hx. rewrite (rnd_neg_eq x Hx), (rnd_pos_eq (- x)) by lra. reflexivity.
Qed.

Lemma rnd_abs_err x : Qabs (rnd x - x) <= Qabs x * u.
Proof.
  destruct (Q_dec x 0) as [[H|H]|H].
  - rewrite (rnd_opp_pos x H).
    assert (Hn : 0 < - x) by lra.
    destruct (rnd_err (- x) Hn) as [A B].
    rewrite (Qabs_neg x) by lra.
    apply Qabs_Qle_condition. pose proof u_val. split; lra.
  - destruct (rnd_err x H) as [A B].
    rewrite (Qabs_pos x) by lra.
    apply Qabs_Qle_condition. split; lra.
  - rewrite (rnd_zero x H). rewrite H. vm_compute. discriminate.
Qed.

Lemma rnd_nonzero x : ~ x == 0 -> ~ rnd x == 0.
Proof.
  intros Hx. destruct (Q_dec x 0) as [[H|H]|H]; [| |contradiction].
  - rewrite (rnd_opp_pos x H). pose proof (rnd_pos (- x) ltac:(lra)). lra.
  - pose proof (rnd_pos x H). lra.
Qed.

Lemma rnd_nonneg x : 0 <= x -> 0 <= rnd x.
Proof.
  intros Hx. destruct (Qle_lt_or_eq _ _ Hx) as [H|H].
  - apply Qlt_le_weak, rnd_pos, H.
  - rewrite (rnd_zero x) by (symmetry; exact H). apply Qle_refl.
Qed.

Lemma inject_Z_pos z : (0 < z)%Z -> 0 < inject_Z z.
Proof. intros H. change 0 with (inject_Z 0). rewrite <- Zlt_Qlt. exact H. Qed.

Lemma is_zero_Int w : (w <> 0)%Z -> is_zero (Int w) = false.
Proof.
  intros Hw. unfold is_zero, to_float.
  destruct (Qeq_bool (rnd (inject_Z w)) 0) eqn:E; [|reflexivity].
  apply Qeq_bool_iff in E. exfalso. revert E. apply rnd_nonzero.
  unfold Qeq. simpl. lia.
Qed.

Lemma is_zero_Int0 : is_zero (Int 0) = true.
Proof. reflexivity. Qed.

Lemma truediv_Int a w : (w <> 0)%Z -> truediv a (Int w) = Ok (quotient a (Int w)).
Proof. intros Hw. unfold truediv. rewrite (is_zero_Int w Hw). reflexivity. Qed.

Lemma truediv_Int0 a : truediv a (Int 0) = Raise ZeroDivisionError.
Proof. reflexivity. Qed.

Lemma int_Float_floor q : 0 <= q -> int (Float q) = Qfloor q.
Proof.
  intros Hq. destruct q as [n d]. unfold int, Qfloor. cbn [Qnum Qden].
  apply Z.quot_div_nonneg; [|reflexivity].
  unfold Qle in Hq. simpl in Hq. lia.
Qed.

Lemma to_float_Int_bounds w : (0 < w)%Z ->
  inject_Z w * (1 - u) <= to_float (Int w) <= inject_Z w * (1 + u).
Proof. intros Hw. apply rnd_err, inject_Z_pos, Hw. Qed.

Lemma to_float_Int_exact w : (0 <= w < 2 ^ 53)%Z -> to_float (Int w) == inject_Z w.
Proof. intros Hw. apply rnd_inject_Z, Hw. Qed.

Lemma value_min_l a b : value (min a b) <= value a.
Proof.
  unfold min, lt. destruct (Qle_bool (value a) (value b)) eqn:E; simpl.
  - apply Qle_refl.
  - destruct (Qlt_le_dec (value b) (value a)) as [H|H]; [apply Qlt_le_weak, H|].
    apply Qle_bool_iff in H. congruence.
Qed.

Lemma value_min_r a b : value (min a b) <= value b.
Proof.
  unfold min, lt. destruct (Qle_bool (value a) (value b)) eqn:E; simpl.
  - apply Qle_bool_iff, E.
  - apply Qle_refl.
Qed.

Lemma min_cases a b : min a b = a \/ min a b = b.
Proof. unfold min. destruct (lt b a); auto. Qed.

Lemma one_minus_u : 0 < 1 - u.
Proof. reflexivity. Qed.

Lemma one_plus_u : 0 < 1 + u.
Proof. reflexivity. Qed.

(** The quotient of a positive cell side by a positive pixel count,
    multiplied back by the (converted) pixel count, stays within two
    roundings of the cell side. *)
Lemma quotient_times_divisor c w :
  (0 < w)%Z -> 0 < value c ->
  exists r, quotient c (Int w) = Float r /\ 0 < r /\
    value c * ((1 - u) * (1 - u)) <= r * to_float (Int w)
      <= value c * ((1 + u) * (1 + u)).
Proof.
  intros Hw Hc.
  pose proof (inject_Z_pos w Hw) as Hwq.
  pose proof (to_float_Int_bounds w Hw) as [Wl Wu].
  pose proof one_minus_u as Hm. pose proof one_plus_u as Hp.
  assert (HW : 0 < to_float (Int w)) by (apply rnd_pos, Hwq).
  destruct c as [z|q]; cbn [quotient value] in *.
  - eexists; split; [reflexivity|].
    assert (Hq : 0 < inject_Z z / inject_Z w) by (apply Qlt_shift_div_l; lra).
    destruct (rnd_err _ Hq) as [A B].
    split; [apply rnd_pos, Hq|].
    assert (E1 : inject_Z z * ((1 - u) * (1 - u))
                 == (inject_Z z / inject_Z w * (1 - u)) * (inject_Z w * (1 - u)))
      by (field; lra).
    assert (E2 : inject_Z z * ((1 + u) * (1 + u))
                 == (inject_Z z / inject_Z w * (1 + u)) * (inject_Z w * (1 + u)))
      by (field; lra).
    rewrite E1, E2. split.
    + apply Qmult_le_compat_nonneg; split; try assumption;
        apply Qmult_le_0_compat; lra.
    + apply Qmult_le_compat_nonneg; split; try assumption.
      * apply Qlt_le_weak, rnd_pos, Hq.
      * lra.
  - eexists; split; [reflexivity|].
    cbn [to_float] in *. fold (to_float (Int w)) in *.
    set (W := to_float (Int w)) in *.
    assert (Hq : 0 < q / W) by (apply Qlt_shift_div_l; lra).
    destruct (rnd_err _ Hq) as [A B].
    split; [apply rnd_pos, Hq|].
    assert (E1 : q * ((1 - u) * (1 - u)) == (q / W * (1 - u)) * (W * (1 - u)))
      by (field; lra).
    assert (E2 : q * ((1 + u) * (1 + u)) == (q / W * (1 + u)) * (W * (1 + u)))
      by (field; lra).
    pose proof u_val as Hu.
    rewrite E1, E2. split.
    + apply Qmult_le_compat_nonneg; split; try assumption.
      * apply Qmult_le_0_compat; lra.
      * apply Qmult_le_0_compat; lra.
      * rewrite Hu. lra.
    + apply Qmult_le_compat_nonneg; split; try assumption.
      * apply Qlt_le_weak, rnd_pos, Hq.
      * lra.
      * rewrite Hu. lra.
Qed.

(** [int(w * s)] for a positive pixel count [w] and a positive float [s]
    is the floor of the rounded product. *)
Lemma scaled_floor w s : (0 < w)%Z -> 0 < s ->
  int (mul (Int w) (Float s)) = Qfloor (rnd (to_float (Int w) * s)).
Proof.
  intros Hw Hs. cbn [mul]. apply int_Float_floor, rnd_nonneg.
  apply Qmult_le_0_compat; [|lra].
  apply Qlt_le_weak, rnd_pos, inject_Z_pos, Hw.
Qed.

(** Upper bound on a scaled side: within three roundings of the cell. *)
Lemma scaled_upper c w s r :
  (0 < w)%Z -> 0 < value c -> quotient c (Int w) = Float r -> 0 < s -> s <= r ->
  rnd (to_float (Int w) * s) <= value c * ((1 + u) * (1 + u) * (1 + u)).
Proof.
  intros Hw Hc Er Hs Hsr.
  destruct (quotient_times_divisor c w Hw Hc) as (r' & Er' & Hr & Hl & Hu).
  rewrite Er in Er'. injection Er' as <-.
  assert (HW : 0 < to_float (Int w)) by (apply rnd_pos, inject_Z_pos, Hw).
  set (W := to_float (Int w)) in *.
  assert (Hp : 0 < W * s) by (apply Qmult_lt_0_compat; assumption).
  destruct (rnd_err _ Hp) as [_ B].
  pose proof one_plus_u as H1.
  apply Qle_trans with (W * s * (1 + u)); [exact B|].
  apply Qle_trans with (r * W * (1 + u)).
  - apply Qmult_le_compat_r; [|lra]. rewrite (Qmult_comm r W).
    apply Qmult_le_l; assumption.
  - assert (E : value c * ((1 + u) * (1 + u) * (1 + u))
               == value c * ((1 + u) * (1 + u)) * (1 + u)) by ring.
    rewrite E. apply Qmult_le_compat_r; [exact Hu | lra].
Qed.

(** Lower bound on the side whose ratio is the scale. *)
Lemma scaled_lower c w r :
  (0 < w)%Z -> 0 < value c -> quotient c (Int w) = Float r ->
  value c * ((1 - u) * (1 - u) * (1 - u)) <= rnd (to_float (Int w) * r).
Proof.
  intros Hw Hc Er.
  destruct (quotient_times_divisor c w Hw Hc) as (r' & Er' & Hr & Hl & Hu).
  rewrite Er in Er'. injection Er' as <-.
  assert (HW : 0 < to_float (Int w)) by (apply rnd_pos, inject_Z_pos, Hw).
  set (W := to_float (Int w)) in *.
  assert (Hp : 0 < W * r) by (apply Qmult_lt_0_compat; assumption).
  destruct (rnd_err _ Hp) as [A _].
  pose proof one_minus_u as H1.
  apply Qle_trans with (W * r * (1 - u)); [|exact A].
  assert (E : value c * ((1 - u) * (1 - u) * (1 - u))
             == value c * ((1 - u) * (1 - u)) * (1 - u)) by ring.
  rewrite E, (Qmult_comm W r). apply Qmult_le_compat_r; [exact Hl | lra].
Qed.

Lemma rnd_wd x y : x == y -> rnd x == rnd y.
Proof.
  intros E. destruct (Q_dec x 0) as [[H|H]|H].
  - rewrite (rnd_opp_pos x H), (rnd_opp_pos y) by (rewrite <- E; exact H).
    apply Qopp_comp, rnd_comp; [lra | rewrite E; reflexivity].
  - apply rnd_comp; assumption.
  - rewrite (rnd_zero x H), (rnd_zero y) by (rewrite <- E; exact H). reflexivity.
Qed.

#[global] Instance rnd_Proper : Proper (Qeq ==> Qeq) rnd.
Proof. intros x y E. apply rnd_wd, E. Qed.

Lemma rnd_err_nonneg x : 0 <= x -> x * (1 - u) <= rnd x <= x * (1 + u).
Proof.
  intros Hx. destruct (Qle_lt_or_eq _ _ Hx) as [H|H].
  - apply rnd_err, H.
  - rewrite (rnd_zero x) by (symmetry; exact H). rewrite <- H. split; lra.
Qed.

Lemma rnd_le_nonneg x y : 0 <= x -> x <= y -> rnd x <= rnd y.
Proof.
  intros Hx Hxy. destruct (Qle_lt_or_eq _ _ Hx) as [H|H].
  - apply rnd_le; assumption.
  - rewrite (rnd_zero x) by (symmetry; exact H). apply rnd_nonneg. lra.
Qed.

(** A rounded value is on the grid. *)
Lemma round_pos_idem x : 0 < x -> rnd (round_pos x) == round_pos x.
Proof.
  intros Hx. destruct (significand_range x Hx) as [Hl Hu].
  unfold round_pos. set (e := (mag x - prec)%Z) in *. set (s := x / pow2 e) in *.
  assert (L : (2 ^ 52 <= round_half_even s)%Z).
  { rewrite <- (round_half_even_Z (2 ^ 52)). apply round_half_even_le.
    rewrite <- pow2_inject by lia. exact Hl. }
  assert (U : (round_half_even s <= 2 ^ 53)%Z).
  { rewrite <- (round_half_even_Z (2 ^ 53)). apply round_half_even_le.
    rewrite <- pow2_inject by lia. apply Qlt_le_weak, Hu. }
  destruct (Z.eq_dec (round_half_even s) (2 ^ 53)) as [E|N].
  - rewrite E.
    assert (E' : inject_Z (2 ^ 53) * pow2 e == inject_Z (2 ^ 52) * pow2 (e + 1)).
    { rewrite pow2_plus. change (pow2 1) with 2.
      change (inject_Z (2 ^ 53)) with (inject_Z (2 ^ 52) * 2). ring. }
    rewrite E'. apply rnd_representable. lia.
  - apply rnd_representable. lia.
Qed.

Lemma rnd_idem x : rnd (rnd x) == rnd x.
Proof.
  destruct (Q_dec x 0) as [[H|H]|H].
  - rewrite (rnd_opp_pos x H).
    assert (Hn : 0 < - x) by lra.
    pose proof (rnd_pos _ Hn) as Hp.
    rewrite (rnd_opp_pos (- rnd (- x))) by lra.
    rewrite Qopp_involutive.
    rewrite (rnd_pos_eq _ Hn). rewrite round_pos_idem by exact Hn. reflexivity.
  - rewrite (rnd_pos_eq _ H). apply round_pos_idem, H.
  - rewrite (rnd_zero x H). reflexivity.
Qed.

Lemma floor_close x y :
  y - 1 < x -> x < y + 1 -> (Qfloor y - 1 <= Qfloor x <= Qfloor y + 1)%Z.
Proof.
  intros Hl Hu.
  pose proof (Qfloor_le x) as Fx. pose proof (Qlt_floor x) as Gx.
  pose proof (Qfloor_le y) as Fy. pose proof (Qlt_floor y) as Gy.
  rewrite inject_Z_plus in Gx, Gy. change (inject_Z 1) with 1 in Gx, Gy.
  assert (A : inject_Z (Qfloor x) < inject_Z (Qfloor y + 2)).
  { rewrite inject_Z_plus. change (inject_Z 2) with 2. lra. }
  assert (B : inject_Z (Qfloor y) < inject_Z (Qfloor x + 2)).
  { rewrite inject_Z_plus. change (inject_Z 2) with 2. lra. }
  rewrite <- Zlt_Qlt in A, B. lia.
Qed.

Lemma Qceiling_eq x n : inject_Z n - 1 < x -> x <= inject_Z n -> Qceiling x = n.
Proof.
  intros Hl Hu.
  pose proof (Qle_ceiling x) as A. pose proof (Qceiling_lt x) as B.
  unfold Zminus in B. rewrite inject_Z_plus, inject_Z_opp in B. change (inject_Z 1) with 1 in B.
  assert (C : inject_Z (n - 1) < inject_Z (Qceiling x)).
  { unfold Zminus. rewrite inject_Z_plus, inject_Z_opp. change (inject_Z 1) with 1. lra. }
  assert (D : inject_Z (Qceiling x - 1) < inject_Z n).
  { unfold Zminus. rewrite inject_Z_plus, inject_Z_opp. change (inject_Z 1) with 1. lra. }
  rewrite <- Zlt_Qlt in C, D. lia.
Qed.

(** [math.ceil(a / b)] on ints below 2^53 is the exact ceiling. *)
Lemma ceil_truediv_exact a b : (0 <= a < 2 ^ 53)%Z -> (0 < b)%Z ->
  ceil (quotient (Int a) (Int b)) = Qceiling (inject_Z a / inject_Z b).
Proof.
  intros Ha Hb. cbn [quotient ceil].
  set (q := inject_Z a / inject_Z b).
  pose proof (Z.div_mod a b ltac:(lia)) as Hdm.
  pose proof (Z.mod_pos_bound a b Hb) as Hr.
  assert (HB : 0 < inject_Z b) by (apply inject_Z_pos, Hb).
  assert (Hk : (0 <= a / b)%Z) by (apply Z.div_pos; lia).
  assert (Hka : (a / b <= a)%Z).
  { destruct (Z.eq_dec a 0) as [->|N]; [rewrite Z.div_0_l; lia|].
    destruct (Z.eq_dec b 1) as [->|N1].
    - rewrite Z.div_1_r. lia.
    - apply Z.lt_le_incl, Z.div_lt; lia. }
  destruct (Z.eq_dec (a mod b) 0) as [E0|N0].
  - assert (Eq : q == inject_Z (a / b)).
    { unfold q. rewrite Hdm at 1. rewrite E0, Z.add_0_r, inject_Z_mult. field. lra. }
    rewrite Eq. rewrite (rnd_inject_Z (a / b)) by lia. reflexivity.
  - set (k := (a / b)%Z) in *. set (r := (a mod b)%Z) in *.
    set (t := / inject_Z b).
    assert (Ht : 0 < t) by (apply Qinv_lt_0_compat, HB).
    assert (Hbt : inject_Z b * t == 1) by (unfold t; field; lra).
    assert (Eq : q == inject_Z k + inject_Z r * t).
    { unfold q, t. rewrite Hdm at 1. rewrite inject_Z_plus, inject_Z_mult. field. lra. }
    assert (R1 : t <= inject_Z r * t).
    { rewrite <- (Qmult_1_l t) at 1. apply Qmult_le_compat_r; [|lra].
      change 1 with (inject_Z 1). rewrite <- Zle_Qle. lia. }
    assert (R2 : inject_Z r * t <= 1 - t).
    { assert (E : 1 - t == inject_Z (b - 1) * t).
      { unfold Zminus. rewrite inject_Z_plus, inject_Z_opp. change (inject_Z 1) with 1.
        transitivity (inject_Z b * t - t); [rewrite Hbt; reflexivity | ring]. }
      rewrite E. apply Qmult_le_compat_r; [|lra]. rewrite <- Zle_Qle. lia. }
    assert (Hq : 0 < q).
    { rewrite Eq. assert (0 <= inject_Z k) by (change 0 with (inject_Z 0); rewrite <- Zle_Qle; lia). lra. }
    assert (Hqu : q * u < t).
    { assert (E : q * u == (inject_Z a * u) * t) by (unfold q, t; field; lra).
      rewrite E. rewrite <- (Qmult_1_l t) at 2. apply Qmult_lt_compat_r; [exact Ht|].
      assert (Ha' : inject_Z a < inject_Z (2 ^ 53)) by (rewrite <- Zlt_Qlt; lia).
      change (inject_Z (2 ^ 53)) with 9007199254740992 in Ha'.
      rewrite u_val. lra. }
    destruct (rnd_err q Hq) as [A B].
    assert (C1 : Qceiling (rnd q) = (k + 1)%Z).
    { apply Qceiling_eq; rewrite inject_Z_plus; change (inject_Z 1) with 1; lra. }
    assert (C2 : Qceiling q = (k + 1)%Z).
    { apply Qceiling_eq; rewrite inject_Z_plus; change (inject_Z 1) with 1; lra. }
    congruence.
Qed.

Lemma Qceiling_half n : Qceiling (inject_Z n / inject_Z 2) = ((n + 1) / 2)%Z.
Proof.
  pose proof (Z.div_mod (n + 1) 2 ltac:(lia)) as Hdm.
  pose proof (Z.mod_pos_bound (n + 1) 2 ltac:(lia)) as Hr.
  apply Qceiling_eq.
  - assert (H : inject_Z (2 * ((n + 1) / 2)) - 2 < inject_Z n).
    { assert (H' : inject_Z (2 * ((n + 1) / 2) - 2) < inject_Z n) by (rewrite <- Zlt_Qlt; lia).
      unfold Zminus in H'. rewrite inject_Z_plus, inject_Z_opp in H'.
      change (inject_Z 2) with 2 in H'. lra. }
    rewrite inject_Z_mult in H. change (inject_Z 2) with 2 in *.
    apply Qlt_shift_div_l; lra.
  - assert (H : inject_Z n <= inject_Z (2 * ((n + 1) / 2))) by (rewrite <- Zle_Qle; lia).
    rewrite inject_Z_mult in H. change (inject_Z 2) with 2 in *.
    apply Qle_shift_div_r; lra.
Qed.

Lemma getitem_nat {A : Type} (l : list A) (i : nat) (x : A) :
  nth_error l i = Some x -> getitem l (Z.of_nat i) = Ok x.
Proof.
  intros E. unfold getitem.
  assert (Hlt : (Z.of_nat i <? 0)%Z = false) by (apply Z.ltb_ge; lia).
  rewrite Hlt. cbv zeta. rewrite Hlt, Nat2Z.id, E. reflexivity.
Qed.

Lemma pair_induction {A : Type} (P : list A -> Prop) :
  P [] -> (forall x, P [x]) -> (forall x y l, P l -> P (x :: y :: l)) ->
  forall l, P l.
Proof.
  intros H0 H1 H2 l.
  assert (H : P l /\ forall a, P (a :: l)).
  { induction l as [|b l [IH1 IH2]]; split; auto. }
  apply H.
Qed.

End PyFacts.

(* ================================================================= *)
(** ** The fit computation *)

Module FitFacts.
Import Binary64 Binary64Facts Py PIL PyFacts Spec.
Local Open Scope Q_scope.

(** The size the fit asks for, as a truncated rounded product. *)
Lemma scaled_size_eval (w h : Z) (cw ch : num) :
  (0 < w)%Z -> (0 < h)%Z -> 0 < value cw -> 0 < value ch ->
  exists r1 r2 s,
    quotient cw (Int w) = Float r1 /\
    quotient ch (Int h) = Float r2 /\
    0 < s /\ s <= r1 /\ s <= r2 /\ (s = r1 \/ s = r2) /\
    scaled_size w h cw ch
    = (Qfloor (rnd (to_float (Int w) * s)), Qfloor (rnd (to_float (Int h) * s))).
Proof.
  intros Hw Hh Hcw Hch.
  destruct (quotient_times_divisor cw _ Hw Hcw) as (r1 & E1 & P1 & _).
  destruct (quotient_times_divisor ch _ Hh Hch) as (r2 & E2 & P2 & _).
  pose proof (value_min_l (Float r1) (Float r2)) as Ml.
  pose proof (value_min_r (Float r1) (Float r2)) as Mr.
  destruct (min_cases (Float r1) (Float r2)) as [Em|Em];
    [exists r1, r2, r1 | exists r1, r2, r2]; rewrite Em in Ml, Mr; cbn [value] in Ml, Mr;
    (repeat split; auto; try apply Qle_refl;
     unfold scaled_size; rewrite E1, E2, Em;
     rewrite !scaled_floor by assumption; reflexivity).
Qed.

(** The resize, for a size it accepts and for one it refuses. *)
Lemma resize_ok (img : image) (w h : Z) :
  (1 <= w)%Z -> (1 <= h)%Z -> resize img (w, h) = Ok {| width := w; height := h |}.
Proof.
  intros Hw Hh. unfold resize. cbn [fst snd].
  destruct ((w =? width img)%Z && (h =? height img)%Z) eqn:E.
  - apply andb_true_iff in E. destruct E as [E1 E2].
    apply Z.eqb_eq in E1, E2. subst. destruct img; reflexivity.
  - replace (w <? 1)%Z with false by (symmetry; apply Z.ltb_ge; lia).
    replace (h <? 1)%Z with false by (symmetry; apply Z.ltb_ge; lia).
    reflexivity.
Qed.

Lemma resize_raise (img : image) (w h : Z) :
  (0 < width img)%Z -> (0 < height img)%Z -> (w < 1 \/ h < 1)%Z ->
  resize img (w, h) = Raise ValueError.
Proof.
  intros Hw Hh Hs. unfold resize. cbn [fst snd].
  replace ((w =? width img)%Z && (h =? height img)%Z) with false.
  - replace ((w <? 1)%Z || (h <? 1)%Z) with true; [reflexivity|].
    symmetry. apply orb_true_iff. destruct Hs; [left | right]; apply Z.ltb_lt; lia.
  - symmetry. apply andb_false_iff.
    destruct Hs; [left | right]; apply Z.eqb_neq; lia.
Qed.

(** [Image.new], for a size it accepts and for one it refuses. *)
Lemma new_ok (w h : Z) :
  (0 <= w)%Z -> (0 <= h)%Z -> PIL.new (w, h) = Ok {| width := w; height := h |}.
Proof.
  intros Hw Hh. unfold PIL.new. cbn [fst snd].
  replace (w <? 0)%Z with false by (symmetry; apply Z.ltb_ge; lia).
  replace (h <? 0)%Z with false by (symmetry; apply Z.ltb_ge; lia).
  reflexivity.
Qed.



(** The three copies of the fit are one computation: the resize to the
    size of [scaled_size]. *)
Lemma fit_is_resize (img : image) (cw ch : num) :
  width img <> 0%Z -> height img <> 0%Z ->
  let size := scaled_size (width img) (height img) cw ch in
  DualLayoutMerger.resize_image_to_fit (Some img) cw ch true
  = (let! resized := resize img size in Ok (Some resized)) /\
  PDFInvoiceMerger.resize_image_to_fit img cw ch = resize img size /\
  PDFToImageMerger.resize_image_proportionally img cw ch = resize img size.
Proof.
  intros Hw Hh.
  unfold DualLayoutMerger.resize_image_to_fit, PDFInvoiceMerger.resize_image_to_fit,
         PDFToImageMerger.resize_image_proportionally, scaled_size.
  rewrite (truediv_Int _ _ Hw), (truediv_Int _ _ Hh). cbn [bind].
  repeat split; reflexivity.
Qed.

(** An image that keeps a pixel on each side is resized; one that does
    not makes the resize raise. *)
Lemma fit_returns (img : image) (cw ch : num) :
  width img <> 0%Z -> height img <> 0%Z -> fits img cw ch ->
  let scaled := {| width := fst (scaled_size (width img) (height img) cw ch);
                   height := snd (scaled_size (width img) (height img) cw ch) |} in
  DualLayoutMerger.resize_image_to_fit (Some img) cw ch true = Ok (Some scaled) /\
  PDFInvoiceMerger.resize_image_to_fit img cw ch = Ok scaled /\
  PDFToImageMerger.resize_image_proportionally img cw ch = Ok scaled.
Proof.
  intros Hw Hh [F1 F2] scaled.
  destruct (fit_is_resize img cw ch Hw Hh) as (D & P & G).
  rewrite D, P, G.
  rewrite (surjective_pairing (scaled_size (width img) (height img) cw ch)).
  rewrite (resize_ok img _ _ F1 F2). repeat split; reflexivity.
Qed.

Lemma fits_dec (img : image) (cw ch : num) : {Spec.fits img cw ch} + {~ Spec.fits img cw ch}.
Proof.
  unfold Spec.fits.
  destruct (Z_le_dec 1 (fst (Spec.scaled_size (width img) (height img) cw ch)));
    destruct (Z_le_dec 1 (snd (Spec.scaled_size (width img) (height img) cw ch)));
    [left; auto | right; tauto | right; tauto | right; tauto].
Qed.

Lemma fit_raises (img : image) (cw ch : num) :
  (0 < width img)%Z -> (0 < height img)%Z -> ~ fits img cw ch ->
  DualLayoutMerger.resize_image_to_fit (Some img) cw ch true = Raise ValueError /\
  PDFInvoiceMerger.resize_image_to_fit img cw ch = Raise ValueError /\
  PDFToImageMerger.resize_image_proportionally img cw ch = Raise ValueError.
Proof.
  intros Hw Hh Hn.
  destruct (fit_is_resize img cw ch ltac:(lia) ltac:(lia)) as (D & P & G).
  rewrite D, P, G.
  rewrite (surjective_pairing (scaled_size (width img) (height img) cw ch)).
  rewrite (resize_raise img _ _ Hw Hh); [repeat split; reflexivity|].
  unfold fits in Hn. lia.
Qed.

(** The rounded product on one axis against the exact formula. *)
Lemma scaled_close (a b : Z) (ca cb : num) (ra rb s : Q) :
  (0 < a < 2 ^ 53)%Z -> (0 < b < 2 ^ 53)%Z -> 0 < value ca -> 0 < value cb ->
  quotient ca (Int a) = Float ra -> quotient cb (Int b) = Float rb ->
  0 < s -> s <= ra -> s <= rb -> (s = ra \/ s = rb) ->
  let v := inject_Z a * Qmin (value ca / inject_Z a) (value cb / inject_Z b) in
  v * ((1 - u) * (1 - u) * (1 - u)) <= rnd (to_float (Int a) * s)
    <= v * ((1 + u) * (1 + u) * (1 + u)).
Proof.
  intros Ha Hb Hca Hcb Ea Eb Hs La Lb Hcase v.
  destruct (quotient_times_divisor ca a ltac:(lia) Hca) as (ra' & Ea' & Pa & Al & Au).
  rewrite Ea in Ea'. injection Ea' as <-.
  destruct (quotient_times_divisor cb b ltac:(lia) Hcb) as (rb' & Eb' & Pb & Bl & Bu).
  rewrite Eb in Eb'. injection Eb' as <-.
  rewrite (to_float_Int_exact a) in * by lia.
  rewrite (to_float_Int_exact b) in * by lia.
  assert (HA : 0 < inject_Z a) by (apply inject_Z_pos; lia).
  assert (HB : 0 < inject_Z b) by (apply inject_Z_pos; lia).
  set (A := inject_Z a) in *. set (B := inject_Z b) in *.
  set (x := value ca) in *. set (y := value cb) in *.
  assert (Hp : 0 < A * s) by (apply Qmult_lt_0_compat; assumption).
  destruct (rnd_err _ Hp) as [Rl Ru].
  pose proof one_minus_u as Hm. pose proof one_plus_u as Hpl.
  set (m2 := (1 - u) * (1 - u)) in *. set (p2 := (1 + u) * (1 + u)) in *.
  assert (Hm2 : 0 < m2) by (apply Qmult_lt_0_compat; assumption).
  assert (Hp2 : 0 < p2) by (apply Qmult_lt_0_compat; assumption).
  (* the product before the last rounding *)
  assert (Up : A * s <= v * p2).
  { unfold v. destruct (Q.min_spec (x / A) (y / B)) as [[_ E]|[_ E]]; rewrite E.
    - apply Qle_trans with (ra * A); [rewrite (Qmult_comm ra A); apply Qmult_le_l; assumption|].
      apply Qle_trans with (x * p2); [exact Au|].
      apply Qle_lteq. right. field. lra.
    - apply Qle_trans with (A * rb); [apply Qmult_le_l; assumption|].
      assert (E' : A * (y / B) * p2 == (A / B) * (y * p2)) by (field; lra).
      assert (E'' : A * rb == (A / B) * (rb * B)) by (field; lra).
      rewrite E', E''. apply Qmult_le_l; [|exact Bu].
      apply Qlt_shift_div_l; lra. }
  assert (Lo : v * m2 <= A * s).
  { assert (V1 : v <= x).
    { unfold v. apply Qle_trans with (A * (x / A)).
      - apply Qmult_le_l; [exact HA | apply Q.le_min_l].
      - apply Qle_lteq. right. field. lra. }
    assert (V2 : v <= A / B * y).
    { unfold v. apply Qle_trans with (A * (y / B)).
      - apply Qmult_le_l; [exact HA | apply Q.le_min_r].
      - apply Qle_lteq. right. field. lra. }
    destruct Hcase as [-> | ->].
    - apply Qle_trans with (x * m2); [apply Qmult_le_compat_r; lra|].
      rewrite (Qmult_comm A ra). exact Al.
    - apply Qle_trans with (A / B * y * m2); [apply Qmult_le_compat_r; lra|].
      assert (E' : A / B * y * m2 == (A / B) * (y * m2)) by ring.
      assert (E'' : A * rb == (A / B) * (rb * B)) by (field; lra).
      rewrite E', E''. apply Qmult_le_l; [|exact Bl].
      apply Qlt_shift_div_l; lra. }
  split.
  - apply Qle_trans with (A * s * (1 - u)); [|exact Rl].
    assert (E : v * (m2 * (1 - u)) == v * m2 * (1 - u)) by ring.
    rewrite E. apply Qmult_le_compat_r; lra.
  - apply Qle_trans with (A * s * (1 + u)); [exact Ru|].
    assert (E : v * (p2 * (1 + u)) == v * p2 * (1 + u)) by ring.
    rewrite E. apply Qmult_le_compat_r; lra.
Qed.

(** One scaled side against the exact floor, for a cell side up to 2^51. *)
Lemma scaled_side_close (a b : Z) (ca cb : num) (ra rb s : Q) :
  (0 < a < 2 ^ 53)%Z -> (0 < b < 2 ^ 53)%Z ->
  0 < value ca -> value ca <= inject_Z (2 ^ 51) -> 0 < value cb ->
  quotient ca (Int a) = Float ra -> quotient cb (Int b) = Float rb ->
  0 < s -> s <= ra -> s <= rb -> (s = ra \/ s = rb) ->
  let e := Qfloor (inject_Z a * Qmin (value ca / inject_Z a) (value cb / inject_Z b)) in
  (e - 1 <= Qfloor (rnd (to_float (Int a) * s)) <= e + 1)%Z.
Proof.
  intros Ha Hb Hca Hca' Hcb Ea Eb Hs La Lb Hcase e.
  pose proof (scaled_close a b ca cb ra rb s Ha Hb Hca Hcb Ea Eb Hs La Lb Hcase) as [L U].
  cbv zeta in L, U.
  set (v := inject_Z a * Qmin (value ca / inject_Z a) (value cb / inject_Z b)) in *.
  assert (HA : 0 < inject_Z a) by (apply inject_Z_pos; lia).
  assert (HB : 0 < inject_Z b) by (apply inject_Z_pos; lia).
  assert (V1 : v <= value ca).
  { unfold v. apply Qle_trans with (inject_Z a * (value ca / inject_Z a)).
    - apply Qmult_le_l; [exact HA | apply Q.le_min_l].
    - apply Qle_lteq. right. field. lra. }
  assert (V0 : 0 < v).
  { unfold v. apply Qmult_lt_0_compat; [exact HA|].
    destruct (Q.min_spec (value ca / inject_Z a) (value cb / inject_Z b)) as [[_ E]|[_ E]];
      rewrite E; apply Qlt_shift_div_l; lra. }
  change (inject_Z (2 ^ 51)) with 2251799813685248 in Hca'.
  rewrite u_val in L, U.
  apply floor_close; lra.
Qed.

(** Where a centred image starts: [origin + (cell - size) / 2], as the
    sources compute it, against the exact value. *)
Lemma centered_start (origin cell : num) (size : Z) :
  0 <= to_float origin -> rnd (to_float origin) == to_float origin ->
  (0 <= size < 2 ^ 53)%Z -> inject_Z size <= value cell ->
  let start := add origin (quotient (sub cell (Int size)) (Int 2)) in
  let exact := to_float origin + Spec.offset (value cell) size in
  to_float origin <= value start /\
  exact * ((1 - u) * (1 - u) * (1 - u)) <= value start
    <= exact * ((1 + u) * (1 + u) * (1 + u)).
Proof.
  intros HO Hgrid Hsz Hle start exact. unfold Spec.offset in exact.
  set (O := to_float origin) in *.
  set (d := value cell - inject_Z size) in *.
  assert (Hd : 0 <= d) by (unfold d; lra).
  pose proof one_minus_u as Hm. pose proof one_plus_u as Hp.
  pose proof u_val as Hu.
  (* the halved slack, after its roundings *)
  assert (Hhalf : exists o2, quotient (sub cell (Int size)) (Int 2) = Float o2 /\
            d * (1#2) * ((1 - u) * (1 - u)) <= o2 <= d * (1#2) * ((1 + u) * (1 + u))).
  { destruct cell as [c|q]; cbn [sub quotient to_float value] in *.
    - eexists; split; [reflexivity|].
      assert (E : inject_Z (c - size) / inject_Z 2 == d * (1#2)).
      { unfold d. unfold Zminus. rewrite inject_Z_plus, inject_Z_opp. reflexivity. }
      rewrite E. destruct (rnd_err_nonneg (d * (1#2))) as [A B]; [lra|].
      rewrite Hu in *. split; lra.
    - eexists; split; [reflexivity|].
      assert (E2 : rnd (inject_Z 2) == 2) by (apply (rnd_inject_Z 2); lia).
      assert (Es : rnd (inject_Z size) == inject_Z size) by (apply rnd_inject_Z; lia).
      rewrite E2, Es. fold d.
      destruct (rnd_err_nonneg d Hd) as [A B].
      assert (H1 : 0 <= rnd d) by (apply rnd_nonneg, Hd).
      assert (E : rnd d / 2 == rnd d * (1#2)) by reflexivity.
      rewrite E.
      destruct (rnd_err_nonneg (rnd d * (1#2))) as [A' B']; [lra|].
      rewrite Hu in *. split; lra. }
  destruct Hhalf as (o2 & E2 & Ol & Ou).
  assert (Ho2 : 0 <= o2).
  { eapply Qle_trans; [|exact Ol]. rewrite Hu. lra. }
  assert (Es : value start == rnd (O + o2)).
  { unfold start. rewrite E2. destruct origin; reflexivity. }
  rewrite Es. split.
  - rewrite <- Hgrid at 1. apply rnd_le_nonneg; lra.
  - destruct (rnd_err_nonneg (O + o2)) as [A B]; [lra|].
    assert (Ex : exact == O + d * (1#2)) by reflexivity.
    rewrite Ex. rewrite Hu in *. split; lra.
Qed.

Lemma rounding_safe_Int c : (0 < c <= 2 ^ 51)%Z -> rounding_safe (inject_Z c).
Proof.
  intros [H0 H]. unfold rounding_safe. rewrite <- Zle_Qle.
  assert (Hlt : inject_Z c * ((1 + u) * (1 + u) * (1 + u)) < inject_Z (c + 1)).
  { rewrite inject_Z_plus. change (inject_Z 1) with 1.
    pose proof (inject_Z_pos c H0) as Hc.
    assert (Hb : inject_Z c <= inject_Z (2 ^ 51)) by (rewrite <- Zle_Qle; exact H).
    change (inject_Z (2 ^ 51)) with 2251799813685248 in Hb.
    rewrite u_val. lra. }
  pose proof (Qfloor_le (inject_Z c * ((1 + u) * (1 + u) * (1 + u)))) as Hf.
  assert (Hz : inject_Z (Qfloor (inject_Z c * ((1 + u) * (1 + u) * (1 + u)))) < inject_Z (c + 1))
    by (eapply Qle_lt_trans; eassumption).
  rewrite <- Zlt_Qlt in Hz. lia.
Qed.

(** What the three copies answer, by the size they ask for. *)
Lemma fit_outcome (img : image) (cw ch : num) (scaledW scaledH : Z) :
  (0 < width img)%Z -> (0 < height img)%Z ->
  scaled_size (width img) (height img) cw ch = (scaledW, scaledH) ->
  ((1 <= scaledW)%Z /\ (1 <= scaledH)%Z ->
     DualLayoutMerger.resize_image_to_fit (Some img) cw ch true
     = Ok (Some {| width := scaledW; height := scaledH |}) /\
     PDFInvoiceMerger.resize_image_to_fit img cw ch
     = Ok {| width := scaledW; height := scaledH |} /\
     PDFToImageMerger.resize_image_proportionally img cw ch
     = Ok {| width := scaledW; height := scaledH |}) /\
  ((scaledW < 1)%Z \/ (scaledH < 1)%Z ->
     DualLayoutMerger.resize_image_to_fit (Some img) cw ch true = Raise ValueError /\
     PDFInvoiceMerger.resize_image_to_fit img cw ch = Raise ValueError /\
     PDFToImageMerger.resize_image_proportionally img cw ch = Raise ValueError).
Proof.
  intros Hw Hh E. split.
  - intros [P1 P2].
    pose proof (fit_returns img cw ch ltac:(lia) ltac:(lia)) as R.
    unfold fits in R. rewrite E in R. cbn [fst snd] in R. apply R. auto.
  - intros Z0.
    pose proof (fit_raises img cw ch Hw Hh) as R.
    unfold fits in R. rewrite E in R. cbn [fst snd] in R. apply R. lia.
Qed.

Lemma rnd_nonpos x : x <= 0 -> rnd x <= 0.
Proof.
  intros H. destruct (Qlt_le_dec x 0) as [N|P].
  - rewrite (rnd_opp_pos x N).
    assert (0 < rnd (- x)) by (apply rnd_pos; lra). lra.
  - rewrite (rnd_zero x) by lra. apply Qle_refl.
Qed.

Lemma int_Float_nonpos q : q <= 0 -> (int (Float q) <= 0)%Z.
Proof.
  intros Hq. destruct q as [n d]. unfold int. cbn [Qnum Qden].
  unfold Qle in Hq. cbn in Hq.
  assert (Hn : (n <= 0)%Z) by lia.
  replace n with (- - n)%Z by lia. rewrite Z.quot_opp_l by lia.
  assert (0 <= Z.quot (- n) (Z.pos d))%Z by (apply Z.quot_pos; lia). lia.
Qed.

Lemma Qmult_nonneg_nonpos a b : 0 <= a -> b <= 0 -> a * b <= 0.
Proof.
  intros Ha Hb. assert (H : 0 <= a * - b) by (apply Qmult_le_0_compat; lra).
  setoid_replace (a * b) with (- (a * - b)) by ring. lra.
Qed.

Lemma quotient_nonpos (c : num) (w : Z) :
  (0 < w)%Z -> exists r, quotient c (Int w) = Float r /\ (value c <= 0 -> r <= 0).
Proof.
  intros Hw. pose proof (inject_Z_pos w Hw) as HW.
  assert (Tw : 0 < to_float (Int w)) by (apply rnd_pos, HW).
  destruct c as [z|q]; cbn [quotient value]; eexists; (split; [reflexivity|]);
    intros Hv; apply rnd_nonpos; unfold Qdiv; rewrite Qmult_comm;
    apply Qmult_nonneg_nonpos; try assumption; apply Qinv_le_0_compat.
  - lra.
  - cbn [to_float]. fold (to_float (Int w)). lra.
Qed.

(** A cell with a side that is not positive leaves no pixel of a picture. *)
Lemma scaled_size_nonpos (w h : Z) (cw ch : num) :
  (0 < w)%Z -> (0 < h)%Z -> value cw <= 0 \/ value ch <= 0 ->
  (fst (scaled_size w h cw ch) <= 0)%Z.
Proof.
  intros Hw Hh Hc. unfold scaled_size. cbn [fst].
  assert (Tw : 0 < to_float (Int w)) by (apply rnd_pos, inject_Z_pos, Hw).
  destruct (quotient_nonpos cw w Hw) as (r1 & E1 & N1).
  destruct (quotient_nonpos ch h Hh) as (r2 & E2 & N2).
  rewrite E1, E2.
  pose proof (value_min_l (Float r1) (Float r2)) as Ml.
  pose proof (value_min_r (Float r1) (Float r2)) as Mr.
  destruct (min_cases (Float r1) (Float r2)) as [Em|Em]; rewrite Em in Ml, Mr |- *;
    cbn [value] in Ml, Mr; cbn [mul to_float]; fold (to_float (Int w));
    apply int_Float_nonpos, rnd_nonpos, Qmult_nonneg_nonpos; lra.
Qed.

(** In a rounding-safe cell the size asked for does not exceed the cell. *)
Lemma scaled_in_safe_cell (w h : Z) (cw ch : num) :
  (0 < w)%Z -> (0 < h)%Z -> 0 < value cw -> 0 < value ch ->
  rounding_safe (value cw) -> rounding_safe (value ch) ->
  (0 <= fst (scaled_size w h cw ch))%Z /\ (0 <= snd (scaled_size w h cw ch))%Z /\
  inject_Z (fst (scaled_size w h cw ch)) <= value cw /\
  inject_Z (snd (scaled_size w h cw ch)) <= value ch.
Proof.
  intros Hw Hh Hcw Hch Sw Sh.
  destruct (scaled_size_eval w h cw ch Hw Hh Hcw Hch)
    as (r1 & r2 & s & E1 & E2 & Hs & L1 & L2 & _ & ->).
  cbn [fst snd].
  pose proof (scaled_upper cw _ s r1 Hw Hcw E1 Hs L1) as U1.
  pose proof (scaled_upper ch _ s r2 Hh Hch E2 Hs L2) as U2.
  assert (N1 : 0 <= rnd (to_float (Int w) * s)).
  { apply rnd_nonneg, Qmult_le_0_compat; [|lra].
    apply Qlt_le_weak, rnd_pos, inject_Z_pos, Hw. }
  assert (N2 : 0 <= rnd (to_float (Int h) * s)).
  { apply rnd_nonneg, Qmult_le_0_compat; [|lra].
    apply Qlt_le_weak, rnd_pos, inject_Z_pos, Hh. }
  split; [|split; [|split]].
  - change 0%Z with (Qfloor 0). apply Qfloor_resp_le, N1.
  - change 0%Z with (Qfloor 0). apply Qfloor_resp_le, N2.
  - eapply Qle_trans; [|exact Sw]. rewrite <- Zle_Qle. apply Qfloor_resp_le, U1.
  - eapply Qle_trans; [|exact Sh]. rewrite <- Zle_Qle. apply Qfloor_resp_le, U2.
Qed.

(** In the exact formula one axis is filled and neither overflows. *)
Lemma spec_fit_binding (w h : Z) (cw ch : Q) :
  (0 < w)%Z -> (0 < h)%Z ->
  (fst (Spec.fit w h cw ch) = Qfloor cw \/ snd (Spec.fit w h cw ch) = Qfloor ch) /\
  (fst (Spec.fit w h cw ch) <= Qfloor cw)%Z /\ (snd (Spec.fit w h cw ch) <= Qfloor ch)%Z.
Proof.
  intros Hw Hh. unfold Spec.fit, Spec.scale. cbn [fst snd].
  pose proof (inject_Z_pos w Hw) as HW. pose proof (inject_Z_pos h Hh) as HH.
  assert (A : inject_Z w * Qmin (cw / inject_Z w) (ch / inject_Z h) <= cw).
  { apply Qle_trans with (inject_Z w * (cw / inject_Z w)).
    - apply Qmult_le_l; [exact HW | apply Q.le_min_l].
    - apply Qle_lteq. right. field. lra. }
  assert (B : inject_Z h * Qmin (cw / inject_Z w) (ch / inject_Z h) <= ch).
  { apply Qle_trans with (inject_Z h * (ch / inject_Z h)).
    - apply Qmult_le_l; [exact HH | apply Q.le_min_r].
    - apply Qle_lteq. right. field. lra. }
  split; [|split; apply Qfloor_resp_le; assumption].
  destruct (Q.min_spec (cw / inject_Z w) (ch / inject_Z h)) as [[_ E]|[_ E]].
  - left. apply Qfloor_comp. rewrite E. field. lra.
  - right. apply Qfloor_comp. rewrite E. field. lra.
Qed.

(** The size asked for is within one unit of the exact formula on each
    axis. *)
Lemma scaled_tracks_spec (w h : Z) (cw ch : num) :
  (0 < w < 2 ^ 53)%Z -> (0 < h < 2 ^ 53)%Z ->
  0 < value cw -> value cw <= inject_Z (2 ^ 51) ->
  0 < value ch -> value ch <= inject_Z (2 ^ 51) ->
  (fst (Spec.fit w h (value cw) (value ch)) - 1
     <= fst (scaled_size w h cw ch)
     <= fst (Spec.fit w h (value cw) (value ch)) + 1)%Z /\
  (snd (Spec.fit w h (value cw) (value ch)) - 1
     <= snd (scaled_size w h cw ch)
     <= snd (Spec.fit w h (value cw) (value ch)) + 1)%Z.
Proof.
  intros Hw Hh Hcw Hcw' Hch Hch'.
  destruct (scaled_size_eval w h cw ch ltac:(lia) ltac:(lia) Hcw Hch)
    as (r1 & r2 & s & E1 & E2 & Hs & L1 & L2 & Hc & ->).
  cbn [fst snd].
  unfold Spec.fit, Spec.scale. cbn [fst snd]. split.
  - apply (scaled_side_close w h cw ch r1 r2 s); assumption.
  - assert (E : inject_Z h * Qmin (value cw / inject_Z w) (value ch / inject_Z h)
                == inject_Z h * Qmin (value ch / inject_Z h) (value cw / inject_Z w)).
    { rewrite Q.min_comm. reflexivity. }
    rewrite (Qfloor_comp _ _ E).
    apply (scaled_side_close h w ch cw r2 r1 s); try assumption.
    tauto.
Qed.

Lemma rounding_safe_A4_dual :
  rounding_safe (value (DualLayoutMerger.cell_width A4_width)) /\
  rounding_safe (value (DualLayoutMerger.cell_height A4_height)).
Proof. split; vm_compute; discriminate. Qed.

End FitFacts.

(* ================================================================= *)
(** ** dual_layout_merger.py: pages and slots *)

Module DualFacts.
Import Binary64 Py Path PIL ReportLab PyFacts FitFacts DualLayoutMerger DualPages.

Section Facts.
Variable str_lower : string -> string.
Variable fitz_open : path -> option Fitz.document.
Variable image_open : path -> option (result image).
Variable page_width page_height : num.

Local Abbreviation source_image := (source_image str_lower fitz_open image_open).
Local Abbreviation drawable :=
  (drawable str_lower fitz_open image_open page_width page_height).
Local Abbreviation rasterize := (rasterize str_lower fitz_open image_open).
Local Abbreviation process_file_to_image :=
  (process_file_to_image str_lower fitz_open image_open page_width page_height).
Local Abbreviation draw_upper :=
  (draw_upper str_lower fitz_open image_open page_width page_height).
Local Abbreviation draw_lower :=
  (draw_lower str_lower fitz_open image_open page_width page_height).
Local Abbreviation slot_ops :=
  (slot_ops str_lower fitz_open image_open page_width page_height).
Local Abbreviation paginate :=
  (paginate str_lower fitz_open image_open page_width page_height).
Local Abbreviation page_body :=
  (page_body str_lower fitz_open image_open page_width page_height).
Local Abbreviation midline := (midline page_width page_height).
Local Abbreviation in_cell := (in_cell page_width page_height).

Local Abbreviation unreadable := (unreadable str_lower image_open).

(** The code rasterizes the image the layout is meant to show. *)
Lemma rasterize_source f : ~ unreadable f ->
  rasterize f = match source_image f with
                | Some img => Some (Ok img)
                | None => None
                end.
Proof.
  intros Hr.
  unfold DualLayoutMerger.rasterize, DualPages.source_image, pdf_to_image, load_image,
         supported_pdf_format.
  destruct (String.eqb (str_lower (suffix f)) ".pdf") eqn:Ee.
  - destruct (fitz_open f) as [[|page doc]|]; reflexivity.
  - destruct (image_open f) as [[img|e]|] eqn:Ei; try reflexivity.
    exfalso. apply Hr. split; [exact Ee | exists e; exact Ei].
Qed.

Lemma rasterize_unreadable f : unreadable f -> exists e, rasterize f = Some (Raise e).
Proof.
  intros [Ee [e Ei]]. exists e.
  unfold DualLayoutMerger.rasterize, load_image, supported_pdf_format.
  rewrite Ee. exact Ei.
Qed.

Lemma unreadable_dec f : unreadable f \/ ~ unreadable f.
Proof.
  unfold DualPages.unreadable.
  destruct (String.eqb (str_lower (suffix f)) ".pdf");
    [right; intros [E _]; discriminate E|].
  destruct (image_open f) as [[img|e]|].
  - right. intros [_ [e E]]. discriminate E.
  - left. split; [reflexivity | exists e; reflexivity].
  - right. intros [_ [e E]]. discriminate E.
Qed.

Lemma process_drawable f : drawable f ->
  process_file_to_image f = Ok (option_map in_cell (source_image f)).
Proof.
  intros [Hr Hs]. unfold DualLayoutMerger.process_file_to_image.
  rewrite (rasterize_source f Hr).
  destruct (source_image f) as [img|] eqn:E; [|reflexivity].
  destruct (Hs img eq_refl) as (Hw & Hh & Hf). cbn [bind].
  destruct (fit_returns img _ _ ltac:(lia) ltac:(lia) Hf) as (D & _).
  exact D.
Qed.

(** A file whose image loses a side in the cell stops the run. *)
Lemma process_raises f img :
  ~ unreadable f ->
  source_image f = Some img -> (0 < width img)%Z -> (0 < height img)%Z ->
  ~ Spec.fits img (cell_width page_width) (cell_height page_height) ->
  process_file_to_image f = Raise ValueError.
Proof.
  intros Hr E Hw Hh Hn. unfold DualLayoutMerger.process_file_to_image.
  rewrite (rasterize_source f Hr), E. cbn [bind].
  apply (fit_raises img _ _ Hw Hh Hn).
Qed.

(** So does a file whose pixels cannot be read. *)
Lemma process_unreadable f : unreadable f ->
  exists e, process_file_to_image f = Raise e.
Proof.
  intros Hu. destruct (rasterize_unreadable f Hu) as [e E]. exists e.
  unfold DualLayoutMerger.process_file_to_image. rewrite E. reflexivity.
Qed.

Lemma draw_upper_frame f c : drawable f ->
  draw_upper f c = Ok {| finished := finished c; current := current c ++ slot_ops Upper f |}.
Proof.
  intros Hs. unfold DualPages.slot_ops, DualLayoutMerger.draw_upper.
  rewrite (process_drawable f Hs). cbn [bind].
  destruct (source_image f) as [img|]; cbn [option_map];
    unfold draw; cbn [current finished Canvas app in_cell width height slot_origin caption_line].
  - rewrite <- app_assoc. reflexivity.
  - rewrite app_nil_r. destruct c; reflexivity.
Qed.

Lemma draw_lower_frame f c : drawable f ->
  draw_lower f c = Ok {| finished := finished c; current := current c ++ slot_ops Lower f |}.
Proof.
  intros Hs. unfold DualPages.slot_ops, DualLayoutMerger.draw_lower.
  rewrite (process_drawable f Hs). cbn [bind].
  destruct (source_image f) as [img|]; cbn [option_map];
    unfold draw; cbn [current finished Canvas app in_cell width height slot_origin caption_line].
  - rewrite <- app_assoc. reflexivity.
  - rewrite app_nil_r. destruct c; reflexivity.
Qed.

Lemma paginate_length (l : list path) :
  Z.of_nat (List.length (paginate l)) = ((Z.of_nat (List.length l) + 1) / 2)%Z.
Proof.
  induction l as [| x | x y l IH] using pair_induction.
  - reflexivity.
  - reflexivity.
  - cbn [DualPages.paginate List.length]. rewrite !Nat2Z.inj_succ, IH.
    replace (Z.succ (Z.succ (Z.of_nat (List.length l))) + 1)%Z
      with ((Z.of_nat (List.length l) + 1) + 1 * 2)%Z by lia.
    rewrite Z.div_add by lia. lia.
Qed.

Lemma paginate_nonempty (l : list path) : l <> [] -> paginate l <> [].
Proof. destruct l as [|x [|y l]]; [congruence | discriminate | discriminate]. Qed.

Lemma paginate_last_nonempty (l : list path) : l <> [] -> last (paginate l) [] <> [].
Proof.
  induction l as [| x | x y l IH] using pair_induction; intros H.
  - congruence.
  - cbn. intros E. apply app_eq_nil in E. destruct E; discriminate.
  - cbn [DualPages.paginate]. destruct l as [|z l'].
    + cbn. intros E. apply app_eq_nil in E. destruct E as [_ E].
      apply app_eq_nil in E. destruct E; discriminate.
    + pose proof (paginate_nonempty (z :: l') ltac:(discriminate)) as Hne.
      destruct (paginate (z :: l')) as [|p ps] eqn:Ep; [congruence|].
      cbn [last]. cbn [last] in IH. apply IH. discriminate.
Qed.

(** The loop over the page numbers, from page [start] on. *)
Lemma loop_pages (all_files : list path) (total : Z) :
  Forall drawable all_files ->
  forall rest pre start c,
    all_files = pre ++ rest -> List.length pre = (2 * start)%nat -> rest <> [] ->
    total = (Z.of_nat start + Z.of_nat (List.length (paginate rest)))%Z ->
    current c = [] ->
    for_each (map Z.of_nat (seq start (List.length (paginate rest))))
             (page_body all_files total) c
    = Ok {| finished := finished c ++ removelast (paginate rest);
            current := last (paginate rest) [] |}.
Proof.
  intros Hsound rest.
  induction rest as [| f | f g rest IH] using pair_induction;
    intros pre start c Hall Hpre Hne Htot Hcur.
  - congruence.
  - (* the last page, one file *)
    cbn [DualPages.paginate List.length seq map for_each removelast last] in *.
    assert (Hf : drawable f).
    { rewrite Forall_forall in Hsound. apply Hsound. rewrite Hall.
      apply in_or_app. right. left. reflexivity. }
    assert (Hlen : len all_files = (2 * Z.of_nat start + 1)%Z).
    { unfold len. rewrite Hall, length_app. cbn [List.length]. lia. }
    unfold DualLayoutMerger.page_body.
    rewrite Hlen.
    destruct (Z.ltb_spec (Z.of_nat start * 2) (2 * Z.of_nat start + 1)) as [_|]; [|lia].
    destruct (Z.ltb_spec (Z.of_nat start * 2 + 1) (2 * Z.of_nat start + 1)) as [|_]; [lia|].
    replace (Z.of_nat start * 2)%Z with (Z.of_nat (List.length pre)) by lia.
    rewrite (getitem_nat all_files (List.length pre) f)
      by (rewrite Hall, nth_error_app2, Nat.sub_diag by lia; reflexivity).
    cbn [bind]. rewrite (draw_upper_frame f c Hf). cbn [bind].
    destruct (Z.ltb_spec (Z.of_nat start) (total - 1)) as [|_]; [lia|].
    unfold draw; cbn [finished current]. rewrite Hcur, app_nil_r. reflexivity.
  - (* a full page *)
    assert (Hf : drawable f).
    { rewrite Forall_forall in Hsound. apply Hsound. rewrite Hall.
      apply in_or_app. right. left. reflexivity. }
    assert (Hg : drawable g).
    { rewrite Forall_forall in Hsound. apply Hsound. rewrite Hall.
      apply in_or_app. right. right. left. reflexivity. }
    assert (Hlen : len all_files = (2 * Z.of_nat start + 2 + Z.of_nat (List.length rest))%Z).
    { unfold len. rewrite Hall, length_app. cbn [List.length]. lia. }
    cbn [DualPages.paginate List.length seq map for_each] in *.
    unfold DualLayoutMerger.page_body at 1.
    rewrite Hlen.
    destruct (Z.ltb_spec (Z.of_nat start * 2)
                (2 * Z.of_nat start + 2 + Z.of_nat (List.length rest))) as [_|]; [|lia].
    destruct (Z.ltb_spec (Z.of_nat start * 2 + 1)
                (2 * Z.of_nat start + 2 + Z.of_nat (List.length rest))) as [_|]; [|lia].
    replace (Z.of_nat start * 2 + 1)%Z with (Z.of_nat (S (List.length pre))) by lia.
    replace (Z.of_nat start * 2)%Z with (Z.of_nat (List.length pre)) by lia.
    rewrite (getitem_nat all_files (List.length pre) f)
      by (rewrite Hall, nth_error_app2, Nat.sub_diag by lia; reflexivity).
    cbn [bind]. rewrite (draw_upper_frame f c Hf). cbn [bind].
    rewrite (getitem_nat all_files (S (List.length pre)) g).
    2:{ rewrite Hall, nth_error_app2 by lia.
        replace (S (List.length pre) - List.length pre)%nat with 1%nat by lia.
        reflexivity. }
    cbn [bind]. rewrite draw_lower_frame by exact Hg. cbn [bind]. unfold draw; cbn [finished current].
    destruct rest as [|h rest'].
    + (* it is the last page *)
      cbn [DualPages.paginate List.length seq map for_each removelast last] in *.
      destruct (Z.ltb_spec (Z.of_nat start) (total - 1)) as [|_]; [lia|].
      rewrite Hcur, app_nil_r, <- !app_assoc. reflexivity.
    + pose proof (paginate_nonempty (h :: rest') ltac:(discriminate)) as Hpn.
      destruct (Z.ltb_spec (Z.of_nat start) (total - 1)) as [_|Hge].
      2:{ destruct (paginate (h :: rest')); [congruence|]. cbn [List.length] in Htot. lia. }
      unfold showPage; cbn [bind finished current].
      rewrite (IH (pre ++ [f; g]) (S start)).
      * cbn [finished current app].
        destruct (paginate (h :: rest')) as [|p ps] eqn:Ep; [congruence|].
        cbn [removelast last]. rewrite Hcur, <- !app_assoc. reflexivity.
      * rewrite Hall, <- app_assoc. reflexivity.
      * rewrite length_app. cbn [List.length]. lia.
      * discriminate.
      * lia.
      * reflexivity.
Qed.


Lemma create_dual_layout_pdf_pages (all_files : list path) :
  Forall drawable all_files -> (len all_files < 2 ^ 53)%Z -> all_files <> [] ->
  create_dual_layout_pdf str_lower fitz_open image_open page_width page_height all_files
  = Ok (Some (paginate all_files)).
Proof.
  intros Hs Hn Hne. unfold create_dual_layout_pdf.
  destruct all_files as [|f0 fs]; [congruence|].
  set (all_files := f0 :: fs) in *.
  assert (Hlen : (0 <= len all_files)%Z) by (unfold len; lia).
  rewrite (ceil_truediv_exact (len all_files) 2 (conj Hlen Hn) eq_refl).
  rewrite Qceiling_half.
  pose proof (paginate_length all_files) as Hpl. fold (len all_files) in Hpl.
  rewrite <- Hpl.
  unfold range. rewrite Nat2Z.id.
  rewrite (loop_pages all_files _ Hs all_files [] 0%nat Canvas);
    [| reflexivity | reflexivity | exact Hne | lia | reflexivity].
  cbn [bind]. unfold save. cbn [current finished Canvas app].
  pose proof (paginate_last_nonempty all_files Hne) as Hl.
  destruct (last (paginate all_files) []) as [|o os] eqn:El; [congruence|].
  rewrite <- El, <- app_removelast_last by (apply paginate_nonempty, Hne).
  reflexivity.
Qed.

Lemma process_all_files_eq listing :
  process_all_files str_lower fitz_open image_open page_width page_height listing
  = create_dual_layout_pdf str_lower fitz_open image_open page_width page_height
      (get_all_files str_lower listing).
Proof.
  unfold process_all_files. destruct (get_all_files str_lower listing); reflexivity.
Qed.

(** What the page at position [k] shows. *)
Lemma paginate_nth (l : list path) : forall (k : nat) (page : list op),
  nth_error (paginate l) k = Some page ->
  page = slot_of str_lower fitz_open image_open page_width page_height
           Upper (nth_error l (2 * k))
         ++ slot_of str_lower fitz_open image_open page_width page_height
              Lower (nth_error l (2 * k + 1))
         ++ [midline].
Proof.
  induction l as [| x | x y l IH] using pair_induction; intros k page H.
  - destruct k; discriminate H.
  - destruct k as [|k]; [|destruct k; discriminate H].
    injection H as <-. reflexivity.
  - destruct k as [|k].
    + injection H as <-. reflexivity.
    + cbn [DualPages.paginate nth_error] in H. apply IH in H. rewrite H.
      replace (2 * S k)%nat with (S (S (2 * k))) by lia.
      replace (S (S (2 * k)) + 1)%nat with (S (S (2 * k + 1))) by lia.
      reflexivity.
Qed.

(** A file is drawable, or stops the run. *)
Lemma drawable_or_raises f :
  (forall img, source_image f = Some img -> (0 < width img)%Z /\ (0 < height img)%Z) ->
  drawable f \/ exists e, process_file_to_image f = Raise e.
Proof.
  intros Hp. destruct (unreadable_dec f) as [Hu|Hr].
  { right. apply process_unreadable, Hu. }
  destruct (source_image f) as [img|] eqn:E.
  - destruct (Hp img eq_refl) as [Hw Hh].
    destruct (fits_dec img (cell_width page_width) (cell_height page_height)) as [Hf|Hn].
    + left. split; [exact Hr|].
      intros img' E'. rewrite E in E'. injection E' as <-. auto.
    + right. exists ValueError. apply (process_raises f img Hr E Hw Hh Hn).
  - left. split; [exact Hr|]. intros img' E'. rewrite E in E'. discriminate E'.
Qed.

Lemma not_drawable_raises f :
  (forall img, source_image f = Some img -> (0 < width img)%Z /\ (0 < height img)%Z) ->
  ~ drawable f -> exists e, process_file_to_image f = Raise e.
Proof.
  intros Hp Hn. destruct (drawable_or_raises f Hp) as [Hd|Hr]; [contradiction | exact Hr].
Qed.

Lemma draw_raises f c e : process_file_to_image f = Raise e ->
  draw_upper f c = Raise e /\ draw_lower f c = Raise e.
Proof.
  intros E. unfold DualLayoutMerger.draw_upper, DualLayoutMerger.draw_lower.
  rewrite E. split; reflexivity.
Qed.

(** The loop over the page numbers stops at the first file that is not
    drawable. *)
Lemma loop_raises (all_files : list path) (total : Z) :
  (forall f img, In f all_files -> source_image f = Some img ->
                 (0 < width img)%Z /\ (0 < height img)%Z) ->
  forall rest pre start c,
    all_files = pre ++ rest -> List.length pre = (2 * start)%nat ->
    Exists (fun f => ~ drawable f) rest ->
    exists e,
      for_each (map Z.of_nat (seq start (List.length (paginate rest))))
               (page_body all_files total) c
      = Raise e.
Proof.
  intros Hpos rest.
  induction rest as [| f | f g rest IH] using pair_induction;
    intros pre start c Hall Hpre Hex.
  - inversion Hex.
  - assert (Hbad : ~ drawable f).
    { inversion Hex as [? ? Hb|? ? Hb]; subst; [exact Hb | inversion Hb]. }
    destruct (not_drawable_raises f) as [e Hf]; [|exact Hbad|].
    { intros img. apply Hpos. rewrite Hall. apply in_or_app. right. left. reflexivity. }
    exists e.
    cbn [DualPages.paginate List.length seq map for_each].
    assert (Hlen : len all_files = (2 * Z.of_nat start + 1)%Z).
    { unfold len. rewrite Hall, length_app. cbn [List.length]. lia. }
    unfold DualLayoutMerger.page_body. rewrite Hlen.
    destruct (Z.ltb_spec (Z.of_nat start * 2) (2 * Z.of_nat start + 1)) as [_|]; [|lia].
    replace (Z.of_nat start * 2)%Z with (Z.of_nat (List.length pre)) by lia.
    rewrite (getitem_nat all_files (List.length pre) f)
      by (rewrite Hall, nth_error_app2, Nat.sub_diag by lia; reflexivity).
    cbn [bind]. destruct (draw_raises f c e Hf) as [-> _]. reflexivity.
  - assert (Hlen : len all_files = (2 * Z.of_nat start + 2 + Z.of_nat (List.length rest))%Z).
    { unfold len. rewrite Hall, length_app. cbn [List.length]. lia. }
    cbn [DualPages.paginate List.length seq map for_each].
    unfold DualLayoutMerger.page_body at 1. rewrite Hlen.
    destruct (Z.ltb_spec (Z.of_nat start * 2)
                (2 * Z.of_nat start + 2 + Z.of_nat (List.length rest))) as [_|]; [|lia].
    destruct (Z.ltb_spec (Z.of_nat start * 2 + 1)
                (2 * Z.of_nat start + 2 + Z.of_nat (List.length rest))) as [_|]; [|lia].
    replace (Z.of_nat start * 2 + 1)%Z with (Z.of_nat (S (List.length pre))) by lia.
    replace (Z.of_nat start * 2)%Z with (Z.of_nat (List.length pre)) by lia.
    rewrite (getitem_nat all_files (List.length pre) f)
      by (rewrite Hall, nth_error_app2, Nat.sub_diag by lia; reflexivity).
    rewrite (getitem_nat all_files (S (List.length pre)) g).
    2:{ rewrite Hall, nth_error_app2 by lia.
        replace (S (List.length pre) - List.length pre)%nat with 1%nat by lia.
        reflexivity. }
    cbn [bind].
    destruct (drawable_or_raises f) as [Hf|[e Hf]].
    { intros img. apply Hpos. rewrite Hall. apply in_or_app. right. left. reflexivity. }
    2:{ exists e. destruct (draw_raises f c e Hf) as [-> _]. reflexivity. }
    rewrite (draw_upper_frame f c Hf). cbn [bind].
    destruct (drawable_or_raises g) as [Hg|[e Hg]].
    { intros img. apply Hpos. rewrite Hall. apply in_or_app. right. right. left.
      reflexivity. }
    2:{ exists e.
        destruct (draw_raises g {| finished := finished c;
                                   current := current c ++ slot_ops Upper f |} e Hg)
          as [_ ->]. reflexivity. }
    rewrite draw_lower_frame by exact Hg. cbn [bind].
    assert (Hrest : Exists (fun f => ~ drawable f) rest).
    { inversion Hex as [? ? Hb|? ? Hb]; subst; [contradiction|].
      inversion Hb as [? ? Hb'|? ? Hb']; subst; [contradiction | exact Hb']. }
    apply (IH (pre ++ [f; g]) (S start)).
    + rewrite Hall, <- app_assoc. reflexivity.
    + rewrite length_app. cbn [List.length]. lia.
    + exact Hrest.
Qed.

Lemma create_dual_layout_pdf_raises (all_files : list path) :
  (forall f img, In f all_files -> source_image f = Some img ->
                 (0 < width img)%Z /\ (0 < height img)%Z) ->
  (len all_files < 2 ^ 53)%Z ->
  Exists (fun f => ~ drawable f) all_files ->
  exists e,
    create_dual_layout_pdf str_lower fitz_open image_open page_width page_height all_files
    = Raise e.
Proof.
  intros Hpos Hn Hex. unfold create_dual_layout_pdf.
  destruct all_files as [|f0 fs]; [inversion Hex|].
  set (all_files := f0 :: fs) in *.
  assert (Hlen : (0 <= len all_files)%Z) by (unfold len; lia).
  rewrite (ceil_truediv_exact (len all_files) 2 (conj Hlen Hn) eq_refl).
  rewrite Qceiling_half.
  pose proof (paginate_length all_files) as Hpl. fold (len all_files) in Hpl.
  rewrite <- Hpl.
  unfold range. rewrite Nat2Z.id.
  destruct (loop_raises all_files (Z.of_nat (List.length (paginate all_files)))
              Hpos all_files [] 0%nat Canvas eq_refl eq_refl Hex) as [e E].
  exists e. rewrite E. reflexivity.
Qed.

Lemma paginate_app_even (pre rest : list path) :
  Nat.even (List.length pre) = true -> paginate (pre ++ rest) = paginate pre ++ paginate rest.
Proof.
  induction pre as [| x | x y pre IH] using pair_induction; intros H.
  - reflexivity.
  - discriminate.
  - cbn [List.length] in H. change (Nat.even (S (S (List.length pre)))) with
      (Nat.even (List.length pre)) in H.
    cbn [app DualPages.paginate]. rewrite IH by exact H. reflexivity.
Qed.

(** With an odd number of files the last page holds one file, above. *)
Lemma paginate_last_odd (pre : list path) (f : path) :
  Nat.even (List.length pre) = true ->
  last (paginate (pre ++ [f])) [] = slot_ops Upper f ++ [midline].
Proof.
  intros H. rewrite paginate_app_even by exact H. cbn [DualPages.paginate].
  apply last_last.
Qed.

End Facts.
End DualFacts.

(* ================================================================= *)
(** ** pdf_merger.py: pairing and the run over the pairs *)

Module DictFacts.
Import Py.

Lemma dict_get_set_same {V} (d : dict V) k v : dict_get (dict_set d k v) k = Some v.
Proof.
  induction d as [|[k' v'] d IH]; cbn.
  - rewrite String.eqb_refl. reflexivity.
  - destruct (String.eqb_spec k' k) as [->|N]; cbn.
    + rewrite String.eqb_refl. reflexivity.
    + destruct (String.eqb_spec k' k); [contradiction | exact IH].
Qed.

Lemma dict_get_set_other {V} (d : dict V) k v k' :
  k <> k' -> dict_get (dict_set d k v) k' = dict_get d k'.
Proof.
  intros N. induction d as [|[k0 v0] d IH]; cbn.
  - destruct (String.eqb_spec k k'); [contradiction | reflexivity].
  - destruct (String.eqb_spec k0 k) as [->|N0]; cbn.
    + destruct (String.eqb_spec k k'); [contradiction | reflexivity].
    + rewrite IH. reflexivity.
Qed.

Lemma keys_set {V} (d : dict V) k v k' :
  In k' (map fst (dict_set d k v)) <-> k' = k \/ In k' (map fst d).
Proof.
  induction d as [|[k0 v0] d IH]; cbn.
  - intuition auto.
  - destruct (String.eqb_spec k0 k) as [->|N0]; cbn.
    + intuition auto.
    + rewrite IH. intuition auto.
Qed.

Lemma keys_set_order {V} (d : dict V) k v :
  map fst (dict_set d k v)
  = if existsb (String.eqb k) (map fst d) then map fst d else map fst d ++ [k].
Proof.
  induction d as [|[k0 v0] d IH]; cbn.
  - reflexivity.
  - rewrite (String.eqb_sym k k0).
    destruct (String.eqb_spec k0 k) as [->|N0]; cbn.
    + reflexivity.
    + rewrite IH. destruct (existsb (String.eqb k) (map fst d)); reflexivity.
Qed.

Lemma NoDup_keys_set {V} (d : dict V) k v :
  NoDup (map fst d) -> NoDup (map fst (dict_set d k v)).
Proof.
  intros H. rewrite keys_set_order.
  destruct (existsb (String.eqb k) (map fst d)) eqn:E; [exact H|].
  apply NoDup_app.
  - exact H.
  - constructor; [intros [] | constructor].
  - intros x Hx [E'|[]]. subst x.
    assert (Ht : existsb (String.eqb k) (map fst d) = true).
    { apply existsb_exists. exists k. split; [exact Hx | apply String.eqb_refl]. }
    congruence.
Qed.

Lemma dict_get_In {V} (d : dict V) k v : dict_get d k = Some v -> In (k, v) d.
Proof.
  induction d as [|[k0 v0] d IH]; cbn; [discriminate|].
  destruct (String.eqb_spec k0 k) as [->|N0].
  - intros [= ->]. left. reflexivity.
  - intros H. right. apply IH, H.
Qed.

Lemma In_dict_get {V} (d : dict V) k v :
  NoDup (map fst d) -> In (k, v) d -> dict_get d k = Some v.
Proof.
  induction d as [|[k0 v0] d IH]; cbn; [intros _ []|].
  intros Hnd [[= -> ->]|Hin].
  - rewrite String.eqb_refl. reflexivity.
  - inversion Hnd as [|? ? Hni Hnd']; subst.
    destruct (String.eqb_spec k0 k) as [->|N0].
    + exfalso. apply Hni. apply (in_map fst) in Hin. exact Hin.
    + apply IH; assumption.
Qed.

Lemma dict_get_key {V} (d : dict V) k :
  In k (map fst d) <-> exists v, dict_get d k = Some v.
Proof.
  induction d as [|[k0 v0] d IH]; cbn.
  - split; [intros [] | intros [v H]; discriminate].
  - destruct (String.eqb_spec k0 k) as [->|N0].
    + split; [eauto | auto].
    + rewrite <- IH. intuition congruence.
Qed.

End DictFacts.

Module PairedFacts.
Import Py Path PIL ReportLab PDFInvoiceMerger PairedSpec PairedRun DictFacts.

Lemma pdf_not_image (sfx : string) :
  String.eqb sfx ".pdf" = true -> str_in sfx supported_image_formats = false.
Proof. intros E. apply String.eqb_eq in E. subst sfx. reflexivity. Qed.

Lemma has_pdf_cons e es k :
  has_pdf (e :: es) k <-> (is_pdf e = true /\ stem (entry_path e) = k) \/ has_pdf es k.
Proof.
  unfold has_pdf. split.
  - intros (x & [<-|Hin] & Hp & Hs); [left; auto | right; eauto].
  - intros [[Hp Hs] | (x & Hin & Hp & Hs)]; [exists e | exists x]; cbn; auto.
Qed.

Lemma has_image_cons e es k :
  has_image (e :: es) k <-> (is_image e = true /\ stem (entry_path e) = k) \/ has_image es k.
Proof.
  unfold has_image. split.
  - intros (x & [<-|Hin] & Hp & Hs); [left; auto | right; eauto].
  - intros [[Hp Hs] | (x & Hin & Hp & Hs)]; [exists e | exists x]; cbn; auto.
Qed.

(** What the scan of the folder leaves in the two dicts. *)
Lemma scan_spec entries : forall P0 I0,
  (forall k, In k (map fst (fst (scan entries P0 I0)))
             <-> In k (map fst P0) \/ has_pdf entries k) /\
  (forall k, In k (map fst (snd (scan entries P0 I0)))
             <-> In k (map fst I0) \/ has_image entries k) /\
  (NoDup (map fst P0) -> NoDup (map fst (fst (scan entries P0 I0)))) /\
  (NoDup (map fst I0) -> NoDup (map fst (snd (scan entries P0 I0)))) /\
  (forall k p, dict_get (fst (scan entries P0 I0)) k = Some p ->
               dict_get P0 k = Some p \/ (stem p = k /\ has_pdf entries k)) /\
  (forall k p, dict_get (snd (scan entries P0 I0)) k = Some p ->
               dict_get I0 k = Some p \/ (stem p = k /\ has_image entries k)).
Proof.
  induction entries as [|e es IH]; intros P0 I0.
  - cbn [scan fst snd]. unfold has_pdf, has_image.
    repeat split; auto; try (intros [H|(x & [] & _)]; exact H).
  - cbn [scan].
    assert (Hpdf : is_pdf e = is_file e && String.eqb (lower (suffix (entry_path e))) ".pdf")
      by reflexivity.
    assert (Himg : is_image e = is_file e &&
                     str_in (lower (suffix (entry_path e))) supported_image_formats)
      by reflexivity.
    destruct (is_file e) eqn:Ef.
    + destruct (String.eqb (lower (suffix (entry_path e))) ".pdf") eqn:Ep.
      * (* a PDF *)
        rewrite (pdf_not_image _ Ep) in Himg. cbn in Hpdf, Himg.
        destruct (IH (dict_set P0 (stem (entry_path e)) (entry_path e)) I0)
          as (K1 & K2 & N1 & N2 & V1 & V2).
        repeat split.
        -- intros H. apply K1 in H. rewrite keys_set in H. rewrite has_pdf_cons.
           destruct H as [[->|H]|H]; auto.
        -- intros H. apply K1. rewrite keys_set. rewrite has_pdf_cons in H.
           destruct H as [H|[[_ <-]|H]]; auto.
        -- intros H. apply K2 in H. rewrite has_image_cons. tauto.
        -- intros H. apply K2. rewrite has_image_cons in H.
           destruct H as [H|[[H _]|H]]; auto. congruence.
        -- intros H. apply N1, NoDup_keys_set, H.
        -- exact N2.
        -- intros k p H. apply V1 in H. rewrite has_pdf_cons.
           destruct H as [H|[H1 H2]]; [|auto].
           destruct (String.eqb_spec (stem (entry_path e)) k) as [E|N].
           ++ subst k. rewrite dict_get_set_same in H. injection H as <-. auto.
           ++ rewrite dict_get_set_other in H by exact N. auto.
        -- intros k p H. apply V2 in H. rewrite has_image_cons. tauto.
      * destruct (str_in (lower (suffix (entry_path e))) supported_image_formats) eqn:Ei.
        -- (* an image *)
           cbn in Hpdf, Himg.
           destruct (IH P0 (dict_set I0 (stem (entry_path e)) (entry_path e)))
             as (K1 & K2 & N1 & N2 & V1 & V2).
           repeat split.
           ++ intros H. apply K1 in H. rewrite has_pdf_cons. tauto.
           ++ intros H. apply K1. rewrite has_pdf_cons in H.
              destruct H as [H|[[H _]|H]]; auto. congruence.
           ++ intros H. apply K2 in H. rewrite keys_set in H. rewrite has_image_cons.
              destruct H as [[->|H]|H]; auto.
           ++ intros H. apply K2. rewrite keys_set. rewrite has_image_cons in H.
              destruct H as [H|[[_ <-]|H]]; auto.
           ++ exact N1.
           ++ intros H. apply N2, NoDup_keys_set, H.
           ++ intros k p H. apply V1 in H. rewrite has_pdf_cons. tauto.
           ++ intros k p H. apply V2 in H. rewrite has_image_cons.
              destruct H as [H|[H1 H2]]; [|auto].
              destruct (String.eqb_spec (stem (entry_path e)) k) as [E|N].
              ** subst k. rewrite dict_get_set_same in H. injection H as <-. auto.
              ** rewrite dict_get_set_other in H by exact N. auto.
        -- (* neither *)
           cbn in Hpdf, Himg.
           destruct (IH P0 I0) as (K1 & K2 & N1 & N2 & V1 & V2).
           repeat split; auto.
           ++ intros H. apply K1 in H. rewrite has_pdf_cons. tauto.
           ++ intros H. apply K1. rewrite has_pdf_cons in H.
              destruct H as [H|[[H _]|H]]; auto. congruence.
           ++ intros H. apply K2 in H. rewrite has_image_cons. tauto.
           ++ intros H. apply K2. rewrite has_image_cons in H.
              destruct H as [H|[[H _]|H]]; auto. congruence.
           ++ intros k p H. apply V1 in H. rewrite has_pdf_cons. tauto.
           ++ intros k p H. apply V2 in H. rewrite has_image_cons. tauto.
    + (* not a file *)
      cbn in Hpdf, Himg.
      destruct (IH P0 I0) as (K1 & K2 & N1 & N2 & V1 & V2).
      repeat split; auto.
      * intros H. apply K1 in H. rewrite has_pdf_cons. tauto.
      * intros H. apply K1. rewrite has_pdf_cons in H.
        destruct H as [H|[[H _]|H]]; auto. congruence.
      * intros H. apply K2 in H. rewrite has_image_cons. tauto.
      * intros H. apply K2. rewrite has_image_cons in H.
        destruct H as [H|[[H _]|H]]; auto. congruence.
      * intros k p H. apply V1 in H. rewrite has_pdf_cons. tauto.
      * intros k p H. apply V2 in H. rewrite has_image_cons. tauto.
Qed.

(** The pairs and the messages of the matching loop. *)
Lemma matching_spec (P I : dict path) :
  (forall p i, In (p, i) (fst (matching P I))
               <-> exists k, In (k, p) P /\ dict_get I k = Some i) /\
  (forall m, In m (snd (matching P I))
             <-> exists k p i, m = PairFound k /\ In (k, p) P /\ dict_get I k = Some i) /\
  map fst (fst (matching P I))
  = map snd (filter (fun kp => match dict_get I (fst kp) with
                               | Some _ => true | None => false end) P).
Proof.
  induction P as [|[k p] P (IH1 & IH2 & IH3)].
  - cbn. split; [|split].
    + intros p i. split; [intros [] | intros (k & [] & _)].
    + intros m. split; [intros [] | intros (k & p & i & _ & [] & _)].
    + reflexivity.
  - cbn [matching]. destruct (matching P I) as [pairs msgs] eqn:Em.
    cbn [fst snd] in *.
    destruct (dict_get I k) as [i|] eqn:Eg; cbn [fst snd filter map]; rewrite ?Eg.
    + repeat split.
      * intros [[= <- <-]|H]; [exists k; cbn; auto|].
        apply IH1 in H. destruct H as (k' & H1 & H2). exists k'. cbn. auto.
      * intros (k' & [[= -> ->]|H1] & H2).
        -- left. congruence.
        -- right. apply IH1. eauto.
      * intros [<-|H]; [exists k, p, i; cbn; auto|].
        apply IH2 in H. destruct H as (k' & p' & i' & -> & H1 & H2).
        exists k', p', i'. cbn. auto.
      * intros (k' & p' & i' & -> & [[= -> ->]|H1] & H2).
        -- left. reflexivity.
        -- right. apply IH2. eauto 6.
      * cbn [map snd]. f_equal. exact IH3.
    + repeat split.
      * intros H. apply IH1 in H. destruct H as (k' & H1 & H2). exists k'. cbn. auto.
      * intros (k' & [[= -> ->]|H1] & H2); [congruence|]. apply IH1. eauto.
      * intros H. apply IH2 in H. destruct H as (k' & p' & i' & -> & H1 & H2).
        exists k', p', i'. cbn. auto.
      * intros (k' & p' & i' & -> & [[= -> ->]|H1] & H2); [congruence|].
        apply IH2. eauto 6.
      * exact IH3.
Qed.

Lemma string_length_append (s t : string) :
  String.length (s ++ t) = (String.length s + String.length t)%nat.
Proof. induction s as [|c s IH]; cbn; [reflexivity | rewrite IH; reflexivity]. Qed.

Lemma append_inj_l (s1 s2 t : string) : (s1 ++ t)%string = (s2 ++ t)%string -> s1 = s2.
Proof.
  revert s2. induction s1 as [|c s1 IH]; intros [|d s2] E; cbn in E.
  - reflexivity.
  - exfalso. apply (f_equal String.length) in E. cbn in E.
    rewrite string_length_append in E. lia.
  - exfalso. apply (f_equal String.length) in E. cbn in E.
    rewrite string_length_append in E. lia.
  - injection E as -> E. f_equal. apply IH, E.
Qed.

Lemma get_file_pairs_fst entries :
  fst (get_file_pairs (Some entries))
  = fst (matching (fst (scan entries [] [])) (snd (scan entries [] []))).
Proof.
  unfold get_file_pairs. destruct (scan entries [] []) as [P I]. cbn [fst snd].
  destruct (matching P I) as [[|pr prs] msgs]; reflexivity.
Qed.

Lemma get_file_pairs_snd entries m :
  In m (snd (get_file_pairs (Some entries))) ->
  m = NoPairFound \/
  In m (snd (matching (fst (scan entries [] [])) (snd (scan entries [] [])))).
Proof.
  unfold get_file_pairs. destruct (scan entries [] []) as [P I]. cbn [fst snd].
  destruct (matching P I) as [[|pr prs] msgs]; cbn [fst snd]; [|auto].
  intros H. apply in_app_or in H. destruct H as [H|[<-|[]]]; auto.
Qed.

Lemma NoDup_map_filter {A B} (f : A -> B) (g : A -> bool) (l : list A) :
  NoDup (map f l) -> NoDup (map f (filter g l)).
Proof.
  induction l as [|a l IH]; cbn; [auto|].
  intros H. inversion H as [|? ? Hni Hnd]; subst.
  destruct (g a); cbn; [|auto].
  constructor; [|auto].
  intros Hin. apply Hni. apply in_map_iff in Hin. destruct Hin as (x & Ex & Hx).
  apply filter_In in Hx. apply in_map_iff. exists x. tauto.
Qed.

(** The pairs are the stems that have both kinds of file, once each. *)
Lemma pairs_spec entries :
  let pairs := fst (get_file_pairs (Some entries)) in
  (forall p i, In (p, i) pairs ->
     stem p = stem i /\ has_pdf entries (stem p) /\ has_image entries (stem p)) /\
  (forall s, has_pdf entries s -> has_image entries s ->
     exists p i, In (p, i) pairs /\ stem p = s /\ stem i = s) /\
  NoDup (map (fun pr => stem (fst pr)) pairs).
Proof.
  cbv zeta. rewrite get_file_pairs_fst.
  destruct (scan_spec entries [] []) as (K1 & K2 & N1 & N2 & V1 & V2).
  set (P := fst (scan entries [] [])) in *. set (I := snd (scan entries [] [])) in *.
  destruct (matching_spec P I) as (M1 & _ & M3).
  specialize (N1 (NoDup_nil _)). specialize (N2 (NoDup_nil _)).
  assert (VP : forall k p, In (k, p) P -> stem p = k /\ has_pdf entries k).
  { intros k p H. apply (In_dict_get P k p N1) in H. apply V1 in H.
    destruct H as [H|H]; [discriminate | exact H]. }
  split; [|split].
  - intros p i H. apply M1 in H. destruct H as (k & H1 & H2).
    destruct (VP k p H1) as [Es Hp]. apply V2 in H2.
    destruct H2 as [H2|[Ei Hi]]; [discriminate|].
    rewrite Es. split; [congruence | auto].
  - intros s Hp Hi.
    assert (HkP : In s (map fst P)) by (apply K1; auto).
    assert (HkI : In s (map fst I)) by (apply K2; auto).
    apply dict_get_key in HkP. destruct HkP as [p Gp].
    apply dict_get_key in HkI. destruct HkI as [i Gi].
    exists p, i. split; [|split].
    + apply M1. exists s. split; [apply dict_get_In, Gp | exact Gi].
    + apply V1 in Gp. destruct Gp as [Gp|[Gp _]]; [discriminate | exact Gp].
    + apply V2 in Gi. destruct Gi as [Gi|[Gi _]]; [discriminate | exact Gi].
  - rewrite <- (map_map fst stem), M3.
    set (g := fun kp : string * path =>
                match dict_get I (fst kp) with Some _ => true | None => false end).
    assert (E : map stem (map snd (filter g P)) = map fst (filter g P)).
    { rewrite map_map. apply map_ext_in. intros [k p] H.
      apply filter_In in H. destruct H as [H _]. apply VP in H. cbn. tauto. }
    rewrite E. apply NoDup_map_filter, N1.
Qed.

Lemma scan_keys_order entries : forall P0 I0,
  map fst (fst (scan entries P0 I0))
  = map fst P0 ++ first_occurrences (map fst P0) (pdf_stems entries).
Proof.
  induction entries as [|e es IH]; intros P0 I0.
  - cbn. rewrite app_nil_r. reflexivity.
  - cbn [scan]. unfold pdf_stems. cbn [filter]. unfold is_pdf at 1.
    destruct (is_file e); cbn [andb].
    + destruct (String.eqb (lower (suffix (entry_path e))) ".pdf").
      * rewrite IH. rewrite keys_set_order. cbn [map first_occurrences].
        fold (pdf_stems es).
        destruct (existsb (String.eqb (stem (entry_path e))) (map fst P0)).
        -- reflexivity.
        -- rewrite <- app_assoc. reflexivity.
      * destruct (str_in _ _); apply IH.
    + apply IH.
Qed.

Lemma has_image_b_spec entries s : has_image_b entries s = true <-> has_image entries s.
Proof.
  unfold has_image_b, has_image. rewrite existsb_exists. split.
  - intros (e & Hin & H). apply andb_true_iff in H. destruct H as [H1 H2].
    apply String.eqb_eq in H2. eauto.
  - intros (e & Hin & H1 & H2). exists e. split; [exact Hin|].
    rewrite H1, H2, String.eqb_refl. reflexivity.
Qed.

Lemma map_fst_filter {X Y : Type} (g : X -> bool) (l : list (X * Y)) :
  map fst (filter (fun kp => g (fst kp)) l) = filter g (map fst l).
Proof.
  induction l as [|[a b] l IH]; cbn; [reflexivity|].
  destruct (g a); cbn; rewrite IH; reflexivity.
Qed.

(** The pairs follow the listing: the PDF stems in the order the folder
    lists them first, those without an image left out. *)
Lemma pairs_order entries :
  map (fun pr => stem (fst pr)) (fst (get_file_pairs (Some entries)))
  = filter (has_image_b entries) (first_occurrences [] (pdf_stems entries)).
Proof.
  rewrite get_file_pairs_fst.
  destruct (scan_spec entries [] []) as (K1 & K2 & N1 & N2 & V1 & V2).
  pose proof (scan_keys_order entries [] []) as KO. cbn [map app] in KO.
  set (P := fst (scan entries [] [])) in *. set (I := snd (scan entries [] [])) in *.
  destruct (matching_spec P I) as (_ & _ & M3).
  specialize (N1 (NoDup_nil _)).
  set (g := fun k : string => match dict_get I k with Some _ => true | None => false end).
  assert (VP : forall k p, In (k, p) P -> stem p = k).
  { intros k p H. apply (In_dict_get P k p N1) in H. apply V1 in H.
    destruct H as [H|[H _]]; [discriminate | exact H]. }
  rewrite <- (map_map fst stem), M3.
  assert (E : map stem (map snd (filter (fun kp => g (fst kp)) P))
              = map fst (filter (fun kp => g (fst kp)) P)).
  { rewrite map_map. apply map_ext_in. intros [k p] H.
    apply filter_In in H. destruct H as [H _]. apply VP in H. exact H. }
  change (map stem (map snd (filter (fun kp => g (fst kp)) P))
          = filter (has_image_b entries) (first_occurrences [] (pdf_stems entries))).
  rewrite E, map_fst_filter, KO.
  apply filter_ext. intros k. unfold g.
  destruct (has_image_b entries k) eqn:Hb.
  - apply has_image_b_spec in Hb.
    assert (Hk : In k (map fst I)) by (apply K2; auto).
    apply dict_get_key in Hk. destruct Hk as [v ->]. reflexivity.
  - destruct (dict_get I k) as [v|] eqn:G; [|reflexivity].
    apply V2 in G. destruct G as [G|[_ G]]; [discriminate|].
    apply has_image_b_spec in G. congruence.
Qed.

Section Run.
Variable fitz_open : path -> option Fitz.document.
Variable image_open : path -> option image.
Variable page_width page_height : num.

Local Abbreviation merge_body := (merge_body image_open page_width page_height).
Local Abbreviation merge_pdf_and_image :=
  (merge_pdf_and_image fitz_open image_open page_width page_height).
Local Abbreviation process_pairs :=
  (process_pairs fitz_open image_open page_width page_height).
Local Abbreviation process_all :=
  (process_all fitz_open image_open page_width page_height).
Local Abbreviation merged_file :=
  (merged_file fitz_open image_open page_width page_height).
Local Abbreviation merge_messages :=
  (merge_messages fitz_open image_open page_width page_height).

(** A merge that succeeds saves one page. *)
Lemma merge_body_page pdf_img image_path c :
  merge_body pdf_img image_path = Ok c -> exists page, save c = [page].
Proof.
  unfold PDFInvoiceMerger.merge_body.
  destruct pdf_img as [pi|].
  - destruct (resize_image_to_fit pi _ _) as [r|e]; cbn [bind]; [|discriminate].
    destruct (image_open image_path) as [vi|]; cbn [bind]; [|discriminate].
    destruct (resize_image_to_fit vi _ _) as [r'|e']; cbn [bind]; [|discriminate].
    intros [= <-]. eexists. reflexivity.
  - cbn [bind].
    destruct (image_open image_path) as [vi|]; cbn [bind]; [|discriminate].
    destruct (resize_image_to_fit vi _ _) as [r'|e']; cbn [bind]; [|discriminate].
    intros [= <-]. eexists. reflexivity.
Qed.

Lemma merge_cases pdf_path image_path out :
  (exists page msgs,
     merge_pdf_and_image pdf_path image_path out
     = (true, Some [page], msgs ++ [MergeDone out]) /\
     (forall m, In m msgs -> m = PdfConversionFailed pdf_path)) \/
  (exists msgs,
     merge_pdf_and_image pdf_path image_path out
     = (false, None, msgs ++ [MergeFailed pdf_path image_path]) /\
     (forall m, In m msgs -> m = PdfConversionFailed pdf_path)).
Proof.
  unfold PDFInvoiceMerger.merge_pdf_and_image.
  set (msgs := match pdf_to_image fitz_open pdf_path with
               | Some _ => [] | None => [PdfConversionFailed pdf_path] end).
  assert (Hm : forall m, In m msgs -> m = PdfConversionFailed pdf_path).
  { unfold msgs. destruct (pdf_to_image fitz_open pdf_path); cbn; intuition. }
  destruct (merge_body (pdf_to_image fitz_open pdf_path) image_path) as [c|e] eqn:E.
  - destruct (merge_body_page _ _ _ E) as [page Hp]. rewrite Hp.
    left. exists page, msgs. auto.
  - right. exists msgs. auto.
Qed.

Lemma process_pairs_spec pairs : forall n acc,
  written (snd (process_pairs pairs n acc)) = written acc ++ flat_map merged_file pairs /\
  log (snd (process_pairs pairs n acc)) = log acc ++ flat_map merge_messages pairs.
Proof.
  induction pairs as [|[pdf img] pairs IH]; intros n acc.
  - cbn. rewrite !app_nil_r. auto.
  - cbn [PDFInvoiceMerger.process_pairs flat_map].
    unfold PairedRun.merged_file at 1, PairedRun.merge_messages at 1, output_name.
    cbn [fst snd].
    destruct (merge_pdf_and_image pdf img (stem pdf ++ "_merged.pdf")) as [[ok saved] msgs].
    destruct (IH (if ok then (n + 1)%Z else n)
                 {| written := match saved with
                               | Some doc => written acc ++ [(stem pdf ++ "_merged.pdf", doc)]%string
                               | None => written acc end;
                    log := log acc ++ msgs |}) as [W L].
    rewrite W, L. cbn [written log snd].
    destruct saved; rewrite <- ?app_assoc; auto.
Qed.

Lemma process_all_spec entries :
  let pairs := fst (get_file_pairs (Some entries)) in
  written (process_all (Some entries)) = flat_map merged_file pairs /\
  (forall m, In m (log (process_all (Some entries))) ->
     In m (snd (get_file_pairs (Some entries))) \/
     In m (flat_map merge_messages pairs) \/
     (forall s, ~ mentions m s)).
Proof.
  cbv zeta. unfold PDFInvoiceMerger.process_all.
  destruct (get_file_pairs (Some entries)) as [pairs msgs]. cbn [fst snd].
  destruct pairs as [|pr prs].
  - cbn. split; [reflexivity|]. intros m H. apply in_app_or in H.
    destruct H as [H|[<-|[]]]; auto.
  - set (pairs := pr :: prs).
    destruct (process_pairs_spec pairs 0
                {| written := []; log := msgs ++ [Processing (len pairs)] |}) as [W L].
    destruct (process_pairs pairs 0 _) as [n out]. cbn [snd written log] in *.
    split; [rewrite W; reflexivity|].
    intros m H. rewrite L in H.
    apply in_app_or in H. destruct H as [H|[<-|[]]]; [|auto].
    apply in_app_or in H. destruct H as [H|H]; [|auto].
    apply in_app_or in H. destruct H as [H|[<-|[]]]; auto.
Qed.

End Run.
End PairedFacts.

(* ================================================================= *)
(** ** Sorting by a string key, and page indexing *)

Module SortFacts.
Import Py Order.

Section Sorting.
Context {A : Type} (key : A -> string).

Lemma insert_by_perm x l : Permutation (insert_by key x l) (x :: l).
Proof.
  induction l as [|y l IH]; cbn.
  - apply Permutation_refl.
  - destruct (String.leb (key x) (key y)).
    + apply Permutation_refl.
    + apply perm_trans with (y :: x :: l); [apply perm_skip, IH | apply perm_swap].
Qed.

Lemma sort_by_perm l : Permutation (sort_by key l) l.
Proof.
  induction l as [|x l IH]; cbn.
  - apply perm_nil.
  - apply perm_trans with (x :: sort_by key l);
      [apply insert_by_perm | apply perm_skip, IH].
Qed.

Lemma insert_by_hd x y l :
  key_le key y x -> HdRel (key_le key) y l -> HdRel (key_le key) y (insert_by key x l).
Proof.
  intros Hyx Hl. destruct l as [|z l]; cbn.
  - constructor. exact Hyx.
  - destruct (String.leb (key x) (key z)); constructor;
      [exact Hyx | inversion Hl; assumption].
Qed.

Lemma insert_by_sorted x l :
  Sorted (key_le key) l -> Sorted (key_le key) (insert_by key x l).
Proof.
  induction l as [|y l IH]; cbn; intros Hs.
  - repeat constructor.
  - destruct (String.leb (key x) (key y)) eqn:E.
    + constructor; [exact Hs | constructor; exact E].
    + inversion Hs as [|? ? Hs' Hd]; subst.
      constructor; [apply IH, Hs'|].
      apply insert_by_hd; [|exact Hd].
      unfold key_le. destruct (String.leb_total (key x) (key y)) as [H|H];
        [congruence | exact H].
Qed.

Lemma sort_by_sorted l : Sorted (key_le key) (sort_by key l).
Proof.
  induction l as [|x l IH]; cbn; [constructor | apply insert_by_sorted, IH].
Qed.

End Sorting.
End SortFacts.

Module RasterFacts.
Import Py Path PIL DualLayoutMerger.

Lemma fitz_getitem_nat (doc : Fitz.document) (i : nat) :
  Fitz.getitem doc (Z.of_nat i) = nth_error doc i.
Proof.
  unfold Fitz.getitem.
  assert (Hlt : (Z.of_nat i <? 0)%Z = false) by (apply Z.ltb_ge; lia).
  rewrite Hlt, Nat2Z.id. reflexivity.
Qed.

End RasterFacts.

(* ================================================================= *)
(** ** pdf_to_image_merger.py: the grid *)

Module GridFacts.
Import Binary64 Py Path PIL PDFToImageMerger GridSpec PyFacts FitFacts.

Lemma Qdiv_self_ceiling n : (0 < n)%Z -> Qceiling (inject_Z n / inject_Z n) = 1%Z.
Proof.
  intros H. assert (E : inject_Z n / inject_Z n == inject_Z 1).
  { pose proof (inject_Z_pos n H). change (inject_Z 1) with 1%Q. field. lra. }
  rewrite E. apply Qceiling_Z.
Qed.

Lemma calculate_grid_layout_spec total max_cols :
  (0 < total < 2 ^ 53)%Z -> (0 < max_cols)%Z ->
  calculate_grid_layout total max_cols
  = Ok (Qceiling (inject_Z total / inject_Z (Z.min max_cols total)),
        Z.min max_cols total).
Proof.
  intros Ht Hm. unfold calculate_grid_layout.
  destruct (Z.leb_spec total max_cols) as [H|H].
  - rewrite Z.min_r by lia. rewrite Qdiv_self_ceiling by lia. reflexivity.
  - rewrite Z.min_l by lia. rewrite truediv_Int by lia. cbn [bind].
    rewrite ceil_truediv_exact by lia. reflexivity.
Qed.

(** The grid has room for every item. *)
Lemma rows_cover total cols :
  (0 < total)%Z -> (0 < cols)%Z ->
  (total <= Qceiling (inject_Z total / inject_Z cols) * cols)%Z.
Proof.
  intros Ht Hc.
  pose proof (Qle_ceiling (inject_Z total / inject_Z cols)) as H.
  pose proof (inject_Z_pos cols Hc) as HC.
  set (r := Qceiling (inject_Z total / inject_Z cols)) in *.
  assert (H' : inject_Z total <= inject_Z r * inject_Z cols).
  { apply (Qmult_le_compat_r _ _ (inject_Z cols)) in H; [|lra].
    assert (E : inject_Z total / inject_Z cols * inject_Z cols == inject_Z total)
      by (field; lra).
    rewrite E in H. exact H. }
  rewrite <- inject_Z_mult, <- Zle_Qle in H'. exact H'.
Qed.

Lemma range_len {A : Type} (l : list A) :
  range (len l) = map Z.of_nat (seq 0 (List.length l)).
Proof. unfold range, len. rewrite Nat2Z.id. reflexivity. Qed.

(** One placement, for an item the grid can take. *)
Lemma place_ok cell_width cell_height cols item placed :
  cols <> 0%Z -> (0 <= cell_width)%Z -> (0 <= cell_height)%Z ->
  placeable cell_width cell_height (fst (snd item)) ->
  place cell_width cell_height cols item placed
  = Ok (placed ++ [cell_of cell_width cell_height cols item]).
Proof.
  intros Hc Hcw Hch (Hw & Hh & Hf). unfold place, floordiv, modulo.
  destruct (Z.eqb_spec cols 0) as [|_]; [contradiction|]. cbn [bind].
  destruct (fit_returns (fst (snd item)) (picture_width cell_width)
              (picture_height cell_height) ltac:(lia) ltac:(lia) Hf) as (_ & _ & G).
  unfold picture_width, picture_height in G. rewrite G. cbn [bind].
  destruct Hf as [F1 F2]. unfold add_image_label. cbn [width height].
  rewrite new_ok by (unfold picture_width, picture_height in *; lia). cbn [bind].
  rewrite new_ok by assumption. cbn [bind]. reflexivity.
Qed.

(** One placement, for an image that loses a side in the picture area. *)
Lemma place_raises cell_width cell_height cols item placed :
  cols <> 0%Z ->
  (0 < width (fst (snd item)))%Z -> (0 < height (fst (snd item)))%Z ->
  ~ Spec.fits (fst (snd item)) (picture_width cell_width) (picture_height cell_height) ->
  place cell_width cell_height cols item placed = Raise ValueError.
Proof.
  intros Hc Hw Hh Hn. unfold place, floordiv, modulo.
  destruct (Z.eqb_spec cols 0) as [|_]; [contradiction|]. cbn [bind].
  destruct (fit_raises (fst (snd item)) (picture_width cell_width)
              (picture_height cell_height) Hw Hh Hn) as (_ & _ & G).
  unfold picture_width, picture_height in G. rewrite G. reflexivity.
Qed.

Lemma place_loop cell_width cell_height cols (items : list (Z * (image * label))) :
  cols <> 0%Z -> (0 <= cell_width)%Z -> (0 <= cell_height)%Z ->
  Forall (fun it => placeable cell_width cell_height (fst (snd it))) items ->
  forall placed,
    for_each items (place cell_width cell_height cols) placed
    = Ok (placed ++ map (cell_of cell_width cell_height cols) items).
Proof.
  intros Hc Hcw Hch Hall. induction Hall as [|it items Hp _ IH]; intros placed.
  - cbn. rewrite app_nil_r. reflexivity.
  - cbn [for_each map]. rewrite place_ok by assumption. cbn [bind].
    rewrite IH, <- app_assoc. reflexivity.
Qed.

(** The loop stops at the first image that loses a side. *)
Lemma place_loop_raises cell_width cell_height cols (items : list (Z * (image * label))) :
  cols <> 0%Z -> (0 <= cell_width)%Z -> (0 <= cell_height)%Z ->
  Forall (fun it => (0 < width (fst (snd it)))%Z /\ (0 < height (fst (snd it)))%Z) items ->
  Exists (fun it => ~ placeable cell_width cell_height (fst (snd it))) items ->
  forall placed,
    for_each items (place cell_width cell_height cols) placed = Raise ValueError.
Proof.
  intros Hc Hcw Hch Hall. induction Hall as [|it items [Hw Hh] _ IH]; intros Hex placed.
  - inversion Hex.
  - cbn [for_each].
    destruct (fits_dec (fst (snd it)) (picture_width cell_width)
                (picture_height cell_height)) as [Hf|Hn].
    + rewrite place_ok; [|assumption..|unfold placeable; auto]. cbn [bind].
      apply IH. inversion Hex as [? ? Hbad|]; subst; [|assumption].
      exfalso. apply Hbad. unfold placeable. auto.
    + rewrite place_raises by assumption. reflexivity.
Qed.

Lemma Forall_enumerate {A : Type} (P : A -> Prop) (l : list A) :
  Forall P l -> Forall (fun it => P (snd it)) (enumerate l).
Proof.
  intros H. unfold enumerate. generalize (range (len l)).
  induction H as [|a l Ha _ IH]; intros [|i ks]; cbn; constructor; auto.
Qed.

Lemma Forall_combine_fst {X Y : Type} (P : X -> Prop) (l : list X) (l' : list Y) :
  Forall P l -> Forall (fun p => P (fst p)) (combine l l').
Proof.
  intros H. revert l'.
  induction H as [|a l Ha _ IH]; intros [|b bs]; cbn; constructor; auto.
Qed.

Lemma Exists_combine_fst {X Y : Type} (P : X -> Prop) (l : list X) (l' : list Y) :
  List.length l' = List.length l ->
  Exists P l -> Exists (fun p => P (fst p)) (combine l l').
Proof.
  intros Hlen H. revert l' Hlen.
  induction H as [a l Ha|a l _ IH]; intros [|b bs] Hlen; cbn in *; try discriminate.
  - left. exact Ha.
  - right. apply IH. lia.
Qed.

Lemma Exists_enumerate {A : Type} (P : A -> Prop) (l : list A) :
  Exists P l -> Exists (fun it => P (snd it)) (enumerate l).
Proof.
  intros H. unfold enumerate. rewrite range_len.
  generalize 0%nat.
  induction H as [a l Ha|a l _ IH]; intros start; cbn.
  - left. exact Ha.
  - right. apply IH.
Qed.

(** The canvas has a non-negative size for cells of non-negative size. *)
Lemma canvas_size total cols cell_width cell_height :
  (0 < total)%Z -> (0 < cols)%Z -> (0 <= cell_width)%Z -> (0 <= cell_height)%Z ->
  (0 <= cols * (cell_width + margin) + margin /\
   0 <= Qceiling (inject_Z total / inject_Z cols) * (cell_height + margin) + margin)%Z.
Proof.
  intros Ht Hc Hcw Hch. pose proof (rows_cover total cols Ht Hc) as Hr.
  unfold margin. split; nia.
Qed.

(** The layout and the canvas, for cells of non-negative size. *)
Lemma blank_canvas_spec total cell_width cell_height max_cols :
  (0 < total < 2 ^ 53)%Z -> (0 < max_cols)%Z ->
  (0 <= cell_width)%Z -> (0 <= cell_height)%Z ->
  let cols := Z.min max_cols total in
  let rows := Qceiling (inject_Z total / inject_Z cols) in
  blank_canvas total cell_width cell_height max_cols
  = Ok (cols, {| width := cols * (cell_width + margin) + margin;
                 height := rows * (cell_height + margin) + margin |})%Z.
Proof.
  intros Ht Hm Hcw Hch cols rows. unfold blank_canvas.
  rewrite calculate_grid_layout_spec by lia. cbn [bind fst snd].
  fold cols. fold rows.
  assert (Hc : (0 < cols)%Z) by (unfold cols; lia).
  destruct (canvas_size total cols cell_width cell_height ltac:(lia) Hc Hcw Hch)
    as [Cw Ch]. fold rows in Ch.
  rewrite new_ok by assumption. reflexivity.
Qed.



(** The composite of a non-empty sequence of images the grid can take. *)
Lemma merge_images_to_grid_spec all_images image_labels cell_width cell_height max_cols :
  all_images <> [] -> (len all_images < 2 ^ 53)%Z -> (0 < max_cols)%Z ->
  (0 <= cell_width)%Z -> (0 <= cell_height)%Z ->
  Forall (placeable cell_width cell_height) all_images ->
  let cols := Z.min max_cols (len all_images) in
  let rows := Qceiling (inject_Z (len all_images) / inject_Z cols) in
  merge_images_to_grid all_images image_labels cell_width cell_height max_cols
  = Ok (Some {| canvas_width := cols * (cell_width + margin) + margin;
                canvas_height := rows * (cell_height + margin) + margin;
                cells := map (cell_of cell_width cell_height cols)
                             (enumerate (combine all_images image_labels)) |})%Z.
Proof.
  intros Hne Hn Hm Hcw Hch Hall cols rows. unfold merge_images_to_grid.
  destruct all_images as [|i0 rest]; [congruence|].
  set (all_images := i0 :: rest) in *.
  assert (Hpos : (0 < len all_images)%Z) by (unfold len, all_images; cbn; lia).
  rewrite blank_canvas_spec by lia. cbn [bind fst snd width height].
  fold cols. fold rows.
  assert (Hc : (0 < cols)%Z) by (unfold cols; lia).
  rewrite place_loop.
  - reflexivity.
  - lia.
  - exact Hcw.
  - exact Hch.
  - apply (Forall_enumerate (fun p => placeable cell_width cell_height (fst p))).
    apply Forall_combine_fst. exact Hall.
Qed.

(** The run stops, with nothing returned, when an image loses a side. *)
Lemma merge_images_to_grid_raises all_images image_labels cell_width cell_height max_cols :
  List.length image_labels = List.length all_images ->
  (len all_images < 2 ^ 53)%Z -> (0 < max_cols)%Z ->
  (0 <= cell_width)%Z -> (0 <= cell_height)%Z ->
  Forall (fun img => (0 < width img)%Z /\ (0 < height img)%Z) all_images ->
  Exists (fun img => ~ placeable cell_width cell_height img) all_images ->
  merge_images_to_grid all_images image_labels cell_width cell_height max_cols
  = Raise ValueError.
Proof.
  intros Hlen Hn Hm Hcw Hch Hall Hex. unfold merge_images_to_grid.
  destruct all_images as [|i0 rest]; [inversion Hex|].
  set (all_images := i0 :: rest) in *.
  assert (Hpos : (0 < len all_images)%Z) by (unfold len, all_images; cbn; lia).
  rewrite blank_canvas_spec by lia. cbn [bind fst snd].
  set (cols := Z.min max_cols (len all_images)).
  assert (Hc : (0 < cols)%Z) by (unfold cols; lia).
  rewrite place_loop_raises; [reflexivity | lia | exact Hcw | exact Hch | |].
  - apply (Forall_enumerate
             (fun p => (0 < width (fst p))%Z /\ (0 < height (fst p))%Z)).
    apply (Forall_combine_fst (fun img => (0 < width img)%Z /\ (0 < height img)%Z)).
    exact Hall.
  - apply (Exists_enumerate (fun p => ~ placeable cell_width cell_height (fst p))).
    apply (Exists_combine_fst (fun img => ~ placeable cell_width cell_height img)).
    + exact Hlen.
    + exact Hex.
Qed.

Lemma nth_error_enumerate {A : Type} (l : list A) (i : nat) (it : Z * A) :
  nth_error (enumerate l) i = Some it ->
  fst it = Z.of_nat i /\ nth_error l i = Some (snd it).
Proof.
  unfold enumerate. rewrite range_len.
  assert (G : forall start (l : list A) i it,
             nth_error (combine (map Z.of_nat (seq start (List.length l))) l) i = Some it ->
             fst it = Z.of_nat (start + i) /\ nth_error l i = Some (snd it)).
  { clear. intros start l. revert start.
    induction l as [|a l IH]; intros start [|i] it; cbn; try discriminate.
    - intros [= <-]. cbn. split; [f_equal; lia | reflexivity].
    - intros H. apply IH in H. destruct H as [H1 H2]. split; [rewrite H1; f_equal; lia | exact H2]. }
  intros H. apply G in H. exact H.
Qed.

Lemma enumerate_length {A : Type} (l : list A) :
  List.length (enumerate l) = List.length l.
Proof.
  unfold enumerate. rewrite range_len, length_combine, length_map, length_seq.
  apply Nat.min_id.
Qed.

(** The fitted picture of an image with positive sides, in a cell wider
    than the border and taller than border and caption band. *)
Lemma fitted_bounds cell_width cell_height image :
  (0 < width image)%Z -> (0 < height image)%Z ->
  (4 < cell_width <= 2 ^ 51)%Z -> (54 < cell_height <= 2 ^ 51)%Z ->
  (0 <= width (fitted cell_width cell_height image) <= cell_width - 4)%Z /\
  (0 <= height (fitted cell_width cell_height image) <= cell_height - 54)%Z.
Proof.
  intros Hw Hh Hcw Hch. unfold fitted, picture_width, picture_height. cbn [width height].
  destruct (scaled_in_safe_cell (width image) (height image)
              (Int (cell_width - border_width * 2))
              (Int (cell_height - border_width * 2 - 50)))
    as (W0 & H0 & W1 & H1); try assumption.
  - apply inject_Z_pos. unfold border_width. lia.
  - apply inject_Z_pos. unfold border_width. lia.
  - apply rounding_safe_Int. unfold border_width. lia.
  - apply rounding_safe_Int. unfold border_width. lia.
  - cbn [value] in W1, H1. rewrite <- Zle_Qle in W1, H1.
    unfold border_width in *. lia.
Qed.

(** Position and extent of the cell at index [i]. *)
Lemma cell_geometry cell_width cell_height max_cols total (i : Z) image label :
  (0 < total)%Z -> (0 < max_cols)%Z -> (0 <= i < total)%Z ->
  (0 < width image)%Z -> (0 < height image)%Z ->
  (4 < cell_width <= 2 ^ 51)%Z -> (54 < cell_height <= 2 ^ 51)%Z ->
  let cols := Z.min max_cols total in
  let rows := Qceiling (inject_Z total / inject_Z cols) in
  let c := cell_of cell_width cell_height cols (i, (image, label)) in
  (width (labeled_image c) <= cell_width /\ height (labeled_image c) <= cell_height /\
   0 <= paste_x c /\ paste_x c + width (labeled_image c) <= cell_width /\
   0 <= paste_y c /\ paste_y c + height (labeled_image c) <= cell_height /\
   0 <= x c /\ x c + cell_width <= cols * (cell_width + margin) + margin /\
   0 <= y c /\ y c + cell_height <= rows * (cell_height + margin) + margin)%Z.
Proof.
  intros Ht Hm Hi Hw Hh Hcw Hch cols rows c.
  assert (Hc : (0 < cols)%Z) by (unfold cols; lia).
  pose proof (rows_cover total cols Ht Hc) as Hcover. fold rows in Hcover.
  destruct (fitted_bounds cell_width cell_height image Hw Hh Hcw Hch) as [[W0 W1] [H0 H1]].
  unfold c, cell_of, labelled, margin.
  cbn [x y paste_x paste_y labeled_image width height fst snd caption].
  set (fw := width (fitted cell_width cell_height image)) in *.
  set (fh := height (fitted cell_width cell_height image)) in *.
  pose proof (Z.mod_pos_bound i cols Hc) as Hcol.
  assert (Hrow : (0 <= i / cols < rows)%Z).
  { split; [apply Z.div_pos; lia|]. apply Z.div_lt_upper_bound; [exact Hc|]. lia. }
  pose proof (Z.div_mod (cell_width - fw) 2 ltac:(lia)) as Dx.
  pose proof (Z.mod_pos_bound (cell_width - fw) 2 ltac:(lia)) as Mx.
  pose proof (Z.div_mod (cell_height - (fh + (24 + 20))) 2 ltac:(lia)) as Dy.
  pose proof (Z.mod_pos_bound (cell_height - (fh + (24 + 20))) 2 ltac:(lia)) as My.
  repeat split; try lia; try nia.
Qed.

(** Cells at different indices do not overlap. *)
Lemma cells_disjoint cell_width cell_height cols (i j : Z) it1 it2 :
  (0 < cols)%Z -> (0 <= i)%Z -> (0 <= j)%Z -> i <> j ->
  (0 <= cell_width)%Z -> (0 <= cell_height)%Z ->
  disjoint cell_width cell_height
    (cell_of cell_width cell_height cols (i, it1))
    (cell_of cell_width cell_height cols (j, it2)).
Proof.
  intros Hc Hi Hj Hij Hcw Hch. unfold disjoint, cell_of, margin.
  cbn [x y fst snd].
  pose proof (Z.div_mod i cols ltac:(lia)) as Di.
  pose proof (Z.div_mod j cols ltac:(lia)) as Dj.
  pose proof (Z.mod_pos_bound i cols Hc) as Mi.
  pose proof (Z.mod_pos_bound j cols Hc) as Mj.
  destruct (Z.eq_dec (i mod cols) (j mod cols)) as [E|N].
  - assert (Hr : (i / cols <> j / cols)%Z) by (intros E'; rewrite E, E' in Di; lia).
    destruct (Z.lt_total (i / cols) (j / cols)) as [H|[H|H]]; [|contradiction|].
    + right. right. left. nia.
    + right. right. right. nia.
  - destruct (Z.lt_total (i mod cols) (j mod cols)) as [H|[H|H]]; [|contradiction|].
    + left. nia.
    + right. left. nia.
Qed.

Section Run.
Variable fitz_open : path -> option Fitz.document.

Local Abbreviation convert_pdf_to_images := (convert_pdf_to_images fitz_open).
Local Abbreviation pages_of := (pages_of fitz_open).




Lemma combine_fst_snd {X Y : Type} (l : list (X * Y)) :
  combine (map fst l) (map snd l) = l.
Proof. induction l as [|[a b] l IH]; cbn; [reflexivity | rewrite IH; reflexivity]. Qed.

Lemma process_pdfs_eq pdf_files max_cols cell_width cell_height :
  let items := flat_map pages_of (sort_by name pdf_files) in
  process_pdfs_to_merged_image fitz_open (Some pdf_files) max_cols cell_width cell_height
  = merge_images_to_grid (map fst items) (map snd items)
                         cell_width cell_height max_cols.
Proof.
  cbv zeta. unfold process_pdfs_to_merged_image.
  destruct pdf_files as [|f fs]; [reflexivity|].
  destruct (map fst (flat_map pages_of (sort_by name (f :: fs)))); reflexivity.
Qed.

End Run.
End GridFacts.

(* ================================================================= *)
(** ** The fit computation: direction of the scaling *)

Module ScaleFacts.
Import Binary64 Binary64Facts Py PIL PyFacts FitFacts Spec.
Local Open Scope Q_scope.

(** A cell side at least as long as the native side gives a ratio of at
    least one. *)
Lemma quotient_ge_one (c : num) (w : Z) :
  (0 < w < 2 ^ 53)%Z -> inject_Z w <= value c ->
  exists r, quotient c (Int w) = Float r /\ 1 <= r.
Proof.
  intros Hw Hle.
  pose proof (inject_Z_pos w ltac:(lia)) as HW.
  assert (E1 : rnd 1 == 1) by (apply (rnd_inject_Z 1); lia).
  destruct c as [z|q]; cbn [quotient to_float value] in *.
  - eexists; split; [reflexivity|]. rewrite <- E1.
    apply rnd_le_nonneg; [lra|]. apply Qle_shift_div_l; lra.
  - eexists; split; [reflexivity|]. rewrite <- E1.
    apply rnd_le_nonneg; [lra|].
    rewrite (rnd_inject_Z w) by lia. apply Qle_shift_div_l; lra.
Qed.

(** A cell side no longer than the native side gives a ratio of at most
    one. *)
Lemma quotient_le_one (c : num) (w : Z) :
  (0 < w < 2 ^ 53)%Z -> 0 < value c -> value c <= inject_Z w ->
  exists r, quotient c (Int w) = Float r /\ r <= 1.
Proof.
  intros Hw Hc Hle.
  pose proof (inject_Z_pos w ltac:(lia)) as HW.
  assert (E1 : rnd 1 == 1) by (apply (rnd_inject_Z 1); lia).
  destruct c as [z|q]; cbn [quotient to_float value] in *.
  - eexists; split; [reflexivity|]. rewrite <- E1.
    apply rnd_le_nonneg.
    + apply Qlt_le_weak, Qlt_shift_div_l; lra.
    + apply Qle_shift_div_r; lra.
  - eexists; split; [reflexivity|]. rewrite <- E1.
    rewrite (rnd_inject_Z w) by lia.
    apply rnd_le_nonneg.
    + apply Qlt_le_weak, Qlt_shift_div_l; lra.
    + apply Qle_shift_div_r; lra.
Qed.

(** The truncated product against the native side, by the side of one the
    scale lies on. *)
Lemma scaled_ge_native (w : Z) (s : Q) :
  (0 < w < 2 ^ 53)%Z -> 1 <= s -> (w <= Qfloor (rnd (to_float (Int w) * s)))%Z.
Proof.
  intros Hw Hs.
  pose proof (inject_Z_pos w ltac:(lia)) as HW.
  rewrite (to_float_Int_exact w) by lia.
  assert (E : rnd (inject_Z w) == inject_Z w) by (apply rnd_inject_Z; lia).
  assert (L : inject_Z w <= rnd (inject_Z w * s)).
  { rewrite <- E at 1. apply rnd_le_nonneg; [lra|].
    assert (X : inject_Z w * 1 <= inject_Z w * s) by (apply Qmult_le_l; assumption).
    lra. }
  replace w with (Qfloor (inject_Z w)) at 1 by apply Qfloor_Z.
  apply Qfloor_resp_le, L.
Qed.

Lemma scaled_le_native (w : Z) (s : Q) :
  (0 < w < 2 ^ 53)%Z -> 0 < s -> s <= 1 -> (Qfloor (rnd (to_float (Int w) * s)) <= w)%Z.
Proof.
  intros Hw Hs0 Hs.
  pose proof (inject_Z_pos w ltac:(lia)) as HW.
  rewrite (to_float_Int_exact w) by lia.
  assert (E : rnd (inject_Z w) == inject_Z w) by (apply rnd_inject_Z; lia).
  assert (L : rnd (inject_Z w * s) <= inject_Z w).
  { rewrite <- E at 2. apply rnd_le_nonneg.
    - apply Qlt_le_weak, Qmult_lt_0_compat; assumption.
    - assert (X : inject_Z w * s <= inject_Z w * 1) by (apply Qmult_le_l; assumption).
      lra. }
  replace w with (Qfloor (inject_Z w)) at 2 by apply Qfloor_Z.
  apply Qfloor_resp_le, L.
Qed.

End ScaleFacts.

(* ================================================================= *)
(** ** Centring and cross products *)

Module LayoutFacts.
Import Binary64 Binary64Facts Py PIL PyFacts FitFacts Spec.
Local Open Scope Q_scope.

(** An integer below a bound is below the bound's floor. *)
Lemma inject_Z_le_floor (z : Z) (q : Q) : inject_Z z <= q -> (z <= Qfloor q)%Z.
Proof.
  intros H. replace z with (Qfloor (inject_Z z)) by apply Qfloor_Z.
  apply Qfloor_resp_le, H.
Qed.


(** The cross products of the scaled and the native sides. *)
Lemma cross_product_close (W H pw ph t : Q) (w' h' : Z) :
  0 < W -> 0 < H -> 0 <= t -> t <= 281474976710656 ->
  pw * H <= t * ((1 + u) * (1 + u) * (1 + u)) ->
  t * ((1 - u) * (1 - u) * (1 - u)) <= ph * W ->
  w' = Qfloor pw -> h' = Qfloor ph ->
  inject_Z w' * H - inject_Z h' * W < W + 1.
Proof.
  intros HW HH Ht0 Ht Up Lo -> ->.
  pose proof (Qfloor_le pw) as A. pose proof (Qlt_floor ph) as B.
  rewrite inject_Z_plus in B. change (inject_Z 1) with 1 in B.
  assert (A' : inject_Z (Qfloor pw) * H <= pw * H) by (apply Qmult_le_compat_r; lra).
  assert (B' : (ph - 1) * W <= inject_Z (Qfloor ph) * W)
    by (apply Qmult_le_compat_r; lra).
  rewrite u_val in Up, Lo. lra.
Qed.

End LayoutFacts.

(* ================================================================= *)
(** ** Sorted lists with distinct keys *)

Module OrderFacts.
Import Py Order SortFacts.

Lemma ascii_compare_refl (a : ascii) : Ascii.compare a a = Eq.
Proof. unfold Ascii.compare. apply N.compare_refl. Qed.

Lemma ascii_compare_lt_trans (a b c : ascii) :
  Ascii.compare a b = Lt -> Ascii.compare b c = Lt -> Ascii.compare a c = Lt.
Proof.
  unfold Ascii.compare. rewrite !N.compare_lt_iff. apply N.lt_trans.
Qed.

(** The code-point order on strings is transitive. *)
Lemma leb_trans (s t r : string) :
  String.leb s t = true -> String.leb t r = true -> String.leb s r = true.
Proof.
  unfold String.leb. revert t r.
  induction s as [|x s IH]; intros [|y t] [|z r]; cbn; try congruence.
  destruct (Ascii.compare x y) eqn:Exy; destruct (Ascii.compare y z) eqn:Eyz;
    try congruence.
  - apply Ascii.compare_eq_iff in Exy, Eyz. subst.
    rewrite ascii_compare_refl. apply IH.
  - apply Ascii.compare_eq_iff in Exy. subst. rewrite Eyz. congruence.
  - apply Ascii.compare_eq_iff in Eyz. subst. rewrite Exy. congruence.
  - rewrite (ascii_compare_lt_trans _ _ _ Exy Eyz). congruence.
Qed.

Section Unique.
Context {A : Type} (key : A -> string).

Lemma key_le_trans : Relations_1.Transitive (key_le key).
Proof. intros a b c. unfold key_le. apply leb_trans. Qed.

Lemma sorted_head_least x l :
  Sorted (key_le key) (x :: l) -> forall y, In y l -> key_le key x y.
Proof.
  intros Hs y Hy. apply Sorted_StronglySorted in Hs; [|exact key_le_trans].
  inversion Hs as [|? ? _ Hall]; subst.
  rewrite Forall_forall in Hall. apply Hall, Hy.
Qed.

(** Two sorted arrangements of the same items, no two of which share a
    key, are the same list. *)
Lemma sorted_perm_unique (l l' : list A) :
  Sorted (key_le key) l -> Sorted (key_le key) l' -> Permutation l l' ->
  NoDup (map key l) -> l = l'.
Proof.
  revert l'. induction l as [|x l IH]; intros l' Hs Hs' Hp Hn.
  - apply Permutation_nil in Hp. congruence.
  - destruct l' as [|y l'].
    { apply Permutation_sym, Permutation_nil in Hp. discriminate. }
    assert (Exy : x = y).
    { assert (Hx : In x (y :: l')) by (eapply Permutation_in; [exact Hp | left; reflexivity]).
      assert (Hy : In y (x :: l))
        by (eapply Permutation_in; [apply Permutation_sym, Hp | left; reflexivity]).
      destruct Hx as [Hx|Hx]; [congruence|].
      destruct Hy as [Hy|Hy]; [congruence|].
      pose proof (sorted_head_least _ _ Hs' _ Hx) as L1.
      pose proof (sorted_head_least _ _ Hs _ Hy) as L2.
      pose proof (String.leb_antisym _ _ L2 L1) as Ek.
      inversion Hn as [|? ? Hnot _]; subst. exfalso. apply Hnot.
      rewrite Ek. apply in_map, Hy. }
    subst y. f_equal.
    apply IH.
    + inversion Hs; assumption.
    + inversion Hs'; assumption.
    + eapply Permutation_cons_inv, Hp.
    + inversion Hn; assumption.
Qed.

(** Sorting forgets the order the items came in, when no two share a key. *)
Lemma sort_by_perm_eq (l l' : list A) :
  Permutation l l' -> NoDup (map key l) -> sort_by key l = sort_by key l'.
Proof.
  intros Hp Hn. apply sorted_perm_unique.
  - apply sort_by_sorted.
  - apply sort_by_sorted.
  - eapply perm_trans; [apply sort_by_perm|].
    eapply perm_trans; [exact Hp|]. apply Permutation_sym, sort_by_perm.
  - eapply Permutation_NoDup; [|exact Hn].
    apply Permutation_map, Permutation_sym, sort_by_perm.
Qed.

End Unique.

(** Filtering commutes with reordering. *)
Lemma filter_perm {X : Type} (keep : X -> bool) :
  forall xs ys : list X,
    Permutation xs ys -> Permutation (filter keep xs) (filter keep ys).
Proof.
  intros xs ys Hp.
  induction Hp as [|x xs ys _ IH|x y xs|xs ys zs _ IH1 _ IH2]; cbn.
  - constructor.
  - destruct (keep x); [apply perm_skip|]; exact IH.
  - destruct (keep x), (keep y); try apply Permutation_refl. apply perm_swap.
  - eapply perm_trans; eassumption.
Qed.

End OrderFacts.

(* ================================================================= *)
(** ** dual_layout_merger.py: what the pages show *)

Module DualNames.
Import Binary64 Py Path PIL ReportLab PyFacts FitFacts DualLayoutMerger DualPages DualFacts Drawn.

Section Names.
Variable str_lower : string -> string.
Variable fitz_open : path -> option Fitz.document.
Variable image_open : path -> option (result image).
Variable page_width page_height : num.

Local Abbreviation source_image := (source_image str_lower fitz_open image_open).
Local Abbreviation slot_ops :=
  (slot_ops str_lower fitz_open image_open page_width page_height).
Local Abbreviation paginate :=
  (paginate str_lower fitz_open image_open page_width page_height).

Local Abbreviation has_image := (DualShown.has_image str_lower fitz_open image_open).

(** What one slot shows: the name of its file, if the file has an image. *)
Lemma slot_texts s f :
  texts (slot_ops s f) = (if has_image f then [name f] else []) /\
  List.length (images (slot_ops s f)) = (if has_image f then 1%nat else 0%nat).
Proof.
  unfold DualShown.has_image, DualPages.slot_ops.
  destruct (source_image f) as [img|]; split; reflexivity.
Qed.

Lemma texts_app p q : texts (p ++ q) = texts p ++ texts q.
Proof. unfold texts. apply flat_map_app. Qed.

Lemma images_app p q : images (p ++ q) = images p ++ images q.
Proof. unfold images. apply filter_app. Qed.

Lemma paginate_texts (l : list path) :
  flat_map texts (paginate l) = map name (filter has_image l) /\
  List.length (flat_map images (paginate l)) = List.length (filter has_image l).
Proof.
  induction l as [|x|x y l IH] using pair_induction.
  - split; reflexivity.
  - destruct (slot_texts Upper x) as (T & I).
    cbn [DualPages.paginate flat_map map filter].
    rewrite !app_nil_r, texts_app, images_app, length_app, T, I.
    destruct (has_image x); split; reflexivity.
  - destruct IH as [IHt IHi].
    destruct (slot_texts Upper x) as (Tx & Ix).
    destruct (slot_texts Lower y) as (Ty & Iy).
    cbn [DualPages.paginate flat_map map filter].
    rewrite !texts_app, !images_app, !length_app, Tx, Ty, Ix, Iy, IHt, IHi.
    destruct (has_image x), (has_image y); cbn; split; reflexivity || lia.
Qed.

End Names.
End DualNames.

(* ================================================================= *)
(** ** pdf_merger.py: which file of a stem is used, and the tally *)

Module PairedMore.
Import Py Path PIL ReportLab PDFInvoiceMerger PairedSpec PairedRun PairedLast.
Import DictFacts PairedFacts.

Lemma find_app {A : Type} (f : A -> bool) (l l' : list A) :
  find f (l ++ l') = match find f l with Some x => Some x | None => find f l' end.
Proof.
  induction l as [|x l IH]; cbn; [reflexivity|]. destruct (f x); [reflexivity | exact IH].
Qed.

Lemma last_listed_cons kind e es s :
  last_listed kind (e :: es) s
  = match last_listed kind es s with
    | Some p => Some p
    | None => if kind e && String.eqb (stem (entry_path e)) s
              then Some (entry_path e) else None
    end.
Proof.
  unfold last_listed. cbn [rev]. rewrite find_app.
  destruct (find _ (rev es)); cbn; [reflexivity|].
  destruct (kind e && String.eqb (stem (entry_path e)) s); reflexivity.
Qed.

Lemma last_listed_stem kind entries s p :
  last_listed kind entries s = Some p -> stem p = s.
Proof.
  unfold last_listed. destruct (find _ (rev entries)) as [e|] eqn:E; [|discriminate].
  intros [= <-]. apply find_some in E. destruct E as [_ E].
  apply andb_true_iff in E. destruct E as [_ E]. apply String.eqb_eq, E.
Qed.

(** After the scan each dict holds, for a stem, the last listed file of
    its kind. *)
Lemma scan_last entries : forall P0 I0 k,
  dict_get (fst (scan entries P0 I0)) k
  = match last_listed is_pdf entries k with
    | Some p => Some p
    | None => dict_get P0 k
    end /\
  dict_get (snd (scan entries P0 I0)) k
  = match last_listed is_image entries k with
    | Some p => Some p
    | None => dict_get I0 k
    end.
Proof.
  induction entries as [|e es IH]; intros P0 I0 k.
  - split; reflexivity.
  - rewrite !last_listed_cons. cbn [scan].
    assert (Hpdf : is_pdf e = is_file e && String.eqb (lower (suffix (entry_path e))) ".pdf")
      by reflexivity.
    assert (Himg : is_image e = is_file e &&
                     str_in (lower (suffix (entry_path e))) supported_image_formats)
      by reflexivity.
    destruct (is_file e).
    + destruct (String.eqb (lower (suffix (entry_path e))) ".pdf") eqn:Ep.
      * rewrite (pdf_not_image _ Ep) in Himg. cbn in Hpdf, Himg. rewrite Hpdf, Himg.
        destruct (IH (dict_set P0 (stem (entry_path e)) (entry_path e)) I0 k) as [A B].
        rewrite A, B. cbn [andb].
        split; [|destruct (last_listed is_image es k); reflexivity].
        destruct (last_listed is_pdf es k); [reflexivity|].
        destruct (String.eqb_spec (stem (entry_path e)) k) as [<-|N].
        -- apply dict_get_set_same.
        -- apply dict_get_set_other, N.
      * destruct (str_in (lower (suffix (entry_path e))) supported_image_formats).
        -- cbn in Hpdf, Himg. rewrite Hpdf, Himg.
           destruct (IH P0 (dict_set I0 (stem (entry_path e)) (entry_path e)) k) as [A B].
           rewrite A, B. cbn [andb].
           split; [destruct (last_listed is_pdf es k); reflexivity|].
           destruct (last_listed is_image es k); [reflexivity|].
           destruct (String.eqb_spec (stem (entry_path e)) k) as [<-|N].
           ++ apply dict_get_set_same.
           ++ apply dict_get_set_other, N.
        -- cbn in Hpdf, Himg. rewrite Hpdf, Himg. cbn [andb].
           destruct (IH P0 I0 k) as [A B]. rewrite A, B.
           split; [destruct (last_listed is_pdf es k) | destruct (last_listed is_image es k)];
             reflexivity.
    + cbn in Hpdf, Himg. rewrite Hpdf, Himg. cbn [andb].
      destruct (IH P0 I0 k) as [A B]. rewrite A, B.
      split; [destruct (last_listed is_pdf es k) | destruct (last_listed is_image es k)];
        reflexivity.
Qed.

Section Tally.
Variable fitz_open : path -> option Fitz.document.
Variable image_open : path -> option image.
Variable page_width page_height : num.

Local Abbreviation merge_pdf_and_image :=
  (merge_pdf_and_image fitz_open image_open page_width page_height).
Local Abbreviation process_pairs :=
  (process_pairs fitz_open image_open page_width page_height).
Local Abbreviation merged_file :=
  (merged_file fitz_open image_open page_width page_height).

(** The counter of the loop counts the files it writes. *)
Lemma process_pairs_count pairs : forall n acc,
  fst (process_pairs pairs n acc) = (n + len (flat_map merged_file pairs))%Z.
Proof.
  induction pairs as [|[pdf img] pairs IH]; intros n acc.
  - cbn. lia.
  - cbn [PDFInvoiceMerger.process_pairs flat_map].
    unfold PairedRun.merged_file at 1, output_name. cbn [fst snd].
    destruct (merge_cases fitz_open image_open page_width page_height
                pdf img (stem pdf ++ "_merged.pdf")) as [(page & msgs & E & _)|(msgs & E & _)];
      rewrite E, IH; unfold len; rewrite length_app; cbn [List.length]; lia.
Qed.

Lemma merged_file_length (pr : path * path) : (List.length (merged_file pr) <= 1)%nat.
Proof.
  unfold PairedRun.merged_file.
  destruct (merge_pdf_and_image _ _ _) as [[ok [doc|]] msgs]; cbn; lia.
Qed.

Lemma merged_files_length pairs :
  (List.length (flat_map merged_file pairs) <= List.length pairs)%nat.
Proof.
  induction pairs as [|pr pairs IH]; cbn; [lia|].
  rewrite length_app. pose proof (merged_file_length pr). lia.
Qed.

End Tally.
End PairedMore.

(* ================================================================= *)
(** ** pdf_to_image_merger.py: the items of the grid *)

Module GridMore.
Import Binary64 Py Path PIL PyFacts PDFToImageMerger GridSpec GridFacts.
Local Open Scope Z_scope.

(** The last row of the layout is not empty. *)
Lemma rows_tight total cols :
  0 < total -> 0 < cols ->
  (Qceiling (inject_Z total / inject_Z cols) - 1) * cols < total.
Proof.
  intros Ht Hc.
  pose proof (Qceiling_lt (inject_Z total / inject_Z cols)) as H.
  pose proof (inject_Z_pos cols Hc) as HC.
  set (r := Qceiling (inject_Z total / inject_Z cols)) in *.
  assert (H' : (inject_Z (r - 1) * inject_Z cols < inject_Z total)%Q).
  { apply (Qmult_lt_compat_r _ _ (inject_Z cols)) in H; [|exact HC].
    assert (E : (inject_Z total / inject_Z cols * inject_Z cols == inject_Z total)%Q)
      by (field; lra).
    rewrite E in H. exact H. }
  rewrite <- inject_Z_mult, <- Zlt_Qlt in H'. exact H'.
Qed.

Lemma map_snd_combine_seq {A : Type} (l : list A) : forall start,
  map snd (combine (map Z.of_nat (seq start (List.length l))) l) = l.
Proof.
  induction l as [|a l IH]; intros start; cbn; [reflexivity|]. f_equal. apply IH.
Qed.

Lemma enumerate_snd {A : Type} (l : list A) : map snd (enumerate l) = l.
Proof. unfold enumerate. rewrite range_len. apply map_snd_combine_seq. Qed.

Lemma cell_of_caption cell_width cell_height cols (items : list (Z * (image * label))) :
  map caption (map (cell_of cell_width cell_height cols) items)
  = map (fun it => snd (snd it)) items.
Proof. rewrite map_map. reflexivity. Qed.

(** A column limit of zero stops the merge at the layout. *)
Lemma zero_columns (all_images : list image) (image_labels : list label)
    (cell_width cell_height : Z) :
  all_images <> [] ->
  merge_images_to_grid all_images image_labels cell_width cell_height 0
  = Raise ZeroDivisionError.
Proof.
  intros Hne.
  assert (Hl : (0 < len all_images)%Z).
  { destruct all_images; [congruence|]. unfold len. cbn [List.length]. lia. }
  unfold merge_images_to_grid, blank_canvas, calculate_grid_layout.
  destruct all_images; [congruence|].
  replace (len (i :: all_images) <=? 0)%Z with false by (symmetry; apply Z.leb_gt; lia).
  replace (Z.min 0 (len (i :: all_images))) with 0%Z by lia.
  rewrite truediv_Int0. reflexivity.
Qed.

Section Pages.
Variable fitz_open : path -> option Fitz.document.

Lemma render_all_length (doc : Fitz.document) (zoom : Q) (imgs : list image) :
  render_all doc zoom = Some imgs -> List.length imgs = List.length doc.
Proof.
  revert imgs. induction doc as [|page doc IH]; intros imgs; cbn.
  - intros [= <-]. reflexivity.
  - destruct (page zoom); [|discriminate].
    destruct (render_all doc zoom) as [rest|]; [|discriminate].
    intros [= <-]. cbn. f_equal. apply IH. reflexivity.
Qed.

Lemma render_all_nth (doc : Fitz.document) (zoom : Q) (imgs : list image) :
  render_all doc zoom = Some imgs ->
  forall k page, nth_error doc k = Some page -> nth_error imgs k = page zoom.
Proof.
  revert imgs. induction doc as [|p doc IH]; intros imgs; cbn.
  - intros _ [|k] page; discriminate.
  - destruct (p zoom) as [img|] eqn:Ep; [|discriminate].
    destruct (render_all doc zoom) as [rest|]; [|discriminate].
    intros [= <-] [|k] page; cbn.
    + intros [= <-]. symmetry. exact Ep.
    + apply IH. reflexivity.
Qed.

End Pages.
End GridMore.

(* ================================================================= *)
(** ** Stability of the sort *)

Module StableFacts.
Import Py Order SortFacts.
Section Stable.
Context {A : Type} (key : A -> string).

Lemma leb_refl (s : string) : String.leb s s = true.
Proof. destruct (String.leb_total s s); assumption. Qed.

(** Inserting an item puts it before the items of the same key. *)
Lemma insert_by_filter (k : string) (x : A) (l : list A) :
  filter (fun y => String.eqb (key y) k) (insert_by key x l)
  = filter (fun y => String.eqb (key y) k) (x :: l).
Proof.
  induction l as [|y l IH]; [reflexivity|].
  cbn [insert_by]. destruct (String.leb (key x) (key y)) eqn:E; [reflexivity|].
  cbn [filter] in *. rewrite IH.
  destruct (String.eqb_spec (key x) k) as [Ex|Nx];
  destruct (String.eqb_spec (key y) k) as [Ey|Ny]; try reflexivity.
  rewrite Ex, Ey, leb_refl in E. discriminate.
Qed.

(** The sort is stable: the items of one key keep their order. *)
Lemma sort_by_stable (k : string) (l : list A) :
  filter (fun y => String.eqb (key y) k) (sort_by key l)
  = filter (fun y => String.eqb (key y) k) l.
Proof.
  induction l as [|x l IH]; [reflexivity|].
  cbn [sort_by]. rewrite insert_by_filter. cbn [filter]. rewrite IH. reflexivity.
Qed.

End Stable.
End StableFacts.

(* ================================================================= *)
(** ** pdf_merger.py: the names of the output files *)

Module PairedNames.
Import Py Path PIL ReportLab PDFInvoiceMerger PairedSpec PairedRun.
Import DictFacts PairedFacts.
Section Names.
Variable fitz_open : path -> option Fitz.document.
Variable image_open : path -> option image.
Variable page_width page_height : num.
Local Abbreviation merged_file :=
  (merged_file fitz_open image_open page_width page_height).

Lemma merged_file_name (pr : path * path) :
  map fst (merged_file pr) = [] \/ map fst (merged_file pr) = [output_name pr].
Proof.
  unfold PairedRun.merged_file.
  destruct (merge_pdf_and_image _ _ _ _ _ _ _) as [[ok [doc|]] msgs]; cbn; auto.
Qed.

Lemma NoDup_merged_names (pairs : list (path * path)) :
  NoDup (map output_name pairs) -> NoDup (map fst (flat_map merged_file pairs)).
Proof.
  induction pairs as [|pr pairs IH]; cbn [map flat_map]; intros Hn; [constructor|].
  inversion Hn as [|? ? Hnot Hn']; subst.
  rewrite map_app.
  assert (Hsub : forall n, In n (map fst (flat_map merged_file pairs)) ->
                           In n (map output_name pairs)).
  { clear. induction pairs as [|q pairs IH]; cbn [map flat_map]; intros n Hin; [exact Hin|].
    rewrite map_app in Hin. apply in_app_or in Hin. destruct Hin as [Hin|Hin].
    - destruct (merged_file_name q) as [E|E]; rewrite E in Hin.
      + destruct Hin.
      + destruct Hin as [<-|[]]. left. reflexivity.
    - right. apply IH, Hin. }
  destruct (merged_file_name pr) as [E|E]; rewrite E; cbn [app].
  - apply IH, Hn'.
  - constructor; [|apply IH, Hn'].
    intros Hin. apply Hnot, Hsub, Hin.
Qed.

Lemma output_name_inj (p q : path * path) :
  output_name p = output_name q -> stem (fst p) = stem (fst q).
Proof. unfold output_name. apply append_inj_l. Qed.

Lemma NoDup_output_names (pairs : list (path * path)) :
  NoDup (map (fun pr => stem (fst pr)) pairs) -> NoDup (map output_name pairs).
Proof.
  induction pairs as [|pr pairs IH]; cbn [map]; intros Hn; [constructor|].
  inversion Hn as [|? ? Hnot Hn']; subst. constructor; [|apply IH, Hn'].
  intros Hin. apply Hnot. apply in_map_iff in Hin. destruct Hin as (q & Eq & Hq).
  apply in_map_iff. exists q. split; [apply output_name_inj, Eq | exact Hq].
Qed.

End Names.
End PairedNames.

(* ================================================================= *)
(** ** main.py: the menu loop *)

Module MenuFacts.
Import Py Console Menu.

Section Session.
Variable int_of_str : string -> option Z.

Local Abbreviation read_settings := (GridCli.read_settings int_of_str).
Local Abbreviation after_image_merger := (after_image_merger int_of_str).
Local Abbreviation loop := (loop int_of_str).
Local Abbreviation never_ends := (never_ends int_of_str).

(** The questions of the image merger only take lines from the front. *)
Lemma read_settings_suffix (input : stdin) m w h rest :
  read_settings input = GridCli.Settings m w h rest ->
  exists taken, input = taken ++ rest /\ (1 <= List.length taken <= 3)%nat.
Proof.
  unfold GridCli.read_settings.
  destruct input as [|l1 i1]; [discriminate|].
  destruct (int_of_str _);
    [|intros [= <- <- <- <-]; exists [l1]; cbn; split; [reflexivity|lia]].
  destruct i1 as [|l2 i2]; [discriminate|].
  destruct (int_of_str _);
    [|intros [= <- <- <- <-]; exists [l1; l2]; cbn; split; [reflexivity|lia]].
  destruct i2 as [|l3 i3]; [discriminate|].
  destruct (int_of_str _); intros [= <- <- <- <-]; exists [l1; l2; l3]; cbn;
    (split; [reflexivity|lia]).
Qed.

Lemma after_image_merger_suffix (input : stdin) :
  exists taken, input = taken ++ after_image_merger input.
Proof.
  unfold Menu.after_image_merger.
  destruct (read_settings input) as [m w h rest|] eqn:E.
  - destruct (read_settings_suffix _ _ _ _ _ E) as (taken & Et & _). eauto.
  - exists input. rewrite app_nil_r. reflexivity.
Qed.

Lemma after_image_merger_In (input : stdin) (line : string) :
  In line (after_image_merger input) -> In line input.
Proof.
  destruct (after_image_merger_suffix input) as (taken & E).
  intros H. rewrite E. apply in_or_app. right. exact H.
Qed.

Lemma after_image_merger_length (input : stdin) :
  (List.length (after_image_merger input) <= List.length input)%nat.
Proof.
  destruct (after_image_merger_suffix input) as (taken & E).
  rewrite E at 2. rewrite length_app. lia.
Qed.

Lemma In_snoc_other {A : Type} (x y : A) (l : list A) :
  x <> y -> In x (l ++ [y]) -> In x l.
Proof.
  intros N H. apply in_app_or in H. destruct H as [H|[H|[]]]; [exact H | congruence].
Qed.

(** The features of a trace were each asked for by a line of the input:
    the question whether to go on, then the loop. *)
Lemma go_on_runs_chosen (f : feature) again :
  (forall choice input trace,
     In (Run f) (trace_of (again choice input trace)) ->
     In (Run f) trace \/ exists line, In line input /\ strip line = key f) ->
  forall choice input trace,
    In (Run f) (trace_of (go_on again choice input trace)) ->
    In (Run f) trace \/ exists line, In line input /\ strip line = key f.
Proof.
  intros IH choice input trace H. unfold go_on in H.
  destruct choice as [c|]; [|left; exact H].
  destruct (str_in c _).
  - destruct input as [|line input]; [left; exact H|].
    destruct (str_in (strip (lower line)) _).
    + apply IH in H. destruct H as [H|(l & Hl & El)]; [left; exact H|].
      right. exists l. split; [right; exact Hl | exact El].
    + left. cbn [trace_of] in H. apply In_snoc_other in H; [exact H | discriminate].
  - apply (IH _ _ _ H).
Qed.

Lemma loop_runs_chosen (f : feature) : forall fuel choice input trace,
  In (Run f) (trace_of (loop fuel choice input trace)) ->
  In (Run f) trace \/ exists line, In line input /\ strip line = key f.
Proof.
  induction fuel as [|fuel IH]; intros choice input trace H; [left; exact H|].
  cbn [Menu.loop] in H.
  pose proof (go_on_runs_chosen f (loop fuel) IH) as Hgo.
  assert (Hmenu : forall t, In (Run f) (t ++ [ShowMenu]) -> In (Run f) t)
    by (intros t; apply In_snoc_other; discriminate).
  destruct input as [|line input].
  - apply Hgo in H. destruct H as [H|(l & [] & _)].
    left. apply Hmenu. apply In_snoc_other in H; [exact H | discriminate].
  - destruct (String.eqb_spec (strip line) "0") as [E0|N0].
    { left. cbn [trace_of] in H. apply Hmenu.
      apply In_snoc_other in H; [exact H | discriminate]. }
    assert (Hrun : forall g input',
              (forall l, In l input' -> In l input) -> strip line = key g ->
              In (Run f) (trace_of (go_on (loop fuel) (Some (strip line)) input'
                                          ((trace ++ [ShowMenu]) ++ [Run g]))) ->
              In (Run f) trace \/
              exists l, In l (line :: input) /\ strip l = key f).
    { intros g input' Hsub Eg Hin. apply Hgo in Hin.
      destruct Hin as [Hin|(l & Hl & El)].
      - apply in_app_or in Hin. destruct Hin as [Hin|[Hin|[]]]; [left; apply Hmenu, Hin|].
        injection Hin as <-. right. exists line. split; [left; reflexivity | exact Eg].
      - right. exists l. split; [right; apply Hsub, Hl | exact El]. }
    destruct (String.eqb_spec (strip line) "1") as [E1|N1];
      [apply (Hrun PdfMerger input); auto|].
    destruct (String.eqb_spec (strip line) "2") as [E2|N2];
      [apply (Hrun PdfToImageMerger (after_image_merger input));
         [apply after_image_merger_In | exact E2 | exact H]|].
    destruct (String.eqb_spec (strip line) "3") as [E3|N3];
      [apply (Hrun DualLayoutMerger input); auto|].
    apply Hgo in H. destruct H as [H|(l & Hl & El)].
    + left. apply Hmenu. apply In_snoc_other in H; [exact H | discriminate].
    + right. exists l. split; [right; exact Hl | exact El].
Qed.

(** With the input at its end and a last choice that is no feature, every
    round only shows the menu and the error line. *)
Lemma loop_spins (c : string) :
  str_in c ["1"; "2"; "3"]%string = false ->
  forall fuel trace, exists t, loop fuel (Some c) [] trace = OutOfFuel t.
Proof.
  intros Hc. induction fuel as [|fuel IH]; intros trace.
  - eexists. reflexivity.
  - cbn [Menu.loop]. unfold go_on. rewrite Hc. apply IH.
Qed.

(** A session still running after more rounds than the input has lines
    never ends. *)
Lemma loop_ends_soon_or_never : forall fuel choice input trace,
  (List.length input < fuel)%nat ->
  (exists t, loop fuel choice input trace = OutOfFuel t) ->
  never_ends choice input.
Proof.
  induction fuel as [|fuel IH]; intros choice input trace Hlen [t Ht]; [lia|].
  cbn [Menu.loop] in Ht.
  (* the question whether to go on, once a line has been read or at the end *)
  assert (Hgo : forall ch inp tr t0,
            inp = [] \/ (List.length inp < fuel)%nat ->
            go_on (loop fuel) ch inp tr = OutOfFuel t0 ->
            forall fuel' tr', exists t', go_on (loop fuel') ch inp tr' = OutOfFuel t').
  { intros ch inp tr t0 Hl H0 fuel' tr'. unfold go_on in *.
    destruct ch as [c|]; [|discriminate H0].
    destruct (str_in c _) eqn:Ec.
    - destruct inp as [|line inp']; [discriminate H0|].
      destruct (str_in (strip (lower line)) _); [|discriminate H0].
      apply (IH (Some c) inp' tr); [destruct Hl as [Hl|Hl]; [discriminate|cbn in Hl; lia]|].
      eauto.
    - destruct Hl as [->|Hl]; [apply loop_spins, Ec|].
      apply (IH (Some c) inp tr Hl). eauto. }
  unfold Menu.never_ends. intros [|fuel'] trace'; [eexists; reflexivity|].
  cbn [Menu.loop].
  destruct input as [|line input].
  - eapply Hgo; [left; reflexivity | exact Ht].
  - cbn [List.length] in Hlen.
    pose proof (after_image_merger_length input) as Hal.
    destruct (String.eqb (strip line) "0"); [discriminate Ht|].
    destruct (String.eqb (strip line) "1"); [eapply Hgo; [right; lia | exact Ht]|].
    destruct (String.eqb (strip line) "2"); [eapply Hgo; [right; lia | exact Ht]|].
    destruct (String.eqb (strip line) "3"); [eapply Hgo; [right; lia | exact Ht]|].
    eapply Hgo; [right; lia | exact Ht].
Qed.

(** More fuel does not change how a session ends. *)
Lemma loop_more_fuel : forall fuel choice input trace,
  (forall t, loop fuel choice input trace <> OutOfFuel t) ->
  forall extra, loop (fuel + extra) choice input trace = loop fuel choice input trace.
Proof.
  induction fuel as [|fuel IH]; intros choice input trace Hend extra.
  - exfalso. apply (Hend trace). reflexivity.
  - cbn [Nat.add Menu.loop] in *.
    assert (Hgo : forall ch inp tr,
              (forall t, go_on (loop fuel) ch inp tr <> OutOfFuel t) ->
              go_on (loop (fuel + extra)) ch inp tr = go_on (loop fuel) ch inp tr).
    { intros ch inp tr H. unfold go_on in *.
      destruct ch as [c|]; [|reflexivity].
      destruct (str_in c _).
      - destruct inp as [|line inp']; [reflexivity|].
        destruct (str_in (strip (lower line)) _); [|reflexivity].
        apply IH, H.
      - apply IH, H. }
    destruct input as [|line input]; [apply Hgo, Hend|].
    destruct (String.eqb (strip line) "0"); [reflexivity|].
    destruct (String.eqb (strip line) "1"); [apply Hgo, Hend|].
    destruct (String.eqb (strip line) "2"); [apply Hgo, Hend|].
    destruct (String.eqb (strip line) "3"); [apply Hgo, Hend|].
    apply Hgo, Hend.
Qed.

End Session.
End MenuFacts.

(* ================================================================= *)
(** ** The claims *)

Import Binary64 Py Path PIL ReportLab Spec.
Import Binary64Facts PyFacts FitFacts Samples.
Local Open Scope Q_scope.

(** The rounding model against the kernel's binary64 arithmetic, on the
    operands of the counterexamples below. *)
Example rnd_agrees_with_binary64 :
  float_value (PrimFloat.div 496 1754) = Some (rnd (496 / 1754)) /\
  float_value (PrimFloat.mul 1754 (PrimFloat.div 496 1754))
    = Some (rnd (1754 * rnd (496 / 1754))) /\
  float_value (PrimFloat.mul 800 (PrimFloat.div 0x1.dffffffffffffp+3 800))
    = Some (rnd (800 * rnd ((8444249301319679 # 562949953421312) / 800))) /\
  float_value 0x1.dffffffffffffp+3 = Some (8444249301319679 # 562949953421312).
Proof. vm_compute. repeat split; reflexivity. Qed.

Lemma quotient_is_float a b : exists q, quotient a b = Float q.
Proof. destruct a, b; cbn; eauto. Qed.

Lemma centered_within (origin cell : num) (size : Z) :
  0 <= to_float origin -> rnd (to_float origin) == to_float origin ->
  to_float origin == value origin ->
  (0 <= size < 2 ^ 53)%Z -> inject_Z size <= value cell ->
  value origin <= value (add origin (quotient (sub cell (Int size)) (Int 2))) /\
  within_three_roundings
    (value (add origin (quotient (sub cell (Int size)) (Int 2))))
    (value origin + Spec.offset (value cell) size).
Proof.
  intros H0 Hg Hv Hs Hle.
  destruct (centered_start origin cell size H0 Hg Hs Hle) as (A & B & C).
  unfold within_three_roundings. rewrite <- Hv. auto.
Qed.

(* ----------------------------------------------------------------- *)
(** *** C1 *)

(** C1, as stated, fails.  A strip 1 x 3000 fitted into the picture area
    396 x 446 of a default grid cell (400 x 500) comes out 0 wide, and the
    resize raises ValueError: no scaled size is returned, and the default
    run of the Grid variant on such a page stops there.  And where a size
    is returned it can exceed the cell: 800 x 600 fitted into a cell
    14.999999999999998 wide and 60 high comes out 15 x 11. *)
Lemma fit_exceeds_cell_counterexample :
  ~ (forall (img : image) (cw ch : num),
       (0 < width img)%Z -> (0 < height img)%Z -> 0 < value cw -> 0 < value ch ->
       exists scaled,
         PDFToImageMerger.resize_image_proportionally img cw ch = Ok scaled /\
         inject_Z (width scaled) <= value cw /\ inject_Z (height scaled) <= value ch) /\
  PDFToImageMerger.merge_images_to_grid [{| width := 1; height := 3000 |}]
    [PDFToImageMerger.Plain "strip"] 400 500 4 = Raise ValueError /\
  ~ (forall (img : image) (cw ch : num),
       (0 < width img)%Z -> (0 < height img)%Z -> 0 < value cw -> 0 < value ch ->
       forall scaled,
         PDFInvoiceMerger.resize_image_to_fit img cw ch = Ok scaled ->
         inject_Z (width scaled) <= value cw /\ inject_Z (height scaled) <= value ch).
Proof.
  split; [|split].
  - intros H.
    destruct (H {| width := 1; height := 3000 |} (Int 396) (Int 446)
                eq_refl eq_refl eq_refl eq_refl) as (scaled & E & _).
    vm_compute in E. discriminate E.
  - vm_compute. reflexivity.
  - intros H.
    specialize (H {| width := 800; height := 600 |}
                  (Float (8444249301319679 # 562949953421312)) (Float 60)
                  eq_refl eq_refl eq_refl eq_refl
                  {| width := 15; height := 11 |}).
    assert (E : PDFInvoiceMerger.resize_image_to_fit {| width := 800; height := 600 |}
                  (Float (8444249301319679 # 562949953421312)) (Float 60)
                = Ok {| width := 15; height := 11 |}) by (vm_compute; reflexivity).
    destruct (H E) as [A _]. revert A. vm_compute. congruence.
Qed.

(** C1 (amended): for strictly positive native sizes and strictly positive
    cell sides that are rounding-safe (no integer between the side and the
    side enlarged by three roundings: every integer side up to 2^51, the A4
    cells of the PDF variants), the size the fit computes exceeds the cell
    on neither axis; when both of its sides are at least 1 each of the
    three copies of the fit returns the image resized to it, and when one
    of them is 0 each copy raises ValueError in the resize. *)
Theorem fit_within_cell (img : image) (cw ch : num) :
  (0 < width img)%Z -> (0 < height img)%Z -> 0 < value cw -> 0 < value ch ->
  rounding_safe (value cw) -> rounding_safe (value ch) ->
  exists scaledW scaledH : Z,
    Spec.scaled_size (width img) (height img) cw ch = (scaledW, scaledH) /\
    (0 <= scaledW)%Z /\ (0 <= scaledH)%Z /\
    inject_Z scaledW <= value cw /\ inject_Z scaledH <= value ch /\
    ((1 <= scaledW)%Z /\ (1 <= scaledH)%Z ->
       DualLayoutMerger.resize_image_to_fit (Some img) cw ch true
       = Ok (Some {| width := scaledW; height := scaledH |}) /\
       PDFInvoiceMerger.resize_image_to_fit img cw ch
       = Ok {| width := scaledW; height := scaledH |} /\
       PDFToImageMerger.resize_image_proportionally img cw ch
       = Ok {| width := scaledW; height := scaledH |}) /\
    (scaledW = 0%Z \/ scaledH = 0%Z ->
       DualLayoutMerger.resize_image_to_fit (Some img) cw ch true = Raise ValueError /\
       PDFInvoiceMerger.resize_image_to_fit img cw ch = Raise ValueError /\
       PDFToImageMerger.resize_image_proportionally img cw ch = Raise ValueError).
Proof.
  intros Hw Hh Hcw Hch Sw Sh.
  destruct (scaled_in_safe_cell (width img) (height img) cw ch Hw Hh Hcw Hch Sw Sh)
    as (W0 & H0 & W1 & H1).
  destruct (Spec.scaled_size (width img) (height img) cw ch) as [scaledW scaledH] eqn:E.
  cbn [fst snd] in *.
  exists scaledW, scaledH. split; [reflexivity|].
  split; [exact W0|]. split; [exact H0|]. split; [exact W1|]. split; [exact H1|]. split.
  - intros [P1 P2].
    pose proof (fit_returns img cw ch ltac:(lia) ltac:(lia)) as R.
    unfold Spec.fits in R. rewrite E in R. cbn [fst snd] in R. apply R. auto.
  - intros Z0.
    pose proof (fit_raises img cw ch Hw Hh) as R.
    unfold Spec.fits in R. rewrite E in R. cbn [fst snd] in R. apply R. lia.
Qed.

Lemma fit_within_cell_witness :
  PDFToImageMerger.resize_image_proportionally {| width := 1754; height := 1240 |}
    (Int 496) (Int 546) = Ok {| width := 495; height := 350 |}.
Proof.
  destruct (fit_within_cell {| width := 1754; height := 1240 |} (Int 496) (Int 546))
    as (scaledW & scaledH & E & _ & _ & _ & _ & R & _).
  - reflexivity.
  - reflexivity.
  - reflexivity.
  - reflexivity.
  - vm_compute. discriminate.
  - vm_compute. discriminate.
  - vm_compute in E. injection E as <- <-.
    destruct R as (_ & _ & G); [split; discriminate | exact G].
Defined.

(* ----------------------------------------------------------------- *)
(** *** C2 *)

(** C2, as stated, fails: a 1754 x 1240 image (a landscape A4 page at
    150 dpi) in a 496 x 546 cell has differing aspect ratios and the width
    as the binding axis, and the exact formula fills it (496 x 350); the
    code returns 495 x 350, since 1754 * (496 / 1754) is
    495.99999999999994 in binary64. *)
Lemma fit_binding_axis_counterexample :
  ~ (forall (img : image) (cw ch : num) (scaled : image),
       (0 < width img)%Z -> (0 < height img)%Z -> 0 < value cw -> 0 < value ch ->
       DualLayoutMerger.resize_image_to_fit (Some img) cw ch true = Ok (Some scaled) ->
       (width scaled, height scaled)
       = Spec.fit (width img) (height img) (value cw) (value ch)).
Proof.
  intros H.
  specialize (H {| width := 1754; height := 1240 |} (Int 496) (Int 546)
                {| width := 495; height := 350 |}
                eq_refl eq_refl eq_refl eq_refl).
  assert (E : DualLayoutMerger.resize_image_to_fit
                (Some {| width := 1754; height := 1240 |}) (Int 496) (Int 546) true
              = Ok (Some {| width := 495; height := 350 |})) by (vm_compute; reflexivity).
  specialize (H E). revert H. vm_compute. congruence.
Qed.

(** C2 (amended): for a file rasterized to a native size below 2^53 and
    rounding-safe cell sides up to 2^51, the fit evaluates
    scale = min(cellW/nativeW, cellH/nativeH) and the truncated products in
    binary64, so each scaled side is within one unit of the exact
    floor(native * scale) (not always equal to it); the exact formula fills
    one axis up to truncation, hence the code fills one axis to within one
    unit, and neither side exceeds its cell; the centred position, in the
    upper and in the lower slot, is the cell origin plus
    (cell - scaled) / 2 up to three roundings, never before the origin.
    When both scaled sides are at least 1 the slot draws the image (its
    pixels read) at that size and position, followed by the file name;
    when a scaled side is 0 (a strip too thin for the cell) the resize
    raises ValueError and the slot draws nothing. *)
Theorem dual_fit_and_center
    (str_lower : string -> string)
    (fitz_open : path -> option Fitz.document)
    (image_open : path -> option (result image))
    (page_width page_height : num) (file : path) (img : image) (c : canvas) :
  let cw := DualLayoutMerger.cell_width page_width in
  let ch := DualLayoutMerger.cell_height page_height in
  let margin := DualLayoutMerger.margin in
  let upper_origin := add (add margin ch) DualLayoutMerger.gap in
  let scaledW := fst (Spec.scaled_size (width img) (height img) cw ch) in
  let scaledH := snd (Spec.scaled_size (width img) (height img) cw ch) in
  let x := add margin (quotient (sub cw (Int scaledW)) (Int 2)) in
  let y_upper := add upper_origin (quotient (sub ch (Int scaledH)) (Int 2)) in
  let y_lower := add margin (quotient (sub ch (Int scaledH)) (Int 2)) in
  DualLayoutMerger.rasterize str_lower fitz_open image_open file = Some (Ok img) ->
  (0 < width img < 2 ^ 53)%Z -> (0 < height img < 2 ^ 53)%Z ->
  0 < value cw -> value cw <= inject_Z (2 ^ 51) ->
  0 < value ch -> value ch <= inject_Z (2 ^ 51) ->
  rounding_safe (value cw) -> rounding_safe (value ch) ->
  (let e := Spec.fit (width img) (height img) (value cw) (value ch) in
   (fst e - 1 <= scaledW <= fst e + 1)%Z /\
   (snd e - 1 <= scaledH <= snd e + 1)%Z /\
   (fst e = Qfloor (value cw) \/ snd e = Qfloor (value ch))) /\
  (0 <= scaledW)%Z /\ (0 <= scaledH)%Z /\
  inject_Z scaledW <= value cw /\
  inject_Z scaledH <= value ch /\
  (Qfloor (value cw) - 1 <= scaledW \/ Qfloor (value ch) - 1 <= scaledH)%Z /\
  value margin <= value x /\
  within_three_roundings (value x) (value margin + Spec.offset (value cw) scaledW) /\
  value upper_origin <= value y_upper /\
  within_three_roundings (value y_upper)
    (value upper_origin + Spec.offset (value ch) scaledH) /\
  value margin <= value y_lower /\
  within_three_roundings (value y_lower) (value margin + Spec.offset (value ch) scaledH) /\
  ((1 <= scaledW)%Z /\ (1 <= scaledH)%Z ->
     DualLayoutMerger.draw_upper str_lower fitz_open image_open page_width page_height
       file c
     = Ok (draw (DrawString margin (add (sub page_height margin) (Int 5)) (name file))
             (draw (DrawImage x y_upper (Int scaledW) (Int scaledH)) c)) /\
     DualLayoutMerger.draw_lower str_lower fitz_open image_open page_width page_height
       file c
     = Ok (draw (DrawString margin (sub margin (Int 15)) (name file))
             (draw (DrawImage x y_lower (Int scaledW) (Int scaledH)) c))) /\
  (scaledW = 0%Z \/ scaledH = 0%Z ->
     DualLayoutMerger.draw_upper str_lower fitz_open image_open page_width page_height
       file c = Raise ValueError /\
     DualLayoutMerger.draw_lower str_lower fitz_open image_open page_width page_height
       file c = Raise ValueError).
Proof.
  intros cw ch margin upper_origin scaledW scaledH x y_upper y_lower
         Hr Hw Hh Hcw Hcw' Hch Hch' Sw Sh.
  destruct (scaled_tracks_spec (width img) (height img) cw ch Hw Hh Hcw Hcw' Hch Hch')
    as (T1 & T2).
  destruct (scaled_in_safe_cell (width img) (height img) cw ch
              ltac:(lia) ltac:(lia) Hcw Hch Sw Sh) as (W0 & H0 & W1 & H1).
  fold scaledW in T1, W0, W1. fold scaledH in T2, H0, H1.
  destruct (spec_fit_binding (width img) (height img) (value cw) (value ch)
              ltac:(lia) ltac:(lia)) as (B & _ & _).
  assert (Wb : (0 <= scaledW < 2 ^ 53)%Z).
  { split; [exact W0|]. apply Z.le_lt_trans with (2 ^ 51)%Z; [|reflexivity].
    rewrite Zle_Qle. eapply Qle_trans; eassumption. }
  assert (Hb : (0 <= scaledH < 2 ^ 53)%Z).
  { split; [exact H0|]. apply Z.le_lt_trans with (2 ^ 51)%Z; [|reflexivity].
    rewrite Zle_Qle. eapply Qle_trans; eassumption. }
  (* the origins are non-negative binary64 values *)
  assert (M0 : 0 <= to_float margin) by (vm_compute; discriminate).
  assert (Mg : rnd (to_float margin) == to_float margin) by apply rnd_idem.
  assert (Mv : to_float margin == value margin) by reflexivity.
  assert (Ov : exists o, upper_origin = Float o /\ 0 <= o /\ rnd o == o).
  { unfold upper_origin, ch, DualLayoutMerger.cell_height.
    destruct (quotient_is_float
                (sub (sub page_height (mul (Int 2) DualLayoutMerger.margin))
                     DualLayoutMerger.gap) (Int 2)) as [q Eq].
    assert (Hq : 0 < q).
    { unfold ch, DualLayoutMerger.cell_height in Hch. rewrite Eq in Hch. exact Hch. }
    rewrite Eq. cbn [add margin DualLayoutMerger.margin DualLayoutMerger.gap to_float].
    eexists. split; [reflexivity|]. split; [|apply rnd_idem].
    apply rnd_nonneg.
    assert (0 <= rnd (rnd (inject_Z 20) + q)).
    { apply rnd_nonneg. assert (0 <= rnd (inject_Z 20)) by (vm_compute; discriminate). lra. }
    assert (0 <= rnd (inject_Z 10)) by (vm_compute; discriminate). lra. }
  destruct Ov as (o & Eo & O0 & Og).
  destruct (centered_within margin cw scaledW M0 Mg Mv Wb W1) as [X1 X2].
  destruct (centered_within margin ch scaledH M0 Mg Mv Hb H1) as [Y1 Y2].
  assert (Yu : value upper_origin <= value y_upper
               /\ within_three_roundings (value y_upper)
                    (value upper_origin + Spec.offset (value ch) scaledH)).
  { apply centered_within; try assumption; rewrite Eo; cbn [to_float value];
      [exact O0 | exact Og | reflexivity]. }
  destruct Yu as [Z1 Z2].
  split; [cbv zeta; repeat split; try tauto; try lia; exact B|].
  split; [exact W0|]. split; [exact H0|].
  split; [exact W1|]. split; [exact H1|].
  split; [destruct B as [B|B]; [left|right]; lia|].
  split; [exact X1|]. split; [exact X2|].
  split; [exact Z1|]. split; [exact Z2|]. split; [exact Y1|]. split; [exact Y2|].
  split.
  - intros Hfit.
    destruct (fit_returns img cw ch ltac:(lia) ltac:(lia) Hfit) as (D & _).
    unfold DualLayoutMerger.draw_upper, DualLayoutMerger.draw_lower,
           DualLayoutMerger.process_file_to_image.
    rewrite Hr. cbn [bind]. fold cw ch. rewrite D. split; reflexivity.
  - intros Hz.
    assert (Hn : ~ Spec.fits img cw ch).
    { unfold Spec.fits. fold scaledW scaledH. lia. }
    destruct (fit_raises img cw ch ltac:(lia) ltac:(lia) Hn) as (D & _).
    unfold DualLayoutMerger.draw_upper, DualLayoutMerger.draw_lower,
           DualLayoutMerger.process_file_to_image.
    rewrite Hr. cbn [bind]. fold cw ch. rewrite D. split; reflexivity.
Qed.

Lemma dual_fit_and_center_witness :
  DualLayoutMerger.draw_upper lower no_pdf (intact landscape_scan) A4_width A4_height
    {| stem := "scan"; suffix := ".png" |} Canvas
  = Ok {| finished := [];
          current :=
            [DrawImage
               (add DualLayoutMerger.margin
                  (quotient (sub (DualLayoutMerger.cell_width A4_width) (Int 555)) (Int 2)))
               (add (add (add DualLayoutMerger.margin (DualLayoutMerger.cell_height A4_height))
                         DualLayoutMerger.gap)
                    (quotient (sub (DualLayoutMerger.cell_height A4_height) (Int 392))
                       (Int 2)))
               (Int 555) (Int 392);
             DrawString DualLayoutMerger.margin
               (add (sub A4_height DualLayoutMerger.margin) (Int 5)) "scan.png"] |}.
Proof.
  pose proof (dual_fit_and_center lower no_pdf (intact landscape_scan) A4_width A4_height
                {| stem := "scan"; suffix := ".png" |}
                {| width := 1754; height := 1240 |} Canvas) as H.
  cbv zeta in H.
  destruct H as (_ & _ & _ & _ & _ & _ & _ & _ & _ & _ & _ & _ & D & _).
  - reflexivity.
  - split; reflexivity.
  - split; reflexivity.
  - reflexivity.
  - vm_compute. discriminate.
  - reflexivity.
  - vm_compute. discriminate.
  - vm_compute. discriminate.
  - vm_compute. discriminate.
  - destruct D as [U _]; [split; vm_compute; discriminate|].
    rewrite U. vm_compute. reflexivity.
Defined.

(* ----------------------------------------------------------------- *)
(** *** C3 *)



(* ----------------------------------------------------------------- *)
(** *** C4 *)

(** C4, as stated, fails: for the two files strip.png (1 x 3000) and
    photo.png (800 x 600) on the A4 page the strip is scaled to a width of
    0, the resize raises ValueError on the first page, and no PDF of one
    page, nor any other, is produced. *)
Lemma dual_slot_pagination_counterexample :
  DualLayoutMerger.create_dual_layout_pdf lower no_pdf (intact strip_or_photo)
    A4_width A4_height strip_and_photo = Raise ValueError /\
  ~ (forall str_lower fitz_open image_open page_width page_height
            (all_files : list path),
       all_files <> [] ->
       exists pages,
         DualLayoutMerger.create_dual_layout_pdf str_lower fitz_open image_open
           page_width page_height all_files = Ok (Some pages) /\
         Z.of_nat (List.length pages)
         = Qceiling (inject_Z (len all_files) / inject_Z 2)).
Proof.
  assert (E : DualLayoutMerger.create_dual_layout_pdf lower no_pdf (intact strip_or_photo)
                A4_width A4_height strip_and_photo = Raise ValueError)
    by (vm_compute; reflexivity).
  split; [exact E|].
  intros H.
  destruct (H lower no_pdf (intact strip_or_photo) A4_width A4_height strip_and_photo
              ltac:(discriminate)) as (pages & E' & _).
  rewrite E in E'. discriminate E'.
Qed.

(** C4 (amended): for every list of N files (a list in memory: N below
    2^53) the Dual-Slot variant writes no file when N = 0; when every image
    keeps at least one pixel on each side in the cell, it writes a PDF of
    ceil(N / 2) pages, where page k shows file 2k in the upper cell, file
    2k+1 (if there is one) in the lower cell, and the line between them,
    so that for odd N the last page has the upper cell alone; and when
    some image cannot be fitted (it loses a side in the cell, or its
    pixels cannot be read), the run stops with the exception of the resize
    and writes nothing. *)
Theorem dual_slot_pagination
    (str_lower : string -> string)
    (fitz_open : path -> option Fitz.document)
    (image_open : path -> option (result image))
    (page_width page_height : num) (all_files : list path) :
  (len all_files < 2 ^ 53)%Z ->
  (all_files = [] ->
     DualLayoutMerger.create_dual_layout_pdf str_lower fitz_open image_open
       page_width page_height all_files = Ok None) /\
  (all_files <> [] ->
   Forall (DualPages.drawable str_lower fitz_open image_open page_width page_height)
          all_files ->
     DualLayoutMerger.create_dual_layout_pdf str_lower fitz_open image_open
       page_width page_height all_files
     = Ok (Some (DualPages.paginate str_lower fitz_open image_open page_width page_height
                   all_files))) /\
  ((forall f img, In f all_files ->
      DualPages.source_image str_lower fitz_open image_open f = Some img ->
      (0 < width img)%Z /\ (0 < height img)%Z) ->
   Exists (fun f => ~ DualPages.drawable str_lower fitz_open image_open
                       page_width page_height f) all_files ->
     exists e,
       DualLayoutMerger.create_dual_layout_pdf str_lower fitz_open image_open
         page_width page_height all_files = Raise e) /\
  Z.of_nat (List.length (DualPages.paginate str_lower fitz_open image_open page_width
                           page_height all_files))
  = Qceiling (inject_Z (len all_files) / inject_Z 2) /\
  (forall (k : nat) (page : list op),
     nth_error (DualPages.paginate str_lower fitz_open image_open page_width
                  page_height all_files) k = Some page ->
     page = DualPages.slot_of str_lower fitz_open image_open page_width page_height
              DualPages.Upper (nth_error all_files (2 * k))
            ++ DualPages.slot_of str_lower fitz_open image_open page_width page_height
                 DualPages.Lower (nth_error all_files (2 * k + 1))
            ++ [DualPages.midline page_width page_height]) /\
  (forall pre f, all_files = pre ++ [f] -> Nat.even (List.length pre) = true ->
     last (DualPages.paginate str_lower fitz_open image_open page_width page_height
             all_files) []
     = DualPages.slot_ops str_lower fitz_open image_open page_width page_height
         DualPages.Upper f
       ++ [DualPages.midline page_width page_height]) /\
  (forall listing,
     DualLayoutMerger.get_all_files str_lower listing = all_files ->
     DualLayoutMerger.process_all_files str_lower fitz_open image_open
       page_width page_height listing
     = DualLayoutMerger.create_dual_layout_pdf str_lower fitz_open image_open
         page_width page_height all_files).
Proof.
  intros Hn. split; [|split; [|split; [|split; [|split; [|split]]]]].
  - intros ->. reflexivity.
  - intros Hne Hs. apply DualFacts.create_dual_layout_pdf_pages; assumption.
  - intros Hpos Hex. apply DualFacts.create_dual_layout_pdf_raises; assumption.
  - rewrite DualFacts.paginate_length, Qceiling_half. reflexivity.
  - apply DualFacts.paginate_nth.
  - intros pre f -> He. apply DualFacts.paginate_last_odd, He.
  - intros listing <-. apply DualFacts.process_all_files_eq.
Qed.

Lemma three_scans_drawable :
  Forall (DualPages.drawable lower no_pdf (intact any_scan) A4_width A4_height) three_scans.
Proof.
  apply Forall_forall. intros f _. split.
  - intros [_ [e E]]. discriminate E.
  - intros img E. unfold DualPages.source_image in E.
    destruct (String.eqb _ _) in E; [discriminate E|].
    injection E as <-. vm_compute. repeat split; discriminate.
Qed.

Lemma dual_slot_pagination_witness :
  DualLayoutMerger.create_dual_layout_pdf lower no_pdf (intact any_scan) A4_width A4_height
    three_scans
  = Ok (Some (DualPages.paginate lower no_pdf (intact any_scan) A4_width A4_height three_scans)) /\
  Z.of_nat (List.length (DualPages.paginate lower no_pdf (intact any_scan) A4_width A4_height
                           three_scans)) = 2%Z.
Proof.
  destruct (dual_slot_pagination lower no_pdf (intact any_scan) A4_width A4_height three_scans
              eq_refl) as (_ & P & _ & N & _).
  split; [apply P; [discriminate | exact three_scans_drawable] | reflexivity].
Defined.

(* ----------------------------------------------------------------- *)
(** *** C5 *)


Lemma sound_five_pages :
  Forall (fun img => (0 < width img)%Z /\ (0 < height img)%Z) five_pages.
Proof. repeat constructor. Qed.

Lemma five_pages_placeable : Forall (GridSpec.placeable 400 500) five_pages.
Proof. repeat constructor; vm_compute; discriminate. Qed.


(* ----------------------------------------------------------------- *)
(** *** C6 *)

(** C6, as stated, fails: on the folder A.pdf, A.png, B.pdf, C.jpg the run
    prints nothing about B, which has a PDF and no image. *)
Lemma paired_unmatched_unreported_counterexample :
  ~ (forall fitz_open image_open page_width page_height entries s,
       (PairedSpec.has_pdf entries s /\ ~ PairedSpec.has_image entries s) \/
       (PairedSpec.has_image entries s /\ ~ PairedSpec.has_pdf entries s) ->
       exists m,
         In m (PDFInvoiceMerger.log
                 (PDFInvoiceMerger.process_all fitz_open image_open
                    page_width page_height (Some entries))) /\
         PairedSpec.mentions m s).
Proof.
  intros H.
  destruct (H one_page_pdf any_photo A4_width A4_height invoices_folder "B"%string)
    as (m & Hin & Hm).
  - left. split.
    + eexists. split; [right; right; left; reflexivity|]. split; reflexivity.
    + intros (e & He & Hi & Hs).
      destruct He as [<-|[<-|[<-|[<-|[]]]]]; vm_compute in Hi; vm_compute in Hs;
        discriminate.
  - vm_compute in Hin.
    destruct Hin as [<-|[<-|[<-|[<-|[]]]]]; cbn in Hm; try contradiction;
      discriminate Hm.
Qed.

(** C6 (amended): the pairs of the Paired Merge variant are exactly the
    stems that have both a .pdf file and an image file, one pair per stem;
    the run writes one single-page file <stem>_merged.pdf for each pair
    whose merge succeeds and nothing else, so no output file is named
    after an unmatched stem; unmatched stems are skipped silently: no
    message of the run is about a stem that lacks one of the two kinds. *)
Theorem paired_merge_pairing
    (fitz_open : path -> option Fitz.document) (image_open : path -> option image)
    (page_width page_height : num) (entries : list dir_entry) :
  let pairs := fst (PDFInvoiceMerger.get_file_pairs (Some entries)) in
  let out := PDFInvoiceMerger.process_all fitz_open image_open page_width page_height
               (Some entries) in
  (forall s,
     PairedSpec.has_pdf entries s /\ PairedSpec.has_image entries s <->
     exists p i, In (p, i) pairs /\ stem p = s /\ stem i = s) /\
  NoDup (map (fun pr => stem (fst pr)) pairs) /\
  PDFInvoiceMerger.written out
  = flat_map (PairedRun.merged_file fitz_open image_open page_width page_height) pairs /\
  (forall name doc,
     In (name, doc) (PDFInvoiceMerger.written out) ->
     exists p i page,
       In (p, i) pairs /\ name = (stem p ++ "_merged.pdf")%string /\ doc = [page]) /\
  (forall m s,
     In m (PDFInvoiceMerger.log out) -> PairedSpec.mentions m s ->
     PairedSpec.has_pdf entries s /\ PairedSpec.has_image entries s).
Proof.
  intros pairs out.
  destruct (PairedFacts.pairs_spec entries) as (P1 & P2 & P3). fold pairs in P1, P2, P3.
  destruct (PairedFacts.process_all_spec fitz_open image_open page_width page_height
              entries) as (W & L). fold pairs in W, L. fold out in W, L.
  split; [|split; [exact P3|split; [exact W|split]]].
  - intros s. split.
    + intros [Hp Hi]. apply P2; assumption.
    + intros (p & i & Hin & <- & _). apply P1 in Hin. tauto.
  - intros name doc Hin. rewrite W in Hin. apply in_flat_map in Hin.
    destruct Hin as ([p i] & Hp & Hin). exists p, i.
    unfold PairedRun.merged_file, PairedRun.output_name in Hin. cbn [fst snd] in Hin.
    destruct (PairedFacts.merge_cases fitz_open image_open page_width page_height
                p i (stem p ++ "_merged.pdf")%string)
      as [(page & msgs & E & _)|(msgs & E & _)]; rewrite E in Hin.
    + destruct Hin as [[= <- <-]|[]]. exists page. auto.
    + destruct Hin.
  - intros m s Hin Hm. apply L in Hin. destruct Hin as [Hin|[Hin|Hin]].
    + apply PairedFacts.get_file_pairs_snd in Hin.
      destruct Hin as [->|Hin]; [destruct Hm|].
      destruct (PairedFacts.scan_spec entries [] []) as (K1 & K2 & _ & _ & _ & V2).
      apply (PairedFacts.matching_spec) in Hin.
      destruct Hin as (k & p & i & -> & Hkp & Hg). cbn in Hm. subst s. split.
      * assert (Hk : In k (map fst (fst (PDFInvoiceMerger.scan entries [] []))))
          by (apply in_map_iff; exists (k, p); auto).
        apply K1 in Hk. destruct Hk as [[]|Hk]. exact Hk.
      * apply V2 in Hg. destruct Hg as [Hg|[_ Hg]]; [discriminate | exact Hg].
    + apply in_flat_map in Hin. destruct Hin as ([p i] & Hp & Hin).
      destruct (P1 p i Hp) as (Es & Hpdf & Himg).
      unfold PairedRun.merge_messages, PairedRun.output_name in Hin. cbn [fst snd] in Hin.
      assert (Hs : s = stem p); [|subst s; auto].
      destruct (PairedFacts.merge_cases fitz_open image_open page_width page_height
                  p i (stem p ++ "_merged.pdf")%string)
        as [(page & msgs & E & Hmsgs)|(msgs & E & Hmsgs)];
        rewrite E in Hin; cbn [snd] in Hin; apply in_app_or in Hin;
        destruct Hin as [Hin|[<-|[]]].
      * apply Hmsgs in Hin. subst m. cbn in Hm. congruence.
      * cbn in Hm. symmetry. eapply PairedFacts.append_inj_l, Hm.
      * apply Hmsgs in Hin. subst m. cbn in Hm. congruence.
      * cbn in Hm. destruct Hm; congruence.
    + exfalso. apply (Hin s), Hm.
Qed.

(* ----------------------------------------------------------------- *)
(** *** C7 *)

(** C7, as stated, fails for negative indices: the code replaces an index
    by 0 only when it is at or past the page count, and the document
    accepts a negative page number, counting it backwards modulo the page
    count.  Index -3 on a document of two pages is out of range and
    renders the second page, not page 0. *)
Lemma pdf_to_image_page_fallback_counterexample :
  DualLayoutMerger.pdf_to_image (fun _ => Some two_page_pdf)
    {| stem := "invoice"; suffix := ".pdf" |} (-3) (Int 150)
  = Some {| width := 1754; height := 1240 |} /\
  DualLayoutMerger.pdf_to_image (fun _ => Some two_page_pdf)
    {| stem := "invoice"; suffix := ".pdf" |} 0 (Int 150)
  = Some {| width := 1240; height := 1754 |} /\
  ~ (forall fitz_open pdf_path (doc : Fitz.document) page_num dpi,
       fitz_open pdf_path = Some doc -> doc <> [] ->
       (page_num < - len doc \/ len doc <= page_num)%Z ->
       exists page0, nth_error doc 0 = Some page0 /\
         DualLayoutMerger.pdf_to_image fitz_open pdf_path page_num dpi
         = page0 (value (quotient dpi (Float 72)))).
Proof.
  split; [reflexivity|]. split; [reflexivity|].
  intros H.
  destruct (H (fun _ => Some two_page_pdf) {| stem := "invoice"; suffix := ".pdf" |}
              two_page_pdf (-3)%Z (Int 150) eq_refl ltac:(discriminate)
              ltac:(left; reflexivity)) as (page0 & E0 & E).
  injection E0 as <-. vm_compute in E. discriminate E.
Qed.

(** C7 (amended): for a PDF that opens, a requested index at or past the
    page count renders page 0; an index from 0 to the page count - 1
    renders exactly that page; a negative index is not replaced: it
    renders the page at that index modulo the page count (so -1 is the
    last page, and an index below minus the page count wraps around
    instead of falling back to page 0).  A document without pages renders
    nothing, whatever index from 0 on is asked for. *)
Theorem pdf_to_image_page_fallback
    (fitz_open : path -> option Fitz.document) (pdf_path : path)
    (doc : Fitz.document) (page_num : Z) (dpi : num) :
  fitz_open pdf_path = Some doc ->
  (doc <> [] -> (len doc <= page_num)%Z ->
     exists page0, nth_error doc 0 = Some page0 /\
       DualLayoutMerger.pdf_to_image fitz_open pdf_path page_num dpi
       = page0 (value (quotient dpi (Float 72)))) /\
  ((0 <= page_num < len doc)%Z ->
     exists page, nth_error doc (Z.to_nat page_num) = Some page /\
       DualLayoutMerger.pdf_to_image fitz_open pdf_path page_num dpi
       = page (value (quotient dpi (Float 72)))) /\
  (doc <> [] -> (page_num < 0)%Z ->
     exists page, nth_error doc (Z.to_nat (page_num mod len doc)) = Some page /\
       DualLayoutMerger.pdf_to_image fitz_open pdf_path page_num dpi
       = page (value (quotient dpi (Float 72)))) /\
  (doc = [] -> (0 <= page_num)%Z ->
     DualLayoutMerger.pdf_to_image fitz_open pdf_path page_num dpi = None).
Proof.
  intros Ho. unfold DualLayoutMerger.pdf_to_image. rewrite Ho.
  split; [|split; [|split]].
  - intros Hne Hge. destruct doc as [|p0 doc']; [congruence|].
    exists p0. split; [reflexivity|].
    destruct (Z.geb_spec page_num (len (p0 :: doc'))) as [_|H]; [|lia].
    reflexivity.
  - intros [Hp Hlt].
    destruct (Z.geb_spec page_num (len doc)) as [H|_]; [lia|].
    replace (Fitz.getitem doc page_num) with (nth_error doc (Z.to_nat page_num))
      by (rewrite <- RasterFacts.fitz_getitem_nat, Z2Nat.id by exact Hp; reflexivity).
    destruct (nth_error doc (Z.to_nat page_num)) as [p|] eqn:E.
    + exists p. split; reflexivity.
    + exfalso. apply nth_error_None in E. unfold len in Hlt. lia.
  - intros Hne Hneg.
    assert (Hlen : (0 < len doc)%Z).
    { unfold len. destruct doc; [congruence | cbn; lia]. }
    destruct (Z.geb_spec page_num (len doc)) as [H|_]; [lia|].
    unfold Fitz.getitem.
    destruct (Z.ltb_spec page_num 0) as [_|]; [|lia].
    destruct doc as [|p0 doc']; [congruence|].
    pose proof (Z.mod_pos_bound page_num (len (p0 :: doc')) Hlen) as Hb.
    destruct (nth_error (p0 :: doc') (Z.to_nat (page_num mod len (p0 :: doc'))))
      as [p|] eqn:E.
    + exists p. split; reflexivity.
    + exfalso. apply nth_error_None in E. unfold len in Hb, E. lia.
  - intros -> Hp.
    destruct (Z.geb_spec page_num (len (@nil Fitz.page))) as [_|H];
      [reflexivity | unfold len in H; cbn in H; lia].
Qed.

Lemma pdf_to_image_page_fallback_witness :
  DualLayoutMerger.pdf_to_image (fun _ => Some two_page_pdf)
    {| stem := "invoice"; suffix := ".pdf" |} 7 (Int 150)
  = Some {| width := 1240; height := 1754 |} /\
  DualLayoutMerger.pdf_to_image (fun _ => Some two_page_pdf)
    {| stem := "invoice"; suffix := ".pdf" |} (-1) (Int 150)
  = Some {| width := 1754; height := 1240 |}.
Proof.
  split.
  - destruct (pdf_to_image_page_fallback (fun _ => Some two_page_pdf)
                {| stem := "invoice"; suffix := ".pdf" |} two_page_pdf 7 (Int 150)
                eq_refl) as [A _].
    destruct (A ltac:(discriminate) ltac:(vm_compute; discriminate)) as (p0 & E0 & ->).
    injection E0 as <-. reflexivity.
  - destruct (pdf_to_image_page_fallback (fun _ => Some two_page_pdf)
                {| stem := "invoice"; suffix := ".pdf" |} two_page_pdf (-1) (Int 150)
                eq_refl) as (_ & _ & B & _).
    destruct (B ltac:(discriminate) ltac:(reflexivity)) as (p & E & ->).
    injection E as <-. reflexivity.
Defined.

(* ----------------------------------------------------------------- *)
(** *** C8 *)

(** C8, as stated, fails for two of the three variants.  Grid: given
    a.pdf and B.pdf it places B before a, the order of the code points (in
    which the paths of one folder compare on a POSIX system), not of the
    names without case.  Paired, on every system: a folder listed as b.pdf,
    b.png, a.pdf, a.png is processed b first, since nothing is sorted.
    (The names are ASCII, so their lower-casing is the same everywhere.) *)
Lemma processing_order_counterexample :
  ~ (forall fitz_open pdf_files max_cols cell_width cell_height g,
       PDFToImageMerger.process_pdfs_to_merged_image fitz_open (Some pdf_files)
         max_cols cell_width cell_height = Ok (Some g) ->
       Sorted (Order.key_le
                 (fun c => lower (GridSpec.caption_stem (PDFToImageMerger.caption c))))
              (PDFToImageMerger.cells g)) /\
  ~ (forall entries,
       Sorted (Order.key_le (fun pr => lower (name (fst pr))))
              (fst (PDFInvoiceMerger.get_file_pairs (Some entries)))).
Proof.
  split.
  - intros H.
    pose (files := [ {| stem := "a"; suffix := ".pdf" |};
                     {| stem := "B"; suffix := ".pdf" |} ]%string).
    assert (E : exists g,
               PDFToImageMerger.process_pdfs_to_merged_image one_page_pdf (Some files)
                 4 400 500 = Ok (Some g) /\
               map PDFToImageMerger.caption (PDFToImageMerger.cells g)
               = [PDFToImageMerger.Plain "B"; PDFToImageMerger.Plain "a"]%string).
    { eexists. split; vm_compute; reflexivity. }
    destruct E as (g & Eg & Ec).
    specialize (H one_page_pdf files 4%Z 400%Z 500%Z g Eg).
    destruct (PDFToImageMerger.cells g) as [|c1 [|c2 [|c3 cs]]]; try discriminate Ec.
    injection Ec as E1 E2.
    inversion H as [|? ? _ Hd]; subst. inversion Hd as [|? ? Hle]; subst.
    unfold Order.key_le in Hle. rewrite E1, E2 in Hle. vm_compute in Hle. discriminate.
  - intros H.
    specialize (H unsorted_folder).
    assert (E : fst (PDFInvoiceMerger.get_file_pairs (Some unsorted_folder))
                = [ ({| stem := "b"; suffix := ".pdf" |}, {| stem := "b"; suffix := ".png" |});
                    ({| stem := "a"; suffix := ".pdf" |}, {| stem := "a"; suffix := ".png" |}) ]%string)
      by (vm_compute; reflexivity).
    rewrite E in H.
    inversion H as [|? ? _ Hd]; subst. inversion Hd as [|? ? Hle]; subst.
    vm_compute in Hle. discriminate.
Qed.

(** C8 (amended): each variant processes its items in a fixed order, and
    only the Dual-Slot variant keys it by the case-insensitive filename.
    Dual-Slot: the enumerated list is the supported files sorted by
    lower-cased name (whatever the lower-casing of the strings is), and it
    is processed in that order.  Grid: the PDFs are processed sorted by
    path, which on a POSIX system is the order of the names compared by
    code point (upper case before lower case).  Paired: nothing is sorted;
    the pairs follow the folder listing, each PDF stem at its first
    occurrence. *)
Theorem processing_order :
  (forall (str_lower : string -> string) (entries : list dir_entry),
     let all_files := DualLayoutMerger.get_all_files str_lower (Some entries) in
     Sorted (Order.key_le (fun x => str_lower (name x))) all_files /\
     Permutation all_files
       (map entry_path
          (filter (fun e =>
                     is_file e &&
                     (DualLayoutMerger.str_in (str_lower (suffix (entry_path e)))
                        DualLayoutMerger.supported_image_formats
                      || String.eqb (str_lower (suffix (entry_path e)))
                           DualLayoutMerger.supported_pdf_format))
                  entries)) /\
     forall fitz_open image_open page_width page_height,
       DualLayoutMerger.process_all_files str_lower fitz_open image_open
         page_width page_height (Some entries)
       = DualLayoutMerger.create_dual_layout_pdf str_lower fitz_open image_open
           page_width page_height all_files) /\
  (forall fitz_open (pdf_files : list path) max_cols cell_width cell_height,
     let sorted := sort_by name pdf_files in
     let items := flat_map (PDFToImageMerger.pages_of fitz_open) sorted in
     Sorted (Order.key_le name) sorted /\
     Permutation sorted pdf_files /\
     PDFToImageMerger.process_pdfs_to_merged_image fitz_open (Some pdf_files)
       max_cols cell_width cell_height
     = PDFToImageMerger.merge_images_to_grid (map fst items) (map snd items)
         cell_width cell_height max_cols) /\
  (forall (entries : list dir_entry),
     map (fun pr => stem (fst pr)) (fst (PDFInvoiceMerger.get_file_pairs (Some entries)))
     = filter (PairedSpec.has_image_b entries)
         (PairedSpec.first_occurrences [] (PairedSpec.pdf_stems entries))).
Proof.
  split; [|split].
  - intros str_lower entries all_files. split; [|split].
    + apply SortFacts.sort_by_sorted.
    + apply SortFacts.sort_by_perm.
    + intros. apply DualFacts.process_all_files_eq.
  - intros fitz_open pdf_files max_cols cell_width cell_height sorted items.
    split; [apply SortFacts.sort_by_sorted|].
    split; [apply SortFacts.sort_by_perm|].
    apply GridFacts.process_pdfs_eq.
  - intros entries. apply PairedFacts.pairs_order.
Qed.

(* ----------------------------------------------------------------- *)
(** *** C9 *)

(** C9, as stated, fails: with a native width of zero the computation
    raises ZeroDivisionError, not a geometry error of its own. *)
Lemma fit_invalid_geometry_counterexample :
  ~ (forall (img : image) (cw ch : num),
       ~ ((0 < width img)%Z /\ (0 < height img)%Z /\ 0 < value cw /\ 0 < value ch) ->
       exists e,
         DualLayoutMerger.resize_image_to_fit (Some img) cw ch true = Raise e /\
         e <> ZeroDivisionError).
Proof.
  intros H.
  destruct (H {| width := 0; height := 100 |} (Int 100) (Int 100)) as (e & E & N).
  - intros (A & _). revert A. cbn. lia.
  - vm_compute in E. congruence.
Qed.

(** C9 (amended): the fit computation validates nothing and has no
    geometry error of its own.  A native width of zero, or else a native
    height of zero, makes each copy raise ZeroDivisionError.  With both
    native sides non-zero each copy computes its size without a check and
    hands it to the resize, whose answer is the answer of the fit; for an
    image with positive sides and a cell with a side that is zero or
    negative, that answer is the ValueError of the resize. *)
Theorem fit_checks_no_geometry (img : image) (cw ch : num) :
  (width img = 0%Z ->
     DualLayoutMerger.resize_image_to_fit (Some img) cw ch true = Raise ZeroDivisionError /\
     PDFInvoiceMerger.resize_image_to_fit img cw ch = Raise ZeroDivisionError /\
     PDFToImageMerger.resize_image_proportionally img cw ch = Raise ZeroDivisionError) /\
  (width img <> 0%Z -> height img = 0%Z ->
     DualLayoutMerger.resize_image_to_fit (Some img) cw ch true = Raise ZeroDivisionError /\
     PDFInvoiceMerger.resize_image_to_fit img cw ch = Raise ZeroDivisionError /\
     PDFToImageMerger.resize_image_proportionally img cw ch = Raise ZeroDivisionError) /\
  (width img <> 0%Z -> height img <> 0%Z ->
     let size := Spec.scaled_size (width img) (height img) cw ch in
     DualLayoutMerger.resize_image_to_fit (Some img) cw ch true
     = (let! resized := PIL.resize img size in Ok (Some resized)) /\
     PDFInvoiceMerger.resize_image_to_fit img cw ch = PIL.resize img size /\
     PDFToImageMerger.resize_image_proportionally img cw ch = PIL.resize img size) /\
  ((0 < width img)%Z -> (0 < height img)%Z -> value cw <= 0 \/ value ch <= 0 ->
     DualLayoutMerger.resize_image_to_fit (Some img) cw ch true = Raise ValueError /\
     PDFInvoiceMerger.resize_image_to_fit img cw ch = Raise ValueError /\
     PDFToImageMerger.resize_image_proportionally img cw ch = Raise ValueError).
Proof.
  split; [|split; [|split]].
  - unfold DualLayoutMerger.resize_image_to_fit, PDFInvoiceMerger.resize_image_to_fit,
         PDFToImageMerger.resize_image_proportionally.
    intros ->. rewrite truediv_Int0. cbn [bind]. auto.
  - unfold DualLayoutMerger.resize_image_to_fit, PDFInvoiceMerger.resize_image_to_fit,
         PDFToImageMerger.resize_image_proportionally.
    intros Hw ->. rewrite (truediv_Int _ _ Hw), truediv_Int0. cbn [bind]. auto.
  - intros Hw Hh. apply fit_is_resize; assumption.
  - intros Hw Hh Hc. apply fit_raises; [assumption | assumption |].
    intros [F1 _].
    pose proof (scaled_size_nonpos (width img) (height img) cw ch Hw Hh Hc). lia.
Qed.

(* ----------------------------------------------------------------- *)
(** *** C10 *)

(** C10, as stated, fails: a cell more than 4 wide and more than 54 high
    does not make every image fit.  In a cell 5 x 55 the picture area is
    1 x 1, an 800 x 600 image is scaled to a height of 0, and the resize
    raises ValueError: there is no resized-then-labelled image, and no
    composite. *)
Lemma grid_cells_contained_counterexample :
  PDFToImageMerger.merge_images_to_grid [{| width := 800; height := 600 |}]
    [PDFToImageMerger.Plain "photo"] 5 55 4 = Raise ValueError /\
  ~ (forall (all_images : list image) (image_labels : list PDFToImageMerger.label)
            (cell_width cell_height max_cols : Z),
       all_images <> [] -> List.length image_labels = List.length all_images ->
       (0 < max_cols)%Z -> (4 < cell_width)%Z -> (54 < cell_height)%Z ->
       Forall (fun img => (0 < width img)%Z /\ (0 < height img)%Z) all_images ->
       exists g,
         PDFToImageMerger.merge_images_to_grid all_images image_labels
           cell_width cell_height max_cols = Ok (Some g) /\
         forall c, In c (PDFToImageMerger.cells g) ->
           (width (PDFToImageMerger.labeled_image c) <= cell_width /\
            height (PDFToImageMerger.labeled_image c) <= cell_height)%Z).
Proof.
  assert (R : PDFToImageMerger.merge_images_to_grid [{| width := 800; height := 600 |}]
                [PDFToImageMerger.Plain "photo"] 5 55 4 = Raise ValueError)
    by (vm_compute; reflexivity).
  split; [exact R|].
  intros H.
  destruct (H [{| width := 800; height := 600 |}] [PDFToImageMerger.Plain "photo"]
              5%Z 55%Z 4%Z) as (g & E & _).
  - discriminate.
  - reflexivity.
  - reflexivity.
  - reflexivity.
  - reflexivity.
  - repeat constructor.
  - rewrite R in E. discriminate E.
Qed.

(** C10 (amended): in the Grid variant (margin 20, border 2, caption band
    24 + 20), for a non-empty sequence of images with positive sides and
    as many labels, a positive maxCols and a cell more than 4 wide and
    more than 54 high (sizes a machine holds: fewer than 2^53 items, cell
    sides up to 2^51): when every image keeps at least one pixel on each
    side in the picture area of the cell, the composite has one cell per
    item; the cell of item i stands at column i mod cols and row
    i div cols; its labelled image is no larger than the cell and is
    pasted at non-negative offsets inside it; the cell lies inside the
    canvas; and two different cells do not overlap.  When some image does
    not, the run stops with ValueError and there is no composite. *)
Theorem grid_cells_contained
    (all_images : list image) (image_labels : list PDFToImageMerger.label)
    (cell_width cell_height max_cols : Z) :
  all_images <> [] -> List.length image_labels = List.length all_images ->
  (len all_images < 2 ^ 53)%Z -> (0 < max_cols)%Z ->
  (4 < cell_width <= 2 ^ 51)%Z -> (54 < cell_height <= 2 ^ 51)%Z ->
  Forall (fun img => (0 < width img)%Z /\ (0 < height img)%Z) all_images ->
  let cols := Z.min max_cols (len all_images) in
  (Forall (GridSpec.placeable cell_width cell_height) all_images ->
   exists g,
    PDFToImageMerger.merge_images_to_grid all_images image_labels
      cell_width cell_height max_cols = Ok (Some g) /\
    List.length (PDFToImageMerger.cells g) = List.length all_images /\
    (forall (i : nat) (c : PDFToImageMerger.cell),
       nth_error (PDFToImageMerger.cells g) i = Some c ->
       (PDFToImageMerger.x c
        = (Z.of_nat i mod cols) * (cell_width + PDFToImageMerger.margin)
          + PDFToImageMerger.margin /\
        PDFToImageMerger.y c
        = (Z.of_nat i / cols) * (cell_height + PDFToImageMerger.margin)
          + PDFToImageMerger.margin /\
        1 <= width (PDFToImageMerger.labeled_image c) <= cell_width /\
        1 <= height (PDFToImageMerger.labeled_image c) <= cell_height /\
        0 <= PDFToImageMerger.paste_x c /\
        PDFToImageMerger.paste_x c + width (PDFToImageMerger.labeled_image c)
          <= cell_width /\
        0 <= PDFToImageMerger.paste_y c /\
        PDFToImageMerger.paste_y c + height (PDFToImageMerger.labeled_image c)
          <= cell_height /\
        0 <= PDFToImageMerger.x c /\
        PDFToImageMerger.x c + cell_width <= PDFToImageMerger.canvas_width g /\
        0 <= PDFToImageMerger.y c /\
        PDFToImageMerger.y c + cell_height <= PDFToImageMerger.canvas_height g)%Z) /\
    (forall (i j : nat) (c1 c2 : PDFToImageMerger.cell),
       i <> j ->
       nth_error (PDFToImageMerger.cells g) i = Some c1 ->
       nth_error (PDFToImageMerger.cells g) j = Some c2 ->
       GridSpec.disjoint cell_width cell_height c1 c2)) /\
  (Exists (fun img => ~ GridSpec.placeable cell_width cell_height img) all_images ->
   PDFToImageMerger.merge_images_to_grid all_images image_labels
     cell_width cell_height max_cols = Raise ValueError).
Proof.
  intros Hne Hlen Hn Hm Hcw Hch Hall cols.
  split; [|intros Hex; apply GridFacts.merge_images_to_grid_raises;
            assumption || lia].
  intros Hfit.
  assert (Hpos : (0 < len all_images)%Z).
  { unfold len. destruct all_images; [congruence | cbn; lia]. }
  assert (Hc : (0 < cols)%Z) by (unfold cols; lia).
  eexists. split; [apply GridFacts.merge_images_to_grid_spec; assumption || lia|].
  cbn [PDFToImageMerger.cells PDFToImageMerger.canvas_width
       PDFToImageMerger.canvas_height].
  fold cols.
  assert (Hcomb : List.length (combine all_images image_labels) = List.length all_images).
  { rewrite length_combine, Hlen. apply Nat.min_id. }
  (* every cell is the cell of an item of the sequence *)
  assert (Hcell : forall i c,
             nth_error (map (GridSpec.cell_of cell_width cell_height cols)
                            (enumerate (combine all_images image_labels))) i = Some c ->
             exists img lab,
               c = GridSpec.cell_of cell_width cell_height cols (Z.of_nat i, (img, lab)) /\
               nth_error all_images i = Some img).
  { intros i c H. rewrite nth_error_map in H.
    destruct (nth_error (enumerate (combine all_images image_labels)) i)
      as [[k [img lab]]|] eqn:E; [|discriminate].
    injection H as <-.
    apply GridFacts.nth_error_enumerate in E. cbn [fst snd] in E. destruct E as [-> E].
    exists img, lab. split; [reflexivity|].
    clear -E. revert image_labels i E.
    induction all_images as [|a l IH]; intros [|b bs] [|i] E; cbn in *; try discriminate.
    - injection E as <- _. reflexivity.
    - eapply IH, E. }
  split; [rewrite length_map, GridFacts.enumerate_length; exact Hcomb|]. split.
  - intros i c H. destruct (Hcell i c H) as (img & lab & -> & Hi).
    assert (Hin : In img all_images) by (eapply nth_error_In, Hi).
    rewrite Forall_forall in Hall. destruct (Hall img Hin) as [Hw Hh].
    rewrite Forall_forall in Hfit. destruct (Hfit img Hin) as (_ & _ & F1 & F2).
    assert (Hlt : (i < List.length all_images)%nat) by (apply nth_error_Some; congruence).
    pose proof (GridFacts.cell_geometry cell_width cell_height max_cols (len all_images)
                  (Z.of_nat i) img lab Hpos Hm
                  ltac:(unfold len; lia) Hw Hh Hcw Hch) as G.
    cbv zeta in G. fold cols in G.
    split; [reflexivity|]. split; [reflexivity|].
    assert (L1 : (1 <= width (PDFToImageMerger.labeled_image
                               (GridSpec.cell_of cell_width cell_height cols
                                  (Z.of_nat i, (img, lab)))))%Z) by exact F1.
    assert (L2 : (1 <= height (PDFToImageMerger.labeled_image
                                (GridSpec.cell_of cell_width cell_height cols
                                   (Z.of_nat i, (img, lab)))))%Z).
    { cbn [GridSpec.cell_of PDFToImageMerger.labeled_image GridSpec.labelled
           GridSpec.fitted height fst snd].
      lia. }
    tauto.
  - intros i j c1 c2 Hij H1 H2.
    destruct (Hcell i c1 H1) as (img1 & lab1 & -> & _).
    destruct (Hcell j c2 H2) as (img2 & lab2 & -> & _).
    apply GridFacts.cells_disjoint; lia.
Qed.

Lemma grid_cells_contained_witness :
  exists g,
    PDFToImageMerger.merge_images_to_grid five_pages five_labels 400 500 4 = Ok (Some g) /\
    List.length (PDFToImageMerger.cells g) = 5%nat.
Proof.
  destruct (grid_cells_contained five_pages five_labels 400 500 4)
    as (P & _).
  - discriminate.
  - reflexivity.
  - reflexivity.
  - reflexivity.
  - split; [reflexivity | discriminate].
  - split; [reflexivity | discriminate].
  - exact sound_five_pages.
  - destruct (P five_pages_placeable) as (g & E & L & _).
    exists g. split; [exact E | exact L].
Defined.

(* ================================================================= *)
(** ** Further properties of the three variants *)

Import ScaleFacts LayoutFacts.

(* ----------------------------------------------------------------- *)
(** *** The fit computation *)

(** X1: an image that already fits its cell (each native side at most
    the cell side) is never made smaller: the fit has no cap at scale 1, so
    both scaled sides are at least the native ones, in each of the three
    copies of the computation. *)
Theorem fit_enlarges_image_that_fits (img : image) (cw ch : num) :
  (0 < width img < 2 ^ 53)%Z -> (0 < height img < 2 ^ 53)%Z ->
  inject_Z (width img) <= value cw -> inject_Z (height img) <= value ch ->
  exists scaled,
    DualLayoutMerger.resize_image_to_fit (Some img) cw ch true = Ok (Some scaled) /\
    PDFInvoiceMerger.resize_image_to_fit img cw ch = Ok scaled /\
    PDFToImageMerger.resize_image_proportionally img cw ch = Ok scaled /\
    (width img <= width scaled)%Z /\ (height img <= height scaled)%Z.
Proof.
  intros Hw Hh Lw Lh.
  pose proof (inject_Z_pos (width img) ltac:(lia)) as HW.
  pose proof (inject_Z_pos (height img) ltac:(lia)) as HH.
  destruct (scaled_size_eval (width img) (height img) cw ch
              ltac:(lia) ltac:(lia) ltac:(lra) ltac:(lra))
    as (r1 & r2 & s & E1 & E2 & Hs & L1 & L2 & Hc & Es).
  destruct (quotient_ge_one cw (width img) Hw Lw) as (r1' & E1' & G1).
  destruct (quotient_ge_one ch (height img) Hh Lh) as (r2' & E2' & G2).
  rewrite E1 in E1'. injection E1' as <-. rewrite E2 in E2'. injection E2' as <-.
  assert (S1 : 1 <= s) by (destruct Hc as [-> | ->]; assumption).
  pose proof (scaled_ge_native (width img) s Hw S1) as Gw.
  pose proof (scaled_ge_native (height img) s Hh S1) as Gh.
  destruct (fit_outcome img cw ch _ _ ltac:(lia) ltac:(lia) Es) as [R _].
  destruct R as (D & P & G); [lia|].
  eexists. split; [exact D|]. split; [exact P|]. split; [exact G|].
  cbn [width height]. split; assumption.
Qed.

Lemma fit_enlarges_image_that_fits_witness :
  exists scaled,
    PDFToImageMerger.resize_image_proportionally {| width := 100; height := 80 |}
      (Int 396) (Int 446) = Ok scaled /\
    (100 <= width scaled)%Z /\ (80 <= height scaled)%Z.
Proof.
  destruct (fit_enlarges_image_that_fits {| width := 100; height := 80 |}
              (Int 396) (Int 446)) as (scaled & _ & _ & G & W & H).
  - split; reflexivity.
  - split; reflexivity.
  - vm_compute. discriminate.
  - vm_compute. discriminate.
  - exists scaled. auto.
Defined.

(** X2: an image that reaches or exceeds its cell on some axis is never
    enlarged: the size the fit computes lies between zero and the native
    size on both axes; each of the three copies returns the image resized
    to it when both of its sides are at least 1, and raises ValueError in
    the resize when one of them is 0 (a strip too thin for the cell). *)
Theorem fit_shrinks_image_that_overflows (img : image) (cw ch : num) :
  (0 < width img < 2 ^ 53)%Z -> (0 < height img < 2 ^ 53)%Z ->
  0 < value cw -> 0 < value ch ->
  value cw <= inject_Z (width img) \/ value ch <= inject_Z (height img) ->
  exists scaledW scaledH : Z,
    Spec.scaled_size (width img) (height img) cw ch = (scaledW, scaledH) /\
    (0 <= scaledW <= width img)%Z /\ (0 <= scaledH <= height img)%Z /\
    ((1 <= scaledW)%Z /\ (1 <= scaledH)%Z ->
       DualLayoutMerger.resize_image_to_fit (Some img) cw ch true
       = Ok (Some {| width := scaledW; height := scaledH |}) /\
       PDFInvoiceMerger.resize_image_to_fit img cw ch
       = Ok {| width := scaledW; height := scaledH |} /\
       PDFToImageMerger.resize_image_proportionally img cw ch
       = Ok {| width := scaledW; height := scaledH |}) /\
    (scaledW = 0%Z \/ scaledH = 0%Z ->
       DualLayoutMerger.resize_image_to_fit (Some img) cw ch true = Raise ValueError /\
       PDFInvoiceMerger.resize_image_to_fit img cw ch = Raise ValueError /\
       PDFToImageMerger.resize_image_proportionally img cw ch = Raise ValueError).
Proof.
  intros Hw Hh Hcw Hch Hover.
  destruct (scaled_size_eval (width img) (height img) cw ch
              ltac:(lia) ltac:(lia) Hcw Hch)
    as (r1 & r2 & s & E1 & E2 & Hs & L1 & L2 & Hc & Es).
  assert (S1 : s <= 1).
  { destruct Hover as [Lw|Lh].
    - destruct (quotient_le_one cw (width img) Hw Hcw Lw) as (r & E & Hr).
      rewrite E1 in E. injection E as <-. lra.
    - destruct (quotient_le_one ch (height img) Hh Hch Lh) as (r & E & Hr).
      rewrite E2 in E. injection E as <-. lra. }
  assert (N : forall w, (0 < w)%Z -> (0 <= Qfloor (rnd (to_float (Int w) * s)))%Z).
  { intros w Hw0. change 0%Z with (Qfloor 0). apply Qfloor_resp_le.
    apply rnd_nonneg, Qmult_le_0_compat; [|lra].
    apply Qlt_le_weak, rnd_pos, inject_Z_pos, Hw0. }
  destruct (fit_outcome img cw ch _ _ ltac:(lia) ltac:(lia) Es) as [R1 R2].
  eexists _, _. split; [exact Es|].
  split; [split; [apply N; lia | apply scaled_le_native; assumption]|].
  split; [split; [apply N; lia | apply scaled_le_native; assumption]|].
  split; [exact R1|].
  intros Hz. apply R2. lia.
Qed.

Lemma fit_shrinks_image_that_overflows_witness :
  PDFInvoiceMerger.resize_image_to_fit {| width := 1240; height := 1754 |}
    (Int 555) (Int 400) = Ok {| width := 282; height := 400 |}.
Proof.
  destruct (fit_shrinks_image_that_overflows {| width := 1240; height := 1754 |}
              (Int 555) (Int 400)) as (scaledW & scaledH & E & _ & _ & R & _).
  - split; reflexivity.
  - split; reflexivity.
  - reflexivity.
  - reflexivity.
  - left. vm_compute. discriminate.
  - vm_compute in E. injection E as <- <-.
    destruct R as (_ & P & _); [split; discriminate | exact P].
Defined.

(** X3: the fit keeps the aspect ratio up to the truncation of one pixel:
    for native and cell sides up to 2^24, the cross products
    scaledW * nativeH and scaledH * nativeW of the size the fit computes
    differ by at most the native width one way and the native height the
    other; each of the three copies returns the image resized to that size
    when both of its sides are at least 1, and raises ValueError in the
    resize when one of them is 0. *)
Theorem fit_keeps_aspect_ratio (img : image) (cw ch : num) :
  (0 < width img < 2 ^ 24)%Z -> (0 < height img < 2 ^ 24)%Z ->
  0 < value cw -> value cw <= inject_Z (2 ^ 24) ->
  0 < value ch -> value ch <= inject_Z (2 ^ 24) ->
  exists scaledW scaledH : Z,
    Spec.scaled_size (width img) (height img) cw ch = (scaledW, scaledH) /\
    (- height img <= scaledW * height img - scaledH * width img <= width img)%Z /\
    ((1 <= scaledW)%Z /\ (1 <= scaledH)%Z ->
       DualLayoutMerger.resize_image_to_fit (Some img) cw ch true
       = Ok (Some {| width := scaledW; height := scaledH |}) /\
       PDFInvoiceMerger.resize_image_to_fit img cw ch
       = Ok {| width := scaledW; height := scaledH |} /\
       PDFToImageMerger.resize_image_proportionally img cw ch
       = Ok {| width := scaledW; height := scaledH |}) /\
    ((scaledW < 1)%Z \/ (scaledH < 1)%Z ->
       DualLayoutMerger.resize_image_to_fit (Some img) cw ch true = Raise ValueError /\
       PDFInvoiceMerger.resize_image_to_fit img cw ch = Raise ValueError /\
       PDFToImageMerger.resize_image_proportionally img cw ch = Raise ValueError).
Proof.
  intros Hw Hh Hcw Hcw' Hch Hch'.
  assert (Hw53 : (0 < width img < 2 ^ 53)%Z) by lia.
  assert (Hh53 : (0 < height img < 2 ^ 53)%Z) by lia.
  destruct (scaled_size_eval (width img) (height img) cw ch
              ltac:(lia) ltac:(lia) Hcw Hch)
    as (r1 & r2 & s & E1 & E2 & Hs & L1 & L2 & Hc & Es).
  destruct (fit_outcome img cw ch _ _ ltac:(lia) ltac:(lia) Es) as [R1 R2].
  eexists _, _. split; [exact Es|]. split; [|split; [exact R1 | exact R2]].
  pose proof (scaled_close (width img) (height img) cw ch r1 r2 s
                Hw53 Hh53 Hcw Hch E1 E2 Hs L1 L2 Hc) as [Wl Wu].
  pose proof (scaled_close (height img) (width img) ch cw r2 r1 s
                Hh53 Hw53 Hch Hcw E2 E1 Hs L2 L1 ltac:(tauto)) as [Hl Hu].
  cbv zeta in Wl, Wu, Hl, Hu.
  set (pw := rnd (to_float (Int (width img)) * s)) in *.
  set (ph := rnd (to_float (Int (height img)) * s)) in *.
  set (W := inject_Z (width img)) in *. set (H := inject_Z (height img)) in *.
  assert (HW : 0 < W) by (apply inject_Z_pos; lia).
  assert (HH : 0 < H) by (apply inject_Z_pos; lia).
  assert (BW : W <= 16777216)
    by (unfold W; change 16777216 with (inject_Z (2 ^ 24)); rewrite <- Zle_Qle; lia).
  assert (BH : H <= 16777216)
    by (unfold H; change 16777216 with (inject_Z (2 ^ 24)); rewrite <- Zle_Qle; lia).
  change (inject_Z (2 ^ 24)) with 16777216 in Hcw', Hch'.
  set (sg := Qmin (value cw / W) (value ch / H)) in *.
  assert (Esg : Qmin (value ch / H) (value cw / W) == sg) by apply Q.min_comm.
  rewrite Esg in Hl, Hu.
  assert (Sg0 : 0 < sg).
  { unfold sg. destruct (Q.min_spec (value cw / W) (value ch / H)) as [[_ E]|[_ E]];
      rewrite E; apply Qlt_shift_div_l; lra. }
  assert (SgW : W * sg <= value cw).
  { apply Qle_trans with (W * (value cw / W)).
    - apply Qmult_le_l; [exact HW | apply Q.le_min_l].
    - apply Qle_lteq. right. field. lra. }
  assert (SgH : H * sg <= value ch).
  { apply Qle_trans with (H * (value ch / H)).
    - apply Qmult_le_l; [exact HH | apply Q.le_min_r].
    - apply Qle_lteq. right. field. lra. }
  set (t := W * sg * H).
  assert (Ht0 : 0 <= t).
  { unfold t. apply Qmult_le_0_compat; [apply Qmult_le_0_compat|]; lra. }
  assert (Ht : t <= 281474976710656).
  { unfold t. apply Qle_trans with (16777216 * H).
    - apply Qmult_le_compat_r; lra.
    - lra. }
  assert (Et : H * sg * W == t) by (unfold t; ring).
  set (p3 := (1 + u) * (1 + u) * (1 + u)) in *.
  set (m3 := (1 - u) * (1 - u) * (1 - u)) in *.
  assert (UpW : pw * H <= t * p3).
  { assert (X : pw * H <= W * sg * p3 * H) by (apply Qmult_le_compat_r; lra).
    assert (Y : W * sg * p3 * H == t * p3) by (unfold t; ring). lra. }
  assert (LoW : t * m3 <= pw * H).
  { assert (X : W * sg * m3 * H <= pw * H) by (apply Qmult_le_compat_r; lra).
    assert (Y : W * sg * m3 * H == t * m3) by (unfold t; ring). lra. }
  assert (UpH : ph * W <= t * p3).
  { assert (X : ph * W <= H * sg * p3 * W) by (apply Qmult_le_compat_r; lra).
    assert (Y : H * sg * p3 * W == t * p3) by (rewrite <- Et; ring). lra. }
  assert (LoH : t * m3 <= ph * W).
  { assert (X : H * sg * m3 * W <= ph * W) by (apply Qmult_le_compat_r; lra).
    assert (Y : H * sg * m3 * W == t * m3) by (rewrite <- Et; ring). lra. }
  pose proof (cross_product_close W H pw ph t _ _ HW HH Ht0 Ht UpW LoH eq_refl eq_refl) as C1.
  pose proof (cross_product_close H W ph pw t _ _ HH HW Ht0 Ht UpH LoW eq_refl eq_refl) as C2.
  unfold W, H in C1, C2.
  unfold Qminus in C1, C2.
  change 1 with (inject_Z 1) in C1, C2.
  rewrite <- !inject_Z_mult, <- !inject_Z_opp, <- !inject_Z_plus, <- Zlt_Qlt in C1, C2.
  lia.
Qed.

Lemma fit_keeps_aspect_ratio_witness :
  DualLayoutMerger.resize_image_to_fit (Some {| width := 1754; height := 1240 |})
    (Int 496) (Int 546) true = Ok (Some {| width := 495; height := 350 |}) /\
  (- 1240 <= 495 * 1240 - 350 * 1754 <= 1754)%Z.
Proof.
  destruct (fit_keeps_aspect_ratio {| width := 1754; height := 1240 |}
              (Int 496) (Int 546)) as (scaledW & scaledH & E & A & R & _).
  - split; reflexivity.
  - split; reflexivity.
  - reflexivity.
  - vm_compute. discriminate.
  - reflexivity.
  - vm_compute. discriminate.
  - vm_compute in E. injection E as <- <-.
    destruct R as (D & _); [split; discriminate|]. split; [exact D | exact A].
Defined.

(* ----------------------------------------------------------------- *)
(** *** dual_layout_merger.py *)

(** X4: on the A4 page of the Dual-Slot variant every image drawn (an
    image with positive sides that keeps at least one pixel on each side in
    the cell) lies between the left and right margins; drawn in the lower
    slot it lies between the bottom margin and the separator line, drawn in
    the upper slot between the separator line and the top margin.  So the
    two images of a page never overlap and never leave the page. *)
Theorem dual_images_inside_page
    (str_lower : string -> string)
    (fitz_open : path -> option Fitz.document)
    (image_open : path -> option (result image))
    (file : path) (img : image) (c : canvas) :
  DualLayoutMerger.rasterize str_lower fitz_open image_open file = Some (Ok img) ->
  (0 < width img)%Z -> (0 < height img)%Z ->
  Spec.fits img (DualLayoutMerger.cell_width A4_width)
                (DualLayoutMerger.cell_height A4_height) ->
  let margin := DualLayoutMerger.margin in
  exists x y_upper y_lower w h mid,
    DualLayoutMerger.draw_upper str_lower fitz_open image_open A4_width A4_height file c
    = Ok (draw (DrawString margin (add (sub A4_height margin) (Int 5)) (name file))
            (draw (DrawImage x y_upper (Int w) (Int h)) c)) /\
    DualLayoutMerger.draw_lower str_lower fitz_open image_open A4_width A4_height file c
    = Ok (draw (DrawString margin (sub margin (Int 15)) (name file))
            (draw (DrawImage x y_lower (Int w) (Int h)) c)) /\
    DualLayoutMerger.separator A4_width A4_height
    = Line margin mid (sub A4_width margin) mid /\
    (1 <= w)%Z /\ (1 <= h)%Z /\
    value margin <= value x /\
    value x + inject_Z w <= value (sub A4_width margin) /\
    value margin <= value y_lower /\
    value y_lower + inject_Z h <= value mid /\
    value mid <= value y_upper /\
    value y_upper + inject_Z h <= value (sub A4_height margin).
Proof.
  intros Hr Hw Hh Hfit margin. subst margin.
  destruct rounding_safe_A4_dual as [Sw Sh].
  destruct (scaled_in_safe_cell (width img) (height img)
              (DualLayoutMerger.cell_width A4_width)
              (DualLayoutMerger.cell_height A4_height) Hw Hh
              ltac:(vm_compute; reflexivity) ltac:(vm_compute; reflexivity) Sw Sh)
    as (W0 & H0 & Wc & Hc).
  destruct (fit_returns img (DualLayoutMerger.cell_width A4_width)
              (DualLayoutMerger.cell_height A4_height) ltac:(lia) ltac:(lia) Hfit)
    as (D & _).
  destruct Hfit as [F1 F2].
  set (scaled := {| width := fst (Spec.scaled_size (width img) (height img)
                                    (DualLayoutMerger.cell_width A4_width)
                                    (DualLayoutMerger.cell_height A4_height));
                    height := snd (Spec.scaled_size (width img) (height img)
                                     (DualLayoutMerger.cell_width A4_width)
                                     (DualLayoutMerger.cell_height A4_height)) |}) in *.
  change (fst (Spec.scaled_size (width img) (height img)
                 (DualLayoutMerger.cell_width A4_width)
                 (DualLayoutMerger.cell_height A4_height)))
    with (width scaled) in W0, Wc, F1.
  change (snd (Spec.scaled_size (width img) (height img)
                 (DualLayoutMerger.cell_width A4_width)
                 (DualLayoutMerger.cell_height A4_height)))
    with (height scaled) in H0, Hc, F2.
  assert (UL :
    DualLayoutMerger.draw_upper str_lower fitz_open image_open A4_width A4_height file c
    = Ok (draw (DrawString DualLayoutMerger.margin
                  (add (sub A4_height DualLayoutMerger.margin) (Int 5)) (name file))
            (draw (DrawImage
                     (add DualLayoutMerger.margin
                        (quotient (sub (DualLayoutMerger.cell_width A4_width)
                                       (Int (width scaled))) (Int 2)))
                     (add (add (add DualLayoutMerger.margin
                                    (DualLayoutMerger.cell_height A4_height))
                               DualLayoutMerger.gap)
                          (quotient (sub (DualLayoutMerger.cell_height A4_height)
                                         (Int (height scaled))) (Int 2)))
                     (Int (width scaled)) (Int (height scaled))) c)) /\
    DualLayoutMerger.draw_lower str_lower fitz_open image_open A4_width A4_height file c
    = Ok (draw (DrawString DualLayoutMerger.margin
                  (sub DualLayoutMerger.margin (Int 15)) (name file))
            (draw (DrawImage
                     (add DualLayoutMerger.margin
                        (quotient (sub (DualLayoutMerger.cell_width A4_width)
                                       (Int (width scaled))) (Int 2)))
                     (add DualLayoutMerger.margin
                        (quotient (sub (DualLayoutMerger.cell_height A4_height)
                                       (Int (height scaled))) (Int 2)))
                     (Int (width scaled)) (Int (height scaled))) c))).
  { unfold DualLayoutMerger.draw_upper, DualLayoutMerger.draw_lower,
           DualLayoutMerger.process_file_to_image.
    rewrite Hr. cbn [bind]. rewrite D. split; reflexivity. }
  destruct UL as [U L].
  eexists _, _, _, (width scaled), (height scaled), _.
  split; [exact U|]. split; [exact L|]. split; [reflexivity|].
  split; [exact F1|]. split; [exact F2|].
  pose proof (inject_Z_le_floor _ _ Wc) as Wz.
  pose proof (inject_Z_le_floor _ _ Hc) as Hz.
  assert (Wq : inject_Z (width scaled) <= 555)
    by (change 555 with (inject_Z 555); rewrite <- Zle_Qle; exact Wz).
  assert (Hq : inject_Z (height scaled) <= 395)
    by (change 395 with (inject_Z 395); rewrite <- Zle_Qle; exact Hz).
  assert (W53 : (0 <= width scaled < 2 ^ 53)%Z)
    by (split; [exact W0|]; eapply Z.le_lt_trans; [exact Wz|]; vm_compute; reflexivity).
  assert (H53 : (0 <= height scaled < 2 ^ 53)%Z)
    by (split; [exact H0|]; eapply Z.le_lt_trans; [exact Hz|]; vm_compute; reflexivity).
  assert (W0q : 0 <= inject_Z (width scaled))
    by (change 0 with (inject_Z 0); rewrite <- Zle_Qle; exact W0).
  assert (H0q : 0 <= inject_Z (height scaled))
    by (change 0 with (inject_Z 0); rewrite <- Zle_Qle; exact H0).
  pose proof u_val as Hu.
  (* the three starts, each against its exact value *)
  destruct (centered_start DualLayoutMerger.margin
              (DualLayoutMerger.cell_width A4_width) (width scaled)
              ltac:(vm_compute; discriminate) ltac:(vm_compute; reflexivity) W53 Wc)
    as (X0 & _ & X1).
  destruct (centered_start DualLayoutMerger.margin
              (DualLayoutMerger.cell_height A4_height) (height scaled)
              ltac:(vm_compute; discriminate) ltac:(vm_compute; reflexivity) H53 Hc)
    as (L0 & _ & L1).
  destruct (centered_start
              (add (add DualLayoutMerger.margin (DualLayoutMerger.cell_height A4_height))
                   DualLayoutMerger.gap)
              (DualLayoutMerger.cell_height A4_height) (height scaled)
              ltac:(vm_compute; discriminate) ltac:(vm_compute; reflexivity) H53 Hc)
    as (U0 & _ & U1).
  cbv zeta in X1, L1, U1. unfold Spec.offset in X1, L1, U1.
  set (x := add DualLayoutMerger.margin
              (quotient (sub (DualLayoutMerger.cell_width A4_width) (Int (width scaled)))
                        (Int 2))) in *.
  set (yl := add DualLayoutMerger.margin
               (quotient (sub (DualLayoutMerger.cell_height A4_height)
                              (Int (height scaled))) (Int 2))) in *.
  set (yu := add (add (add DualLayoutMerger.margin (DualLayoutMerger.cell_height A4_height))
                      DualLayoutMerger.gap)
               (quotient (sub (DualLayoutMerger.cell_height A4_height)
                              (Int (height scaled))) (Int 2))) in *.
  set (cwv := value (DualLayoutMerger.cell_width A4_width)) in *.
  set (chv := value (DualLayoutMerger.cell_height A4_height)) in *.
  assert (Ecw : cwv <= 555276 # 1000) by (vm_compute; discriminate).
  assert (Ech : chv <= 395945 # 1000) by (vm_compute; discriminate).
  set (om := to_float DualLayoutMerger.margin) in *.
  assert (Eom : om == 20) by (vm_compute; reflexivity).
  set (ou := to_float (add (add DualLayoutMerger.margin
                              (DualLayoutMerger.cell_height A4_height))
                           DualLayoutMerger.gap)) in *.
  assert (Eou : 425944 # 1000 <= ou <= 425945 # 1000)
    by (split; vm_compute; discriminate).
  set (mid := value (add (add DualLayoutMerger.margin
                            (DualLayoutMerger.cell_height A4_height))
                         (quotient DualLayoutMerger.gap (Int 2)))).
  assert (Emid : 420944 # 1000 <= mid <= 420945 # 1000)
    by (split; vm_compute; discriminate).
  set (right := value (sub A4_width DualLayoutMerger.margin)).
  assert (Eright : 575275 # 1000 <= right) by (vm_compute; discriminate).
  set (top := value (sub A4_height DualLayoutMerger.margin)).
  assert (Etop : 821889 # 1000 <= top) by (vm_compute; discriminate).
  change (value DualLayoutMerger.margin) with 20.
  assert (Dw : (cwv - inject_Z (width scaled)) / 2
               == (cwv - inject_Z (width scaled)) * (1#2)) by reflexivity.
  assert (Dh : (chv - inject_Z (height scaled)) / 2
               == (chv - inject_Z (height scaled)) * (1#2)) by reflexivity.
  rewrite Dw in X1. rewrite Dh in L1, U1.
  rewrite Hu in X1, L1, U1.
  repeat split; lra.
Qed.

Lemma dual_images_inside_page_witness :
  exists x y_upper w h,
    DualLayoutMerger.draw_upper lower no_pdf (intact any_scan) A4_width A4_height
      {| stem := "a"; suffix := ".png" |} Canvas
    = Ok (draw (DrawString DualLayoutMerger.margin
                  (add (sub A4_height DualLayoutMerger.margin) (Int 5)) "a.png")
            (draw (DrawImage x y_upper (Int w) (Int h)) Canvas)) /\
    value x + inject_Z w <= value (sub A4_width DualLayoutMerger.margin) /\
    value y_upper + inject_Z h <= value (sub A4_height DualLayoutMerger.margin).
Proof.
  destruct (dual_images_inside_page lower no_pdf (intact any_scan)
              {| stem := "a"; suffix := ".png" |}
              {| width := 1240; height := 1754 |} Canvas)
    as (x & yu & yl & w & h & mid & U & _ & _ & _ & _ & _ & X & _ & _ & _ & Y).
  - reflexivity.
  - reflexivity.
  - reflexivity.
  - split; vm_compute; discriminate.
  - exists x, yu, w, h. split; [exact U|]. split; [exact X | exact Y].
Defined.

(** X5: when every image can be fitted (its pixels can be read and it
    keeps at least one pixel on each side in the cell), the names written on the pages of the Dual-Slot output, read in
    page order, are the names of the files that have an image, each once
    and in list order; and there are as many images as such files.  No file
    is lost, repeated or reordered. *)
Theorem dual_draws_each_file_once
    (str_lower : string -> string)
    (fitz_open : path -> option Fitz.document)
    (image_open : path -> option (result image))
    (page_width page_height : num) (all_files : list path) :
  Forall (DualPages.drawable str_lower fitz_open image_open page_width page_height)
         all_files ->
  (len all_files < 2 ^ 53)%Z -> all_files <> [] ->
  exists pages,
    DualLayoutMerger.create_dual_layout_pdf str_lower fitz_open image_open
      page_width page_height all_files = Ok (Some pages) /\
    flat_map Drawn.texts pages
    = map name (filter (DualShown.has_image str_lower fitz_open image_open) all_files) /\
    List.length (flat_map Drawn.images pages)
    = List.length (filter (DualShown.has_image str_lower fitz_open image_open) all_files).
Proof.
  intros Hs Hl Hne. eexists. split.
  - apply DualFacts.create_dual_layout_pdf_pages; assumption.
  - apply DualNames.paginate_texts.
Qed.

Lemma dual_draws_each_file_once_witness :
  exists pages,
    DualLayoutMerger.create_dual_layout_pdf lower no_pdf (intact any_scan) A4_width A4_height
      three_scans = Ok (Some pages) /\
    flat_map Drawn.texts pages = ["a.png"; "b.PNG"; "c.jpg"]%string.
Proof.
  destruct (dual_draws_each_file_once lower no_pdf (intact any_scan) A4_width A4_height
              three_scans) as (pages & E & T & _).
  - exact three_scans_drawable.
  - reflexivity.
  - discriminate.
  - exists pages. split; [exact E | exact T].
Defined.

(** X6: when no two enumerated files have the same lower-cased name
    (whatever the lower-casing of the strings is), the list the Dual-Slot
    variant works through does not depend on the order in which the system
    lists the folder. *)
Theorem dual_order_independent_of_listing
    (str_lower : string -> string) (entries entries' : list dir_entry) :
  Permutation entries entries' ->
  NoDup (map (fun x => str_lower (name x))
             (DualLayoutMerger.get_all_files str_lower (Some entries))) ->
  DualLayoutMerger.get_all_files str_lower (Some entries')
  = DualLayoutMerger.get_all_files str_lower (Some entries).
Proof.
  intros Hp Hn. unfold DualLayoutMerger.get_all_files in *. cbv zeta in *.
  symmetry. apply OrderFacts.sort_by_perm_eq.
  - apply Permutation_map, OrderFacts.filter_perm, Hp.
  - eapply Permutation_NoDup; [|exact Hn].
    apply Permutation_map, SortFacts.sort_by_perm.
Qed.

Lemma dual_order_independent_of_listing_witness :
  DualLayoutMerger.get_all_files lower (Some (rev unsorted_folder))
  = DualLayoutMerger.get_all_files lower (Some unsorted_folder).
Proof.
  apply (dual_order_independent_of_listing lower unsorted_folder (rev unsorted_folder)).
  - apply Permutation_rev.
  - vm_compute. repeat (constructor; [cbn; intuition discriminate|]). constructor.
Defined.

(* ----------------------------------------------------------------- *)
(** *** pdf_merger.py *)



(** X8: when several PDFs, or several images, of the folder share a stem,
    the pair of that stem is made of the last listed PDF and the last
    listed image with it: the pairs are exactly the (PDF, image) couples
    that are, for some stem, the last listed file of each kind. *)
Theorem paired_last_listed_file_wins (entries : list dir_entry) (p i : path) :
  In (p, i) (fst (PDFInvoiceMerger.get_file_pairs (Some entries))) <->
  exists s,
    PairedLast.last_listed PairedSpec.is_pdf entries s = Some p /\
    PairedLast.last_listed PairedSpec.is_image entries s = Some i.
Proof.
  rewrite PairedFacts.get_file_pairs_fst.
  destruct (PairedFacts.matching_spec (fst (PDFInvoiceMerger.scan entries [] []))
              (snd (PDFInvoiceMerger.scan entries [] [])))
    as (M & _ & _).
  destruct (PairedFacts.scan_spec entries [] []) as (_ & _ & N1 & _ & _ & _).
  specialize (N1 (NoDup_nil _)).
  rewrite M. split.
  - intros (k & Hin & Hi). exists k.
    apply (DictFacts.In_dict_get _ _ _ N1) in Hin.
    destruct (PairedMore.scan_last entries [] [] k) as [A B]. rewrite A in Hin. rewrite B in Hi.
    destruct (PairedLast.last_listed PairedSpec.is_pdf entries k); [|discriminate Hin].
    destruct (PairedLast.last_listed PairedSpec.is_image entries k); [|discriminate Hi].
    split; congruence.
  - intros (s & Hp & Hi). exists s.
    destruct (PairedMore.scan_last entries [] [] s) as [A B]. rewrite Hp in A. rewrite Hi in B.
    split; [apply DictFacts.dict_get_In, A | exact B].
Qed.

(** X9: the tally the Paired variant prints is the truth about its
    output.  Without any pair it writes nothing and prints the two
    nothing-found messages; otherwise its last message counts as successes
    exactly the files written, out of the number of pairs, and the former
    never exceeds the latter. *)
Theorem paired_tally_matches_output
    (fitz_open : path -> option Fitz.document) (image_open : path -> option image)
    (page_width page_height : num) (entries : list dir_entry) :
  let pairs := fst (PDFInvoiceMerger.get_file_pairs (Some entries)) in
  let out := PDFInvoiceMerger.process_all fitz_open image_open page_width page_height
               (Some entries) in
  (pairs = [] ->
     PDFInvoiceMerger.written out = [] /\
     PDFInvoiceMerger.log out
     = [PDFInvoiceMerger.NoPairFound; PDFInvoiceMerger.NothingToProcess]) /\
  (pairs <> [] ->
     (len (PDFInvoiceMerger.written out) <= len pairs)%Z /\
     exists msgs,
       PDFInvoiceMerger.log out
       = msgs ++ [PDFInvoiceMerger.Finished (len (PDFInvoiceMerger.written out))
                                            (len pairs)]).
Proof.
  cbv zeta. unfold PDFInvoiceMerger.process_all.
  pose proof (PairedFacts.get_file_pairs_fst entries) as Ef.
  unfold PDFInvoiceMerger.get_file_pairs in *.
  destruct (PDFInvoiceMerger.scan entries [] []) as [P I].
  destruct (PDFInvoiceMerger.matching P I) as [pairs msgs] eqn:Em.
  pose proof (PairedFacts.matching_spec P I) as (_ & M & _). rewrite Em in M.
  cbn [fst snd] in *.
  destruct pairs as [|pr prs]; cbn [fst snd].
  - split; [|congruence]. intros _. split; [reflexivity|].
    destruct msgs as [|m ms]; [reflexivity|].
    exfalso. destruct (proj1 (M m) (or_introl eq_refl)) as (k & p & i & _ & Hin & Hi).
    pose proof (PairedFacts.matching_spec P I) as (M1 & _ & _). rewrite Em in M1.
    cbn [fst] in M1. apply (proj2 (M1 p i)). eauto.
  - split; [congruence|]. intros _.
    set (pairs := pr :: prs).
    pose proof (PairedFacts.process_pairs_spec fitz_open image_open page_width page_height
                  pairs 0 {| PDFInvoiceMerger.written := [];
                             PDFInvoiceMerger.log :=
                               msgs ++ [PDFInvoiceMerger.Processing (len pairs)] |})
      as [W L].
    pose proof (PairedMore.process_pairs_count fitz_open image_open page_width page_height
                  pairs 0 {| PDFInvoiceMerger.written := [];
                             PDFInvoiceMerger.log :=
                               msgs ++ [PDFInvoiceMerger.Processing (len pairs)] |})
      as C.
    destruct (PDFInvoiceMerger.process_pairs _ _ _ _ pairs 0 _) as [n out].
    cbn [fst snd PDFInvoiceMerger.written PDFInvoiceMerger.log] in *.
    rewrite W. cbn [app]. split.
    + unfold len. apply inj_le, PairedMore.merged_files_length.
    + eexists. rewrite C. reflexivity.
Qed.

(* ----------------------------------------------------------------- *)
(** *** pdf_to_image_merger.py *)

(** X10: for a positive number of items and a positive column limit the
    grid layout has between one and max_cols columns, never more columns
    than items, room for every item (rows * cols >= total) and no empty
    last row ((rows - 1) * cols < total). *)
Theorem grid_layout_has_room (total max_cols : Z) :
  (0 < total < 2 ^ 53)%Z -> (0 < max_cols)%Z ->
  exists rows cols,
    PDFToImageMerger.calculate_grid_layout total max_cols = Ok (rows, cols) /\
    (1 <= cols <= max_cols)%Z /\ (cols <= total)%Z /\
    (total <= rows * cols)%Z /\ ((rows - 1) * cols < total)%Z.
Proof.
  intros Ht Hm. eexists _, _. split.
  - apply GridFacts.calculate_grid_layout_spec; assumption.
  - split; [lia|]. split; [lia|]. split.
    + apply GridFacts.rows_cover; lia.
    + apply GridMore.rows_tight; lia.
Qed.

Lemma grid_layout_has_room_witness :
  exists rows cols,
    PDFToImageMerger.calculate_grid_layout 5 4 = Ok (rows, cols) /\
    (5 <= rows * cols)%Z /\ ((rows - 1) * cols < 5)%Z.
Proof.
  destruct (grid_layout_has_room 5 4) as (rows & cols & E & _ & _ & A & B).
  - split; reflexivity.
  - reflexivity.
  - exists rows, cols. auto.
Defined.

(** X11: a column limit of zero is not rejected: with at least one image
    the layout computation divides by zero, and merge_images_to_grid
    raises ZeroDivisionError without producing a composite. *)
Theorem grid_zero_columns_raises
    (all_images : list image) (image_labels : list PDFToImageMerger.label)
    (cell_width cell_height : Z) :
  all_images <> [] ->
  PDFToImageMerger.calculate_grid_layout (len all_images) 0 = Raise ZeroDivisionError /\
  PDFToImageMerger.merge_images_to_grid all_images image_labels cell_width cell_height 0
  = Raise ZeroDivisionError.
Proof.
  intros Hne. split; [|apply GridMore.zero_columns, Hne].
  assert (Hl : (0 < len all_images)%Z).
  { destruct all_images; [congruence|]. unfold len. cbn [List.length]. lia. }
  unfold PDFToImageMerger.calculate_grid_layout.
  replace (len all_images <=? 0)%Z with false by (symmetry; apply Z.leb_gt; lia).
  replace (Z.min 0 (len all_images)) with 0%Z by lia.
  rewrite truediv_Int0. reflexivity.
Qed.

Lemma grid_zero_columns_raises_witness :
  PDFToImageMerger.merge_images_to_grid five_pages five_labels 400 500 0
  = Raise ZeroDivisionError.
Proof.
  apply (grid_zero_columns_raises five_pages five_labels 400 500). discriminate.
Defined.

(** X12: a PDF that opens and whose pages all render contributes one grid
    item per page, in page order; with several pages the captions carry the
    page number, counted from 1, and with a single page the caption is the
    bare stem. *)
Theorem grid_page_captions
    (fitz_open : path -> option Fitz.document) (pdf_file : path)
    (doc : Fitz.document) (images : list image) :
  fitz_open pdf_file = Some doc ->
  PDFToImageMerger.render_all doc (value (quotient PDFToImageMerger.dpi (Float 72)))
  = Some images ->
  map fst (PDFToImageMerger.pages_of fitz_open pdf_file) = images /\
  List.length (PDFToImageMerger.pages_of fitz_open pdf_file) = List.length doc /\
  forall (k : nat) (image : image) (label : PDFToImageMerger.label),
    nth_error (PDFToImageMerger.pages_of fitz_open pdf_file) k = Some (image, label) ->
    label = if (1 <? len doc)%Z
            then PDFToImageMerger.Paged (stem pdf_file) (Z.of_nat k + 1)
            else PDFToImageMerger.Plain (stem pdf_file).
Proof.
  intros Ho Hr.
  pose proof (GridMore.render_all_length _ _ _ Hr) as Hlen.
  assert (Ec : PDFToImageMerger.convert_pdf_to_images fitz_open pdf_file = images).
  { unfold PDFToImageMerger.convert_pdf_to_images. rewrite Ho, Hr. reflexivity. }
  unfold PDFToImageMerger.pages_of. rewrite Ec.
  split; [|split].
  - rewrite map_map. cbn [fst]. change (fun x : Z * image => snd x) with (@snd Z image).
    apply GridMore.enumerate_snd.
  - rewrite length_map, GridFacts.enumerate_length. exact Hlen.
  - intros k image label Hk.
    rewrite nth_error_map in Hk.
    destruct (nth_error (enumerate images) k) as [[i img]|] eqn:En; [|discriminate].
    apply GridFacts.nth_error_enumerate in En. destruct En as [Ei _]. cbn [fst snd] in *.
    injection Hk as _ <-. subst i.
    unfold len. rewrite Hlen. rewrite Z.gtb_ltb. reflexivity.
Qed.

Lemma grid_page_captions_witness :
  map snd (PDFToImageMerger.pages_of (fun _ => Some two_page_pdf)
             {| stem := "invoice"; suffix := ".pdf" |})
  = [PDFToImageMerger.Paged "invoice" 1; PDFToImageMerger.Paged "invoice" 2].
Proof.
  destruct (grid_page_captions (fun _ => Some two_page_pdf)
              {| stem := "invoice"; suffix := ".pdf" |} two_page_pdf
              [ {| width := 1240; height := 1754 |}; {| width := 1754; height := 1240 |} ])
    as (_ & _ & C).
  - reflexivity.
  - reflexivity.
  - reflexivity.
Defined.

(** X13: when every rendered page keeps at least one pixel on each side in
    the picture area of a cell (cells of non-negative size), the composite
    of the Grid variant shows every rendered page, once and in order (PDFs
    sorted by name, pages in page order): its k-th cell carries the caption
    of the k-th item and that item's image, fitted and labelled. *)
Theorem grid_shows_every_page
    (fitz_open : path -> option Fitz.document) (pdf_files : list path)
    (max_cols cell_width cell_height : Z) :
  let items := flat_map (PDFToImageMerger.pages_of fitz_open) (sort_by name pdf_files) in
  items <> [] -> (len items < 2 ^ 53)%Z -> (0 < max_cols)%Z ->
  (0 <= cell_width)%Z -> (0 <= cell_height)%Z ->
  Forall (fun it => GridSpec.placeable cell_width cell_height (fst it)) items ->
  exists g,
    PDFToImageMerger.process_pdfs_to_merged_image fitz_open (Some pdf_files)
      max_cols cell_width cell_height = Ok (Some g) /\
    map PDFToImageMerger.caption (PDFToImageMerger.cells g) = map snd items /\
    forall (k : nat) (c : PDFToImageMerger.cell),
      nth_error (PDFToImageMerger.cells g) k = Some c ->
      exists image label,
        nth_error items k = Some (image, label) /\
        PDFToImageMerger.caption c = label /\
        PDFToImageMerger.labeled_image c
        = GridSpec.labelled cell_width cell_height image.
Proof.
  intros items Hne Hlen Hm Hcw Hch Hs.
  rewrite GridFacts.process_pdfs_eq. fold items.
  assert (Hne' : map fst items <> []) by (destruct items; [congruence | discriminate]).
  assert (Hlen' : (len (map fst items) < 2 ^ 53)%Z)
    by (unfold len in *; rewrite length_map; exact Hlen).
  assert (Hs' : Forall (GridSpec.placeable cell_width cell_height) (map fst items))
    by (rewrite Forall_map; exact Hs).
  rewrite (GridFacts.merge_images_to_grid_spec _ (map snd items) cell_width cell_height
             max_cols Hne' Hlen' Hm Hcw Hch Hs').
  eexists. split; [reflexivity|]. cbn [PDFToImageMerger.cells].
  rewrite GridFacts.combine_fst_snd. split.
  - rewrite GridMore.cell_of_caption.
    rewrite <- (map_map snd snd). rewrite GridMore.enumerate_snd. reflexivity.
  - intros k c Hk. rewrite nth_error_map in Hk.
    destruct (nth_error (enumerate items) k) as [[i [image label]]|] eqn:En;
      [|discriminate].
    apply GridFacts.nth_error_enumerate in En. destruct En as [_ En]. cbn [snd] in En.
    injection Hk as <-. exists image, label. split; [exact En|]. split; reflexivity.
Qed.

Lemma grid_shows_every_page_witness :
  exists g,
    PDFToImageMerger.process_pdfs_to_merged_image (fun _ => Some two_page_pdf)
      (Some [ {| stem := "invoice"; suffix := ".pdf" |} ]) 4 400 500 = Ok (Some g) /\
    map PDFToImageMerger.caption (PDFToImageMerger.cells g)
    = [PDFToImageMerger.Paged "invoice" 1; PDFToImageMerger.Paged "invoice" 2].
Proof.
  destruct (grid_shows_every_page (fun _ => Some two_page_pdf)
              [ {| stem := "invoice"; suffix := ".pdf" |} ] 4 400 500)
    as (g & E & C & _).
  - discriminate.
  - reflexivity.
  - reflexivity.
  - discriminate.
  - discriminate.
  - repeat constructor; vm_compute; discriminate.
  - exists g. split; [exact E | exact C].
Defined.

(** X14: given the same PDFs (no two with the same name), the Grid variant
    produces the same composite whatever the order in which the folder
    lists them. *)
Theorem grid_independent_of_listing
    (fitz_open : path -> option Fitz.document) (pdf_files pdf_files' : list path)
    (max_cols cell_width cell_height : Z) :
  Permutation pdf_files pdf_files' -> NoDup (map name pdf_files) ->
  PDFToImageMerger.process_pdfs_to_merged_image fitz_open (Some pdf_files')
    max_cols cell_width cell_height
  = PDFToImageMerger.process_pdfs_to_merged_image fitz_open (Some pdf_files)
      max_cols cell_width cell_height.
Proof.
  intros Hp Hn. rewrite !GridFacts.process_pdfs_eq. cbv zeta.
  rewrite (OrderFacts.sort_by_perm_eq name pdf_files pdf_files' Hp Hn). reflexivity.
Qed.

Lemma grid_independent_of_listing_witness :
  PDFToImageMerger.process_pdfs_to_merged_image one_page_pdf
    (Some [ {| stem := "B"; suffix := ".pdf" |}; {| stem := "a"; suffix := ".pdf" |} ])
    4 400 500
  = PDFToImageMerger.process_pdfs_to_merged_image one_page_pdf
      (Some [ {| stem := "a"; suffix := ".pdf" |}; {| stem := "B"; suffix := ".pdf" |} ])
      4 400 500.
Proof.
  apply (grid_independent_of_listing one_page_pdf
           [ {| stem := "a"; suffix := ".pdf" |}; {| stem := "B"; suffix := ".pdf" |} ]
           [ {| stem := "B"; suffix := ".pdf" |}; {| stem := "a"; suffix := ".pdf" |} ]).
  - apply perm_swap.
  - repeat (constructor; [cbn; intuition discriminate|]). constructor.
Defined.

(* ----------------------------------------------------------------- *)
(** *** Ties, names and borders *)

(** X15: the sort of get_all_files is stable: among the enumerated files
    whose lower-cased names are equal, the order of the folder listing is
    kept. *)
Theorem dual_ties_keep_listing_order
    (str_lower : string -> string) (entries : list dir_entry) (k : string) :
  filter (fun f => String.eqb (str_lower (name f)) k)
         (DualLayoutMerger.get_all_files str_lower (Some entries))
  = filter (fun f => String.eqb (str_lower (name f)) k)
      (map entry_path
         (filter (fun e =>
                    is_file e &&
                    (DualLayoutMerger.str_in (str_lower (suffix (entry_path e)))
                       DualLayoutMerger.supported_image_formats
                     || String.eqb (str_lower (suffix (entry_path e)))
                          DualLayoutMerger.supported_pdf_format))
                 entries)).
Proof.
  unfold DualLayoutMerger.get_all_files. cbv zeta.
  apply (StableFacts.sort_by_stable (fun x => str_lower (name x))).
Qed.

(** X16: no two files written by one run of the Paired variant have the
    same name: no pair overwrites the output of another. *)
Theorem paired_outputs_never_collide
    (fitz_open : path -> option Fitz.document) (image_open : path -> option image)
    (page_width page_height : num) (entries : list dir_entry) :
  NoDup (map fst (PDFInvoiceMerger.written
                    (PDFInvoiceMerger.process_all fitz_open image_open
                       page_width page_height (Some entries)))).
Proof.
  destruct (PairedFacts.process_all_spec fitz_open image_open page_width page_height
              entries) as [W _].
  rewrite W.
  apply PairedNames.NoDup_merged_names, PairedNames.NoDup_output_names.
  apply PairedFacts.pairs_spec.
Qed.

(** X17: an image whose sides are in a proportion the cell can hold
    (cell sides of at least 2, 2 * nativeW <= cellW * nativeH and
    2 * nativeH <= cellH * nativeW) keeps at least one pixel on each side
    after the fit, in each of the three copies of the computation. *)
Theorem fit_keeps_both_sides_positive (img : image) (cw ch : num) :
  (0 < width img < 2 ^ 53)%Z -> (0 < height img < 2 ^ 53)%Z ->
  2 <= value cw -> 2 <= value ch ->
  2 * inject_Z (width img) <= value cw * inject_Z (height img) ->
  2 * inject_Z (height img) <= value ch * inject_Z (width img) ->
  exists scaled,
    DualLayoutMerger.resize_image_to_fit (Some img) cw ch true = Ok (Some scaled) /\
    PDFInvoiceMerger.resize_image_to_fit img cw ch = Ok scaled /\
    PDFToImageMerger.resize_image_proportionally img cw ch = Ok scaled /\
    (1 <= width scaled)%Z /\ (1 <= height scaled)%Z.
Proof.
  intros Hw Hh Hcw Hch Aw Ah.
  assert (Pcw : 0 < value cw) by lra. assert (Pch : 0 < value ch) by lra.
  destruct (scaled_size_eval (width img) (height img) cw ch
              ltac:(lia) ltac:(lia) Pcw Pch)
    as (r1 & r2 & s & E1 & E2 & Hs & L1 & L2 & Hc & Es).
  destruct (fit_outcome img cw ch _ _ ltac:(lia) ltac:(lia) Es) as [R _].
  cut ((1 <= Qfloor (rnd (to_float (Int (width img)) * s)))%Z /\
       (1 <= Qfloor (rnd (to_float (Int (height img)) * s)))%Z).
  { intros Hpos. destruct (R Hpos) as (D & P & G).
    eexists. split; [exact D|]. split; [exact P|]. split; [exact G|]. exact Hpos. }
  clear R.
  pose proof (scaled_close (width img) (height img) cw ch r1 r2 s
                Hw Hh Pcw Pch E1 E2 Hs L1 L2 Hc) as [Wl _].
  pose proof (scaled_close (height img) (width img) ch cw r2 r1 s
                Hh Hw Pch Pcw E2 E1 Hs L2 L1 ltac:(tauto)) as [Hl _].
  cbv zeta in Wl, Hl.
  set (W := inject_Z (width img)) in *. set (H := inject_Z (height img)) in *.
  assert (HW : 0 < W) by (apply inject_Z_pos; lia).
  assert (HH : 0 < H) by (apply inject_Z_pos; lia).
  set (sg := Qmin (value cw / W) (value ch / H)) in *.
  assert (Esg : Qmin (value ch / H) (value cw / W) == sg) by apply Q.min_comm.
  rewrite Esg in Hl.
  assert (Sg1 : 2 <= W * sg /\ 2 <= H * sg).
  { unfold sg. destruct (Q.min_spec (value cw / W) (value ch / H)) as [[_ E]|[_ E]];
      rewrite E.
    - assert (X : W * (value cw / W) == value cw) by (field; lra).
      assert (Y : H * (value cw / W) == value cw * H / W) by (field; lra).
      rewrite X, Y. split; [lra|]. apply Qle_shift_div_l; lra.
    - assert (X : H * (value ch / H) == value ch) by (field; lra).
      assert (Y : W * (value ch / H) == value ch * W / H) by (field; lra).
      rewrite X, Y. split; [|lra]. apply Qle_shift_div_l; lra. }
  destruct Sg1 as [SW SH].
  pose proof u_val as Hu. rewrite Hu in Wl, Hl.
  split.
  - change 1%Z with (Qfloor 1). apply Qfloor_resp_le.
    eapply Qle_trans; [|exact Wl]. 
    apply Qle_trans with (2 * ((1 - (1 # 9007199254740992)) * (1 - (1 # 9007199254740992)) *
                     (1 - (1 # 9007199254740992)))); [lra|].
    apply Qmult_le_compat_r; [exact SW|]. lra.
  - change 1%Z with (Qfloor 1). apply Qfloor_resp_le.
    eapply Qle_trans; [|exact Hl].
    apply Qle_trans with (2 * ((1 - (1 # 9007199254740992)) * (1 - (1 # 9007199254740992)) *
                     (1 - (1 # 9007199254740992)))); [lra|].
    apply Qmult_le_compat_r; [exact SH|]. lra.
Qed.

Lemma fit_keeps_both_sides_positive_witness :
  exists scaled,
    PDFToImageMerger.resize_image_proportionally {| width := 1000; height := 10 |}
      (Int 396) (Int 446) = Ok scaled /\
    (1 <= width scaled)%Z /\ (1 <= height scaled)%Z.
Proof.
  destruct (fit_keeps_both_sides_positive {| width := 1000; height := 10 |}
              (Int 396) (Int 446)) as (scaled & _ & _ & G & W & H).
  - split; reflexivity.
  - split; reflexivity.
  - vm_compute. discriminate.
  - vm_compute. discriminate.
  - vm_compute. discriminate.
  - vm_compute. discriminate.
  - exists scaled. auto.
Defined.

(** X18: when every image keeps at least one pixel on each side in the
    picture area of its cell, in every cell of the composite the border
    stays visible: the labelled picture is pasted at least the border width
    (2) from the left and right edges of its cell and at least 5 from the
    top and bottom edges. *)
Theorem grid_border_stays_visible
    (all_images : list image) (image_labels : list PDFToImageMerger.label)
    (cell_width cell_height max_cols : Z) :
  all_images <> [] -> (len all_images < 2 ^ 53)%Z -> (0 < max_cols)%Z ->
  (4 < cell_width <= 2 ^ 51)%Z -> (54 < cell_height <= 2 ^ 51)%Z ->
  Forall (GridSpec.placeable cell_width cell_height) all_images ->
  exists g,
    PDFToImageMerger.merge_images_to_grid all_images image_labels
      cell_width cell_height max_cols = Ok (Some g) /\
    forall c, In c (PDFToImageMerger.cells g) ->
      (PDFToImageMerger.border_width <= PDFToImageMerger.paste_x c /\
       PDFToImageMerger.paste_x c + width (PDFToImageMerger.labeled_image c)
         <= cell_width - PDFToImageMerger.border_width /\
       5 <= PDFToImageMerger.paste_y c /\
       PDFToImageMerger.paste_y c + height (PDFToImageMerger.labeled_image c)
         <= cell_height - 5)%Z.
Proof.
  intros Hne Hlen Hm Hcw Hch Hs.
  rewrite (GridFacts.merge_images_to_grid_spec all_images image_labels cell_width
             cell_height max_cols Hne Hlen Hm ltac:(lia) ltac:(lia) Hs).
  eexists. split; [reflexivity|]. cbn [PDFToImageMerger.cells].
  intros c Hin. apply in_map_iff in Hin. destruct Hin as ([i [image label]] & <- & Hin).
  assert (Himg : In image all_images).
  { apply (in_map snd) in Hin. unfold enumerate in Hin.
    assert (Hx : In (image, label) (combine all_images image_labels)).
    { clear - Hin. revert Hin. generalize (range (len (combine all_images image_labels))).
      generalize (combine all_images image_labels).
      induction l as [|a l IH]; intros [|z zs]; cbn; try tauto.
      intros [E|E]; [left; exact E | right; eapply IH, E]. }
    apply in_combine_l in Hx. exact Hx. }
  rewrite Forall_forall in Hs. destruct (Hs image Himg) as (Hw & Hh & _).
  destruct (GridFacts.fitted_bounds cell_width cell_height image Hw Hh Hcw Hch)
    as [[W0 W1] [H0 H1]].
  unfold GridSpec.cell_of, GridSpec.labelled, PDFToImageMerger.border_width.
  cbn [PDFToImageMerger.paste_x PDFToImageMerger.paste_y PDFToImageMerger.labeled_image
       width height fst snd].
  set (fw := width (GridSpec.fitted cell_width cell_height image)) in *.
  set (fh := height (GridSpec.fitted cell_width cell_height image)) in *.
  pose proof (Z.div_mod (cell_width - fw) 2 ltac:(lia)) as Dx.
  pose proof (Z.mod_pos_bound (cell_width - fw) 2 ltac:(lia)) as Mx.
  pose proof (Z.div_mod (cell_height - (fh + (24 + 20))) 2 ltac:(lia)) as Dy.
  pose proof (Z.mod_pos_bound (cell_height - (fh + (24 + 20))) 2 ltac:(lia)) as My.
  lia.
Qed.

Lemma grid_border_stays_visible_witness :
  exists g,
    PDFToImageMerger.merge_images_to_grid five_pages five_labels 400 500 4 = Ok (Some g) /\
    forall c, In c (PDFToImageMerger.cells g) -> (2 <= PDFToImageMerger.paste_x c)%Z.
Proof.
  destruct (grid_border_stays_visible five_pages five_labels 400 500 4)
    as (g & E & B).
  - discriminate.
  - reflexivity.
  - reflexivity.
  - split; [reflexivity | discriminate].
  - split; [reflexivity | discriminate].
  - exact five_pages_placeable.
  - exists g. split; [exact E|]. intros c Hc. apply (B c Hc).
Defined.

(* ----------------------------------------------------------------- *)
(** *** main.py and the main of pdf_to_image_merger.py *)

(** X19: a session of the menu starts a feature only when a line of the
    input, stripped of blanks, is that feature's menu number: nothing runs
    that was not asked for. *)
Theorem menu_runs_only_chosen_features
    (int_of_str : string -> option Z) (fuel : nat) (input : Console.stdin)
    (f : Menu.feature) :
  In (Menu.Run f) (Menu.trace_of (Menu.main int_of_str fuel input)) ->
  exists line, In line input /\ Console.strip line = Menu.key f.
Proof.
  intros H. unfold Menu.main in H.
  apply MenuFacts.loop_runs_chosen in H. destruct H as [[]|H]. exact H.
Qed.

Lemma menu_runs_only_chosen_features_witness :
  exists line,
    In line [" 3 "; "n"; "1"]%string /\ Console.strip line = "3"%string.
Proof.
  apply (menu_runs_only_chosen_features decimal 4 [" 3 "; "n"; "1"]%string
           Menu.DualLayoutMerger).
  vm_compute. auto.
Defined.

(** X20: a session either ends within one round more than the input has
    lines, and then ends the same way with any larger number of rounds,
    or it never ends. *)
Theorem menu_ends_soon_or_never
    (int_of_str : string -> option Z) (input : Console.stdin) :
  (exists fuel,
     (fuel <= S (List.length input))%nat /\
     (forall t, Menu.main int_of_str fuel input <> Menu.OutOfFuel t) /\
     forall extra,
       Menu.main int_of_str (fuel + extra) input = Menu.main int_of_str fuel input) \/
  Menu.never_ends int_of_str None input.
Proof.
  unfold Menu.main.
  destruct (Menu.loop int_of_str (S (List.length input)) None input []) as [t r|e t|t] eqn:E.
  - left. exists (S (List.length input)). split; [lia|].
    assert (N : forall t0, Menu.loop int_of_str (S (List.length input)) None input []
                           <> Menu.OutOfFuel t0) by (rewrite E; discriminate).
    split; [exact N|]. intros extra. apply MenuFacts.loop_more_fuel, N.
  - left. exists (S (List.length input)). split; [lia|].
    assert (N : forall t0, Menu.loop int_of_str (S (List.length input)) None input []
                           <> Menu.OutOfFuel t0) by (rewrite E; discriminate).
    split; [exact N|]. intros extra. apply MenuFacts.loop_more_fuel, N.
  - right. apply (MenuFacts.loop_ends_soon_or_never int_of_str
                    (S (List.length input)) None input []); [lia | eauto].
Qed.

(** X21: when the input ends right after a choice that is none of 0, 1,
    2, 3, the loop never ends: every round fails to read a line, reports
    the error and starts again. *)
Theorem menu_hangs_after_unknown_choice
    (int_of_str : string -> option Z) (line : string) :
  Console.str_in (Console.strip line) ["0"; "1"; "2"; "3"]%string = false ->
  forall fuel, exists trace,
    Menu.main int_of_str fuel [line] = Menu.OutOfFuel trace.
Proof.
  intros Hc [|fuel]; [eexists; reflexivity|].
  unfold Menu.main. cbn [Menu.loop].
  cbn [Console.str_in existsb] in Hc.
  apply orb_false_iff in Hc. destruct Hc as [H0 Hc].
  apply orb_false_iff in Hc. destruct Hc as [H1 Hc].
  apply orb_false_iff in Hc. destruct Hc as [H2 Hc].
  apply orb_false_iff in Hc. destruct Hc as [H3 _].
  rewrite H0, H1, H2, H3. unfold Menu.go_on.
  assert (Hn : Console.str_in (Console.strip line) ["1"; "2"; "3"]%string = false).
  { cbn [Console.str_in existsb]. rewrite H1, H2, H3. reflexivity. }
  rewrite Hn. apply MenuFacts.loop_spins, Hn.
Qed.

Lemma menu_hangs_after_unknown_choice_witness :
  exists trace, Menu.main decimal 1000 ["9"]%string = Menu.OutOfFuel trace.
Proof.
  apply (menu_hangs_after_unknown_choice decimal "9"%string). reflexivity.
Defined.

(** X22: answering 0 to the question for the number of columns (with the
    two sizes accepted) makes the main of the image merger end with
    ZeroDivisionError whenever at least one page of the folder's PDFs
    renders. *)
Theorem grid_cli_zero_columns_raises
    (int_of_str : string -> option Z) (fitz_open : path -> option Fitz.document)
    (pdf_files : list path) (line1 line2 line3 : string) (rest : Console.stdin)
    (cell_width cell_height : Z) :
  int_of_str (GridCli.answer line1 "4") = Some 0%Z ->
  int_of_str (GridCli.answer line2 "400") = Some cell_width ->
  int_of_str (GridCli.answer line3 "500") = Some cell_height ->
  flat_map (PDFToImageMerger.pages_of fitz_open) (sort_by name pdf_files) <> [] ->
  GridCli.main int_of_str fitz_open (Some pdf_files) (line1 :: line2 :: line3 :: rest)
  = (GridCli.Raised ZeroDivisionError, rest).
Proof.
  intros E1 E2 E3 Hne.
  unfold GridCli.main, GridCli.read_settings. rewrite E1, E2, E3.
  rewrite GridFacts.process_pdfs_eq. cbv zeta.
  rewrite GridMore.zero_columns; [reflexivity|].
  destruct (flat_map _ _); [congruence | discriminate].
Qed.

Lemma grid_cli_zero_columns_raises_witness :
  GridCli.main decimal one_page_pdf (Some [ {| stem := "a"; suffix := ".pdf" |} ])
    ["0"; ""; ""; "n"]%string
  = (GridCli.Raised ZeroDivisionError, ["n"]%string).
Proof.
  apply (grid_cli_zero_columns_raises decimal one_page_pdf
           [ {| stem := "a"; suffix := ".pdf" |} ] "0" "" "" ["n"]%string 400 500).
  - reflexivity.
  - reflexivity.
  - reflexivity.
  - discriminate.
Defined.
